(** * MockNatsClient: an in-process stand-in for a NATS client

    A shallow embedding of [src/lib/MockNatsClient.js] together with the
    pieces of the JavaScript platform the class leans on (ordinary objects
    used as maps, [JSON], [Buffer], timers), followed by the properties the
    specification states about it. *)

From Stdlib Require Import ZArith NArith Lia List String Ascii Bool Permutation.
From Stdlib Require Import DecimalString DecimalN DecimalPos.
From Stdlib.Strings Require Import Byte.
From stdpp Require Import base list strings sorting.
Import ListNotations.

#[local] Arguments String.append : simpl nomatch.

(** ** Ordinary JavaScript objects used as maps

    [_findSubscribesBySubject] collects its result in an object literal
    [{}], writes it with [onePerQueue[key] = sub] and reads it back with
    [Object.values].  Three rules of the language decide what comes out:

    - own properties are listed with the array-index keys first, in
      ascending numeric order, then the other string keys in the order in
      which they were created;
    - writing an existing key replaces the value and keeps the position;
    - writing the key [__proto__] on an object that inherits from
      [Object.prototype] runs the inherited setter: it changes the
      prototype and creates no own property. *)

Module JsObject.

(** Own enumerable string-keyed properties, in listing order. *)
Definition props (A : Type) : Type := list (string * A).

Definition show_N (n : N) : string := NilEmpty.string_of_uint (N.to_uint n).

Definition read_N (s : string) : option N :=
  match s with
  | EmptyString => None
  | _ => option_map N.of_uint (NilEmpty.uint_of_string s)
  end.

(** An array index is a key [s] that is the canonical decimal text of an
    integer below [2^32 - 1]: [ToString (ToUint32 s) = s]. *)
Definition array_index (s : string) : option N :=
  match read_N s with
  | Some n => if String.eqb (show_N n) s && (n <? 4294967295)%N then Some n else None
  | None => None
  end.

Fixpoint has_key {A} (k : string) (o : props A) : bool :=
  match o with
  | [] => false
  | (k', _) :: o' => String.eqb k k' || has_key k o'
  end.

Fixpoint replace_value {A} (k : string) (v : A) (o : props A) : props A :=
  match o with
  | [] => []
  | (k', v') :: o' =>
      if String.eqb k k' then (k', v) :: o' else (k', v') :: replace_value k v o'
  end.

(** Position of a new array-index key [n]: after the smaller indices. *)
Fixpoint insert_index {A} (n : N) (k : string) (v : A) (o : props A) : props A :=
  match o with
  | [] => [(k, v)]
  | (k', v') :: o' =>
      match array_index k' with
      | Some m => if (m <? n)%N then (k', v') :: insert_index n k v o' else (k, v) :: o
      | None => (k, v) :: o
      end
  end.

(** [CreateDataProperty]: what [JSON.parse] uses, and what an assignment
    ends in for every key but [__proto__]. *)
Definition define {A} (k : string) (v : A) (o : props A) : props A :=
  if has_key k o then replace_value k v o
  else match array_index k with
       | Some n => insert_index n k v o
       | None => o ++ [(k, v)]
       end.

(** [o[k] = v] on an object created by [{}], [v] being an object. *)
Definition set {A} (k : string) (v : A) (o : props A) : props A :=
  if String.eqb k "__proto__" then o else define k v o.

(** A property list as an object can have it: creating its properties one
    after the other, in the order of the list, gives the list back.  (The
    keys are distinct, the array indices come first and ascend.) *)
Definition proper {A} (o : props A) : Prop :=
  fold_left (fun acc kv => define (fst kv) (snd kv) acc) o [] = o.

(** [o[k]], for an own property. *)
Fixpoint get {A} (k : string) (o : props A) : option A :=
  match o with
  | [] => None
  | (k', v) :: o' => if String.eqb k k' then Some v else get k o'
  end.

(** [Object.values(o)]. *)
Definition values {A} (o : props A) : list A := map snd o.

Definition keys {A} (o : props A) : list string := map fst o.

End JsObject.

(** ** JavaScript values

    The values a test passes to the client and the client hands to the
    subscription handlers.  Numbers are the integers (a JSON text with a
    fraction or an exponent is outside the model); a string is kept as the
    bytes of its UTF-8 encoding, so [Buffer.from(text)] copies it; a
    function is known by its name only. *)

Definition fn : Type := string.

#[local] Unset Elimination Schemes.

Inductive value : Type :=
| VUndefined
| VNull
| VBool (b : bool)
| VNum (z : Z)
| VStr (s : string)
| VBuffer (b : list Byte.byte)
| VArr (l : list value)
| VObj (o : list (string * value))
| VFun (f : fn).

#[local] Set Elimination Schemes.

(** Induction on values, through the arrays and the objects. *)
Definition value_induction (P : value -> Prop)
  (Hundef : P VUndefined) (Hnull : P VNull) (Hbool : forall b, P (VBool b))
  (Hnum : forall z, P (VNum z)) (Hstr : forall s, P (VStr s))
  (Hbuf : forall b, P (VBuffer b))
  (Harr : forall l, Forall P l -> P (VArr l))
  (Hobj : forall o, Forall (fun kv => P (snd kv)) o -> P (VObj o))
  (Hfun : forall f, P (VFun f)) : forall v, P v :=
  fix go (v : value) : P v :=
    match v with
    | VUndefined => Hundef
    | VNull => Hnull
    | VBool b => Hbool b
    | VNum z => Hnum z
    | VStr s => Hstr s
    | VBuffer b => Hbuf b
    | VArr l =>
        Harr l ((fix all (l : list value) : Forall P l :=
                   match l with
                   | [] => @List.Forall_nil _ P
                   | x :: l' => @List.Forall_cons _ P x l' (go x) (all l')
                   end) l)
    | VObj o =>
        Hobj o ((fix all (o : list (string * value)) : Forall (fun kv => P (snd kv)) o :=
                   match o with
                   | [] => @List.Forall_nil _ _
                   | kv :: o' =>
                       @List.Forall_cons _ (fun kv => P (snd kv)) kv o' (go (snd kv)) (all o')
                   end) o)
    | VFun f => Hfun f
    end.

(** What a call can throw.  [Raised f] is whatever the handler [f] threw;
    [Unmodelled] stands for a call of a built-in on arguments that the
    model does not cover. *)
Inductive error : Type :=
| TypeError
| SyntaxError
| ReferenceError
| Raised (f : fn)
| Unmodelled.

Definition dquote : ascii := "034"%char.
Definition backslash : ascii := "092"%char.

(** ** [Buffer] *)

Module Buffer.

Definition replacement : list N := [239; 191; 189]%N.

(** Decoder state between two code points: the bytes of the sequence read
    so far, how many continuation bytes are still due, and the range the
    next one has to lie in. *)
Record pending : Type := Pending { seen : list N; needed : nat; lower : N; upper : N }.

Definition idle : pending := Pending [] 0 128 191.

(** The range of the byte that follows a first byte [b]: the sequences
    that are too long for their code point, the surrogates and the code
    points beyond U+10FFFF are shut out there. *)
Definition lower_after (b : N) : N :=
  if (b =? 224)%N then 160 else if (b =? 240)%N then 144 else 128.

Definition upper_after (b : N) : N :=
  if (b =? 237)%N then 159 else if (b =? 244)%N then 143 else 191.

(** A byte met while no sequence is open. *)
Definition lead (b : N) : list N * pending :=
  if (b <=? 127)%N then ([b], idle)
  else if (194 <=? b)%N && (b <=? 223)%N then ([], Pending [b] 1 128 191)
  else if (224 <=? b)%N && (b <=? 239)%N then
    ([], Pending [b] 2 (lower_after b) (upper_after b))
  else if (240 <=? b)%N && (b <=? 244)%N then
    ([], Pending [b] 3 (lower_after b) (upper_after b))
  else (replacement, idle).

Definition step (p : pending) (b : N) : list N * pending :=
  match needed p with
  | O => lead b
  | S k =>
      if (lower p <=? b)%N && (b <=? upper p)%N then
        match k with
        | O => (seen p ++ [b], idle)
        | S _ => ([], Pending (seen p ++ [b]) k 128 191)
        end
      else let (out, p') := lead b in (replacement ++ out, p')
  end.

Fixpoint decode (p : pending) (bs : list N) : list N :=
  match bs with
  | [] => match needed p with O => [] | S _ => replacement end
  | b :: bs' => let (out, p') := step p b in out ++ decode p' bs'
  end.

(** [Buffer.from(text)]: the UTF-8 bytes of a string. *)
Definition of_string (s : string) : list Byte.byte := list_byte_of_string s.

(** [buf.toString()]: UTF-8 decoding, every ill-formed sequence becoming
    U+FFFD; the result is again kept as UTF-8 bytes. *)
Definition toString (b : list Byte.byte) : string :=
  string_of_list_ascii (map ascii_of_N (decode idle (map Byte.to_N b))).

End Buffer.

(** ** [JSON] *)

Module JSON.

(** The text of a number: decimal digits, as [Number::toString] writes
    the integers a number holds exactly. *)
Definition show_Z (z : Z) : string :=
  if (z <? 0)%Z then String "-" (JsObject.show_N (Z.abs_N z)) else JsObject.show_N (Z.to_N z).

Definition hex_digit (n : N) : ascii :=
  if (n <? 10)%N then ascii_of_N (48 + n) else ascii_of_N (87 + n).

(** [QuoteJSONString], one character at a time. *)
Definition escape (c : ascii) : string :=
  let n := N_of_ascii c in
  if (n =? 34)%N then String backslash (String dquote EmptyString)
  else if (n =? 92)%N then String backslash (String backslash EmptyString)
  else if (n =? 8)%N then String backslash "b"
  else if (n =? 12)%N then String backslash "f"
  else if (n =? 10)%N then String backslash "n"
  else if (n =? 13)%N then String backslash "r"
  else if (n =? 9)%N then String backslash "t"
  else if (n <? 32)%N then
    String backslash (String "u" (String "0" (String "0"
      (String (hex_digit (n / 16)) (String (hex_digit (n mod 16)) EmptyString)))))
  else String c EmptyString.

Fixpoint escape_all (s : string) : string :=
  match s with
  | EmptyString => EmptyString
  | String c s' => escape c +:+ escape_all s'
  end.

Definition quote (s : string) : string :=
  String dquote (escape_all s +:+ String dquote EmptyString).

Fixpoint join (l : list string) : string :=
  match l with
  | [] => EmptyString
  | [x] => x
  | x :: l' => x +:+ String "," (join l')
  end.

(** [buf.toJSON()]. *)
Definition buffer_toJSON (b : list Byte.byte) : list (string * value) :=
  [("type"%string, VStr "Buffer");
   ("data"%string, VArr (map (fun x => VNum (Z.of_N (Byte.to_N x))) b))].

(** [JSON.stringify(v)]; [None] is the result [undefined], which is what a
    function or [undefined] serialises to.  Inside an array such a value is
    written [null], inside an object its member is dropped. *)
Fixpoint stringify (v : value) : option string :=
  match v with
  | VUndefined | VFun _ => None
  | VNull => Some "null"%string
  | VBool b => Some (if b then "true" else "false")%string
  | VNum z => Some (show_Z z)
  | VStr s => Some (quote s)
  | VBuffer b =>
      Some ("{" +:+ quote "type" +:+ ":" +:+ quote "Buffer" +:+ "," +:+ quote "data" +:+ ":["
            +:+ join (map (fun x => JsObject.show_N (Byte.to_N x)) b) +:+ "]}")
  | VArr l =>
      Some ("[" +:+ join (map (fun x => default "null"%string (stringify x)) l) +:+ "]")
  | VObj o =>
      Some ("{" +:+ join (flat_map (fun kv => match kv with
                                               | (k, x) => match stringify x with
                                                           | Some t => [quote k +:+ ":" +:+ t]
                                                           | None => []
                                                           end
                                               end) o) +:+ "}")
  end.

Definition is_ws (c : ascii) : bool :=
  let n := N_of_ascii c in
  (n =? 32)%N || (n =? 9)%N || (n =? 10)%N || (n =? 13)%N.

Fixpoint skip_ws (s : string) : string :=
  match s with
  | String c s' => if is_ws c then skip_ws s' else s
  | EmptyString => s
  end.

Definition is_digit (c : ascii) : bool :=
  let n := N_of_ascii c in (48 <=? n)%N && (n <=? 57)%N.

Fixpoint span_digits (s : string) : string * string :=
  match s with
  | String c s' =>
      if is_digit c then let (d, r) := span_digits s' in (String c d, r)
      else (EmptyString, s)
  | EmptyString => (EmptyString, EmptyString)
  end.

Definition hex_value (c : ascii) : option N :=
  let n := N_of_ascii c in
  if (48 <=? n)%N && (n <=? 57)%N then Some (n - 48)%N
  else if (97 <=? n)%N && (n <=? 102)%N then Some (n - 87)%N
  else if (65 <=? n)%N && (n <=? 70)%N then Some (n - 55)%N
  else None.

(** The character after a backslash, [u] apart. *)
Definition unescape (c : ascii) : option ascii :=
  let n := N_of_ascii c in
  if (n =? 34)%N then Some dquote
  else if (n =? 92)%N then Some backslash
  else if (n =? 47)%N then Some "/"%char
  else if (n =? 98)%N then Some (ascii_of_N 8)
  else if (n =? 102)%N then Some (ascii_of_N 12)
  else if (n =? 110)%N then Some (ascii_of_N 10)
  else if (n =? 114)%N then Some (ascii_of_N 13)
  else if (n =? 116)%N then Some (ascii_of_N 9)
  else None.

(** UTF-8 bytes of a code point of the basic plane; a surrogate has none. *)
Definition utf8 (cp : N) : option string :=
  if (cp <? 128)%N then Some (String (ascii_of_N cp) EmptyString)
  else if (cp <? 2048)%N then
    Some (String (ascii_of_N (192 + cp / 64)) (String (ascii_of_N (128 + cp mod 64)) EmptyString))
  else if (55296 <=? cp)%N && (cp <=? 57343)%N then None
  else
    Some (String (ascii_of_N (224 + cp / 4096))
           (String (ascii_of_N (128 + (cp / 64) mod 64))
             (String (ascii_of_N (128 + cp mod 64)) EmptyString))).

(** The characters of a string literal after its opening quote: the text
    they denote and what follows the closing quote. *)
Fixpoint parse_chars (s : string) : option (string * string) :=
  match s with
  | EmptyString => None
  | String c s1 =>
      if Ascii.eqb c dquote then Some (EmptyString, s1)
      else if Ascii.eqb c backslash then
        match s1 with
        | String e s2 =>
            match unescape e with
            | Some c' =>
                match parse_chars s2 with
                | Some (t, r) => Some (String c' t, r)
                | None => None
                end
            | None =>
                if Ascii.eqb e "u" then
                  match s2 with
                  | String h3 (String h2 (String h1 (String h0 s3))) =>
                      match hex_value h3, hex_value h2, hex_value h1, hex_value h0 with
                      | Some a, Some b, Some c0, Some d =>
                          match utf8 (((a * 16 + b) * 16 + c0) * 16 + d)%N, parse_chars s3 with
                          | Some u, Some (t, r) => Some (u +:+ t, r)
                          | _, _ => None
                          end
                      | _, _, _, _ => None
                      end
                  | _ => None
                  end
                else None
            end
        | EmptyString => None
        end
      else if (N_of_ascii c <? 32)%N then None
      else match parse_chars s1 with
           | Some (t, r) => Some (String c t, r)
           | None => None
           end
  end.

(** [s] without its prefix [p]. *)
Fixpoint strip (p s : string) : option string :=
  match p with
  | EmptyString => Some s
  | String c p' =>
      match s with
      | String d s' => if Ascii.eqb c d then strip p' s' else None
      | EmptyString => None
      end
  end.

(** An optional minus sign and a decimal integer without leading zeros,
    refused when a fraction or an exponent follows. *)
Definition parse_number (s : string) : option (value * string) :=
  let (neg, s1) := match strip "-" s with
                   | Some s' => (true, s')
                   | None => (false, s)
                   end in
  let (ds, rest) := span_digits s1 in
  match JsObject.read_N ds with
  | Some n =>
      if String.eqb (JsObject.show_N n) ds
         && negb (match rest with
                  | String c _ => Ascii.eqb c "." || Ascii.eqb c "e" || Ascii.eqb c "E"
                  | EmptyString => false
                  end)
      then Some (VNum (if neg then - Z.of_N n else Z.of_N n), rest)
      else None
  | None => None
  end.

Fixpoint parse_value (fuel : nat) (s : string) : option (value * string) :=
  match fuel with
  | O => None
  | S fuel' =>
      match skip_ws s with
      | String c s1 =>
          if Ascii.eqb c dquote then
            match parse_chars s1 with
            | Some (t, r) => Some (VStr t, r)
            | None => None
            end
          else if Ascii.eqb c "[" then
            match strip "]" (skip_ws s1) with
            | Some r => Some (VArr [], r)
            | None =>
                match parse_elements fuel' s1 with
                | Some (l, r) => Some (VArr l, r)
                | None => None
                end
            end
          else if Ascii.eqb c "{" then
            match strip "}" (skip_ws s1) with
            | Some r => Some (VObj [], r)
            | None =>
                match parse_members fuel' [] s1 with
                | Some (o, r) => Some (VObj o, r)
                | None => None
                end
            end
          else if Ascii.eqb c "-" || is_digit c then parse_number (String c s1)
          else
            match strip "null" (String c s1), strip "true" (String c s1), strip "false" (String c s1) with
            | Some r, _, _ => Some (VNull, r)
            | _, Some r, _ => Some (VBool true, r)
            | _, _, Some r => Some (VBool false, r)
            | _, _, _ => None
            end
      | EmptyString => None
      end
  end
with parse_elements (fuel : nat) (s : string) : option (list value * string) :=
  match fuel with
  | O => None
  | S fuel' =>
      match parse_value fuel' s with
      | Some (v, r) =>
          match strip "," (skip_ws r), strip "]" (skip_ws r) with
          | Some r', _ =>
              match parse_elements fuel' r' with
              | Some (l, r'') => Some (v :: l, r'')
              | None => None
              end
          | None, Some r' => Some ([v], r')
          | None, None => None
          end
      | None => None
      end
  end
with parse_members (fuel : nat) (acc : list (string * value)) (s : string)
  : option (list (string * value) * string) :=
  match fuel with
  | O => None
  | S fuel' =>
      match strip (String dquote EmptyString) (skip_ws s) with
      | Some s1 =>
          match parse_chars s1 with
          | Some (k, r) =>
              match strip ":" (skip_ws r) with
              | Some r1 =>
                  match parse_value fuel' r1 with
                  | Some (v, r2) =>
                      match strip "," (skip_ws r2), strip "}" (skip_ws r2) with
                      | Some r3, _ => parse_members fuel' (JsObject.define k v acc) r3
                      | None, Some r3 => Some (JsObject.define k v acc, r3)
                      | None, None => None
                      end
                  | None => None
                  end
              | None => None
              end
          | None => None
          end
      | None => None
      end
  end.

(** [JSON.parse(text)]: one value, then nothing but white space. *)
Definition parse (s : string) : error + value :=
  match parse_value (S (String.length s)) s with
  | Some (v, r) => match skip_ws r with
                   | EmptyString => inr v
                   | _ => inl SyntaxError
                   end
  | None => inl SyntaxError
  end.

End JSON.

(** ** [ToNumber] and [ToUint8]

    [Buffer.from] stores each element of an array as a byte: the element
    goes through [ToNumber] and the number through [ToUint8].  The text of
    a number is read exactly and rounded to the nearest double only where
    the byte depends on it. *)

Module Number.

#[local] Open Scope Z_scope.

(** A number before it is rounded to a double: NaN, an infinity, or the
    real [n / d], [n] not negative and [d] positive, with its sign. *)
Inductive t : Type :=
| NaN
| Infinity
| Ratio (negative : bool) (n d : Z).

(** [StrWhiteSpaceChar] in UTF-8, by the bytes of the character: TAB, LF,
    VT, FF, CR and SP; U+00A0; U+1680, U+2000 to U+200A, U+2028, U+2029,
    U+202F, U+205F, U+3000 and U+FEFF. *)
Definition white1 (a : N) : bool :=
  (N.leb 9 a && N.leb a 13) || N.eqb a 32.

Definition white2 (a b : N) : bool := N.eqb a 194 && N.eqb b 160.

Definition white3 (a b c : N) : bool :=
  (N.eqb a 225 && N.eqb b 154 && N.eqb c 128)
  || (N.eqb a 226 && N.eqb b 128
      && ((N.leb 128 c && N.leb c 138) || N.eqb c 168 || N.eqb c 169 || N.eqb c 175))
  || (N.eqb a 226 && N.eqb b 129 && N.eqb c 159)
  || (N.eqb a 227 && N.eqb b 128 && N.eqb c 128)
  || (N.eqb a 239 && N.eqb b 187 && N.eqb c 191).

Fixpoint skip_white (s : string) : string :=
  match s with
  | String c0 r0 =>
      if white1 (N_of_ascii c0) then skip_white r0
      else match r0 with
           | String c1 r1 =>
               if white2 (N_of_ascii c0) (N_of_ascii c1) then skip_white r1
               else match r1 with
                    | String c2 r2 =>
                        if white3 (N_of_ascii c0) (N_of_ascii c1) (N_of_ascii c2)
                        then skip_white r2 else s
                    | EmptyString => s
                    end
           | EmptyString => s
           end
  | EmptyString => s
  end.

(** Nothing but white space is left. *)
Definition ends (rest : string) : bool :=
  match skip_white rest with
  | EmptyString => true
  | String _ _ => false
  end.

(** The digits of the given radix at the head of a text, and the rest. *)
Fixpoint span_radix (radix : N) (s : string) : string * string :=
  match s with
  | String c s' =>
      match JSON.hex_value c with
      | Some v =>
          if (v <? radix)%N
          then let (d, r) := span_radix radix s' in (String c d, r)
          else (EmptyString, s)
      | None => (EmptyString, s)
      end
  | EmptyString => (EmptyString, EmptyString)
  end.

Fixpoint digits_value (radix acc : Z) (digits : string) : Z :=
  match digits with
  | EmptyString => acc
  | String c digits' =>
      digits_value radix (acc * radix + Z.of_N (default 0%N (JSON.hex_value c))) digits'
  end.

(** The letter after the [0] of a [NonDecimalIntegerLiteral]. *)
Definition radix_of (c : ascii) : option N :=
  let n := N_of_ascii c in
  if N.eqb n 120 || N.eqb n 88 then Some 16%N
  else if N.eqb n 111 || N.eqb n 79 then Some 8%N
  else if N.eqb n 98 || N.eqb n 66 then Some 2%N
  else None.

(** [ExponentPart], if there is one: its value and what follows. *)
Definition exponent_part (s : string) : option (Z * string) :=
  match s with
  | String c s1 =>
      if Ascii.eqb c "e" || Ascii.eqb c "E" then
        let (negative, s2) :=
          match s1 with
          | String sign r =>
              if Ascii.eqb sign "-" then (true, r)
              else if Ascii.eqb sign "+" then (false, r)
              else (false, s1)
          | EmptyString => (false, s1)
          end in
        let (digits, rest) := span_radix 10 s2 in
        match digits with
        | EmptyString => None
        | String _ _ =>
            Some (if negative then - digits_value 10 0 digits else digits_value 10 0 digits,
                  rest)
        end
      else Some (0, s)
  | EmptyString => Some (0, s)
  end.

(** [StrUnsignedDecimalLiteral] and the white space after it. *)
Definition unsigned_decimal (negative : bool) (s : string) : t :=
  match JSON.strip "Infinity" s with
  | Some rest => if ends rest then Infinity else NaN
  | None =>
      let (int, r1) := span_radix 10 s in
      let (frac, r2) :=
        match r1 with
        | String c r => if Ascii.eqb c "." then span_radix 10 r else (EmptyString, r1)
        | EmptyString => (EmptyString, r1)
        end in
      match int +:+ frac with
      | EmptyString => NaN
      | String _ _ as digits =>
          match exponent_part r2 with
          | Some (e, r3) =>
              if ends r3 then
                let m := digits_value 10 0 digits in
                let e' := e - Z.of_nat (String.length frac) in
                if 0 <=? e' then Ratio negative (m * 10 ^ e') 1
                else Ratio negative m (10 ^ (- e'))
              else NaN
          | None => NaN
          end
      end
  end.

(** [StringToNumber]: white space around a [StrNumericLiteral], or
    nothing but white space, which is 0; anything else is NaN. *)
Definition StringToNumber (s : string) : t :=
  match skip_white s with
  | EmptyString => Ratio false 0 1
  | String c0 r0 as u =>
      match (if Ascii.eqb c0 "0"
             then match r0 with
                  | String c1 r1 => option_map (fun radix => (radix, r1)) (radix_of c1)
                  | EmptyString => None
                  end
             else None) with
      | Some (radix, r1) =>
          let (digits, r2) := span_radix radix r1 in
          match digits with
          | EmptyString => NaN
          | String _ _ =>
              if ends r2 then Ratio false (digits_value (Z.of_N radix) 0 digits) 1 else NaN
          end
      | None =>
          if Ascii.eqb c0 "-" then unsigned_decimal true r0
          else if Ascii.eqb c0 "+" then unsigned_decimal false r0
          else unsigned_decimal false u
      end
  end.

(** [ToString v] where [ToNumber] of an array, a Buffer or a function
    goes through it.  The source text of a function is not known, but it
    is no numeric literal, nor is a text that holds it: [None] stands for
    such a text.  A number is written with all its digits, which reads
    back as the same number.  A plain object whose own [toString] or
    [valueOf] is a function hands over to code of the caller. *)
Fixpoint ToString (v : value) : error + option string :=
  match v with
  | VUndefined => inr (Some "undefined"%string)
  | VNull => inr (Some "null"%string)
  | VBool b => inr (Some (if b then "true" else "false")%string)
  | VNum z => inr (Some (JSON.show_Z z))
  | VStr s => inr (Some s)
  | VBuffer b => inr (Some (Buffer.toString b))
  | VArr l =>
      (fix join (l : list value) : error + option string :=
         match l with
         | [] => inr (Some EmptyString)
         | x :: l' =>
             match (match x with
                    | VUndefined | VNull => inr (Some EmptyString)
                    | _ => ToString x
                    end) with
             | inl e => inl e
             | inr t =>
                 match l' with
                 | [] => inr t
                 | _ :: _ =>
                     match join l' with
                     | inl e => inl e
                     | inr u =>
                         inr (match t, u with
                              | Some a, Some b => Some (a +:+ String "," b)
                              | _, _ => None
                              end)
                     end
                 end
             end
         end) l
  | VObj o =>
      match JsObject.get "toString" o with
      | Some (VFun _) => inl Unmodelled
      | Some _ =>
          match JsObject.get "valueOf" o with
          | Some (VFun _) => inl Unmodelled
          | _ => inl TypeError
          end
      | None => inr (Some "[object Object]"%string)
      end
  | VFun _ => inr None
  end.

Definition ToNumber (v : value) : error + t :=
  match v with
  | VUndefined => inr NaN
  | VNull => inr (Ratio false 0 1)
  | VBool b => inr (Ratio false (if b then 1 else 0) 1)
  | VNum z => inr (Ratio (z <? 0) (Z.abs z) 1)
  | VStr s => inr (StringToNumber s)
  | VObj o =>
      match JsObject.get "valueOf" o with
      | Some (VFun _) => inl Unmodelled
      | _ =>
          match JsObject.get "toString" o with
          | Some (VFun _) => inl Unmodelled
          | Some _ => inl TypeError
          | None => inr NaN
          end
      end
  | VBuffer _ | VArr _ | VFun _ =>
      match ToString v with
      | inl e => inl e
      | inr (Some text) => inr (StringToNumber text)
      | inr None => inr NaN
      end
  end.

(** The exponent [e] of a positive real [n / d]: [2^e <= n / d < 2^(e+1)]. *)
Definition exponent (n d : Z) : Z :=
  let e := Z.log2 n - Z.log2 d in
  if (if 0 <=? e then d * 2 ^ e <=? n else d <=? n * 2 ^ (- e)) then e else e - 1.

(** [n / d] in units of [2^s], rounded to the nearest integer, a tie
    going to the even one. *)
Definition nearest (n d s : Z) : Z :=
  let num := if 0 <=? s then n else n * 2 ^ (- s) in
  let den := if 0 <=? s then d * 2 ^ s else d in
  let q := num / den in
  let r := num mod den in
  if 2 * r <? den then q
  else if den <? 2 * r then q + 1
  else if Z.even q then q else q + 1.

(** [ToUint8]: NaN and the infinities give 0; a real is rounded to the
    double nearest to it, which has 53 significant bits, then cut to an
    integer and reduced modulo 256.  Below 1/2 the integer is 0, and from
    2^60 on the double is a multiple of 256 or infinite. *)
Definition ToUint8 (x : t) : Z :=
  match x with
  | NaN | Infinity => 0
  | Ratio negative n d =>
      if n =? 0 then 0
      else
        let e := exponent n d in
        if (e <? -1) || (60 <=? e) then 0
        else
          let s := e - 52 in
          let q := nearest n d s in
          let magnitude := if 0 <=? s then q * 2 ^ s else q / 2 ^ (- s) in
          (if negative then - magnitude else magnitude) mod 256
  end.

End Number.

(** ** [Buffer.from] *)

(** [fromArrayLike]: one byte for each element, in order. *)
Fixpoint fromArrayLike (l : list value) : error + list Byte.byte :=
  match l with
  | [] => inr []
  | x :: l' =>
      match Number.ToNumber x with
      | inl e => inl e
      | inr n =>
          match fromArrayLike l' with
          | inl e => inl e
          | inr bytes =>
              inr (default Byte.x00 (Byte.of_N (Z.to_N (Number.ToUint8 n))) :: bytes)
          end
      end
  end.

Definition truthy (v : value) : bool :=
  match v with
  | VUndefined | VNull => false
  | VBool b => b
  | VNum z => negb (z =? 0)%Z
  | VStr s => negb (String.eqb s EmptyString)
  | VBuffer _ | VArr _ | VObj _ | VFun _ => true
  end.

(** [fromObject], and the [TypeError] of [Buffer.from] when it finds
    nothing to copy: an object with a [length] is array-like, its elements
    the properties [0] to [length - 1], and without a number for [length]
    it is empty; an object of [type] [Buffer] with an array under [data]
    is what [toJSON] made of a Buffer.  Whether a Buffer of more than
    2^31 - 1 bytes can be had depends on the release. *)
Definition fromObject (o : list (string * value)) : error + list Byte.byte :=
  match JsObject.get "length" o with
  | Some (VNum n) =>
      if (n <=? 0)%Z then inr []
      else if (n <=? 2147483647)%Z then
        fromArrayLike
          (map (fun i => default VUndefined (JsObject.get (JsObject.show_N (N.of_nat i)) o))
               (seq 0 (Z.to_nat n)))
      else inl Unmodelled
  | Some VUndefined | None =>
      match JsObject.get "type" o, JsObject.get "data" o with
      | Some (VStr type), Some (VArr data) =>
          if String.eqb type "Buffer" then fromArrayLike data else inl TypeError
      | _, _ => inl TypeError
      end
  | Some _ => inr []
  end.

(** [Buffer.isBuffer(content) ? content : Buffer.from(content)].  A string
    gives its UTF-8 bytes; a primitive other than a string makes
    [Buffer.from] throw a [TypeError]; an array is copied element by
    element; of a plain object [Buffer.from] first asks [valueOf], which
    is code of the caller when the object has a function of its own
    there. *)
Definition Buffer_from (content : value) : error + list Byte.byte :=
  match content with
  | VBuffer b => inr b
  | VStr s => inr (Buffer.of_string s)
  | VUndefined | VNull | VBool _ | VNum _ | VFun _ => inl TypeError
  | VArr l => fromArrayLike l
  | VObj o =>
      match JsObject.get "valueOf" o with
      | Some (VFun _) => inl Unmodelled
      | Some v =>
          if truthy v then inl TypeError
          else match v with
               | VStr _ => inr []
               | _ => fromObject o
               end
      | None => fromObject o
      end
  end.

(** Text that is ASCII throughout: one byte per character. *)
Fixpoint ascii_text (s : string) : bool :=
  match s with
  | EmptyString => true
  | String c s' => (N_of_ascii c <=? 127)%N && ascii_text s'
  end.

Definition between (lo hi : N) (c : ascii) : bool :=
  (lo <=? N_of_ascii c)%N && (N_of_ascii c <=? hi)%N.

(** Text that is well-formed UTF-8, which the bytes of a string are
    unless it holds half of a surrogate pair. *)
Fixpoint utf8_text (s : string) : bool :=
  match s with
  | EmptyString => true
  | String c0 s0 =>
      let b := N_of_ascii c0 in
      if (b <=? 127)%N then utf8_text s0
      else if (194 <=? b)%N && (b <=? 223)%N then
        match s0 with
        | String c1 s1 => between 128 191 c1 && utf8_text s1
        | _ => false
        end
      else if (224 <=? b)%N && (b <=? 239)%N then
        match s0 with
        | String c1 (String c2 s2) =>
            between (Buffer.lower_after b) (Buffer.upper_after b) c1
            && between 128 191 c2 && utf8_text s2
        | _ => false
        end
      else if (240 <=? b)%N && (b <=? 244)%N then
        match s0 with
        | String c1 (String c2 (String c3 s3)) =>
            between (Buffer.lower_after b) (Buffer.upper_after b) c1
            && between 128 191 c2 && between 128 191 c3 && utf8_text s3
        | _ => false
        end
      else false
  end.

(** The same, sequence by sequence. *)
Inductive Utf8 : string -> Prop :=
| Utf8_end : Utf8 EmptyString
| Utf8_one c s :
    (N_of_ascii c <=? 127)%N = true -> Utf8 s -> Utf8 (String c s)
| Utf8_two c0 c1 s :
    (N_of_ascii c0 <=? 127)%N = false ->
    ((194 <=? N_of_ascii c0)%N && (N_of_ascii c0 <=? 223)%N) = true ->
    between 128 191 c1 = true ->
    Utf8 s -> Utf8 (String c0 (String c1 s))
| Utf8_three c0 c1 c2 s :
    (N_of_ascii c0 <=? 127)%N = false ->
    ((194 <=? N_of_ascii c0)%N && (N_of_ascii c0 <=? 223)%N) = false ->
    ((224 <=? N_of_ascii c0)%N && (N_of_ascii c0 <=? 239)%N) = true ->
    between (Buffer.lower_after (N_of_ascii c0)) (Buffer.upper_after (N_of_ascii c0)) c1 = true ->
    between 128 191 c2 = true ->
    Utf8 s -> Utf8 (String c0 (String c1 (String c2 s)))
| Utf8_four c0 c1 c2 c3 s :
    (N_of_ascii c0 <=? 127)%N = false ->
    ((194 <=? N_of_ascii c0)%N && (N_of_ascii c0 <=? 223)%N) = false ->
    ((224 <=? N_of_ascii c0)%N && (N_of_ascii c0 <=? 239)%N) = false ->
    ((240 <=? N_of_ascii c0)%N && (N_of_ascii c0 <=? 244)%N) = true ->
    between (Buffer.lower_after (N_of_ascii c0)) (Buffer.upper_after (N_of_ascii c0)) c1 = true ->
    between 128 191 c2 = true ->
    between 128 191 c3 = true ->
    Utf8 s -> Utf8 (String c0 (String c1 (String c2 (String c3 s)))).

(** The values the specification calls JSON-serializable, as far as the
    model goes: [null], booleans, the integers a number holds exactly,
    strings, and arrays and objects of such. *)
Fixpoint serializable (v : value) : Prop :=
  match v with
  | VNull | VBool _ => True
  | VNum z => (- 9007199254740991 <= z <= 9007199254740991)%Z
  | VStr s => utf8_text s = true
  | VArr l => fold_right (fun x P => serializable x /\ P) True l
  | VObj o =>
      fold_right (fun kv P => (utf8_text (fst kv) = true /\ serializable (snd kv)) /\ P) True o
      /\ JsObject.proper o
  | VUndefined | VBuffer _ | VFun _ => False
  end.

(** ** The text of a serializable value, and what it takes to read it back *)

(** What can follow a value inside a text that [JSON.stringify] wrote. *)
Definition delimited (rest : string) : bool :=
  match rest with
  | EmptyString => true
  | String c _ => Ascii.eqb c "," || Ascii.eqb c "]" || Ascii.eqb c "}"
  end.

(** Fuel that [JSON.parse_value] needs for a value. *)
Fixpoint weight (v : value) : nat :=
  match v with
  | VArr l => S (fold_right (fun x n => S (weight x + n)) 0 l)
  | VObj o => S (fold_right (fun kv n => S (weight (snd kv) + n)) 0 o)
  | _ => 1
  end.

Definition elems_weight (l : list value) : nat := fold_right (fun x n => S (weight x + n)) 0 l.

Definition members_weight (o : list (string * value)) : nat :=
  fold_right (fun kv n => S (weight (snd kv) + n)) 0 o.

(** A text that a value can start with: no white space, no closing bracket. *)
Definition opens (t : string) : Prop :=
  forall rest, JSON.skip_ws (t +:+ rest) = t +:+ rest /\ JSON.strip "]" (t +:+ rest) = None.

(** The text of an array element and of an object member. *)
Definition elem_text (x : value) : string := default "null"%string (JSON.stringify x).

Definition member_text (kv : string * value) : string :=
  JSON.quote (fst kv) +:+ String ":" (elem_text (snd kv)).

(** [v], if serializable, has a text, and the parser reads [v] back from
    that text whatever delimiter follows. *)
Definition round_trips (v : value) : Prop :=
  serializable v ->
  exists t, JSON.stringify v = Some t
            /\ weight v <= String.length t
            /\ opens t
            /\ forall fuel rest, weight v <= fuel -> delimited rest = true ->
                 JSON.parse_value fuel (t +:+ rest) = Some (v, rest).

(** ** Subject matching

    The class calls [utils.matchSubject], of [src/lib/utils.js], which is
    not among the sources.  The class itself is modelled for any matcher
    (it is a parameter of the section below); the matcher of section 4.3
    of the specification is the one the samples run with. *)

Module Utils.

(** Modelled from the spec: the segments of a subject, the fixed delimiter
    being the dot; [cur] is the segment being read. *)
Fixpoint split_from (cur : string) (s : string) : list string :=
  match s with
  | EmptyString => [cur]
  | String c s' =>
      if Ascii.eqb c "." then cur :: split_from EmptyString s'
      else split_from (cur +:+ String c EmptyString) s'
  end.

(** [text.split(".")]. *)
Definition split (s : string) : list string := split_from EmptyString s.

(** Modelled from the spec: the comparison of the segments of a pattern
    with those of a subject, position by position. *)
Fixpoint match_segments (pattern subject : list string) : bool :=
  match pattern with
  | [] => match subject with [] => true | _ :: _ => false end
  | p :: ps =>
      match subject with
      | [] => false
      | s :: ss =>
          if String.eqb p ">" then match ps with [] => true | _ :: _ => false end
          else (String.eqb p "*" || String.eqb p s) && match_segments ps ss
      end
  end.

(** Modelled from the spec: [utils.matchSubject(subject, pattern)], of
    [src/lib/utils.js], which the class requires and which is not part of
    the sources at hand.  Subject and pattern are cut at the dots; [*]
    stands for exactly one segment, a final [>] for one or more, any other
    segment for itself, and the segment counts agree but for a final [>]. *)
Definition matchSubject (subject pattern : string) : bool :=
  match_segments (split pattern) (split subject).

End Utils.

(** The rule of section 4.3 of the specification, segment by segment. *)
Inductive Matches : list string -> list string -> Prop :=
| Matches_end : Matches [] []
| Matches_rest s ss : Matches [">"%string] (s :: ss)
| Matches_one ps s ss : Matches ps ss -> Matches ("*"%string :: ps) (s :: ss)
| Matches_same p ps ss :
    p <> "*"%string -> p <> ">"%string -> Matches ps ss -> Matches (p :: ps) (p :: ss).

(** ** The client and the runtime around it *)

Module Sub.

(** A record of [this.subs]. [queue] is [parsedOpts.queue], [None] standing
    for [undefined]; [cb] is [None] when no function was passed;
    [expected] and [timeout] are unset until [timeout] is called, and
    [timeout] is reset to [null] (again [None]) by a delivery. *)
Record t : Type := Make {
  subject : string;
  queue : option string;
  cb : option fn;
  sid : string;
  received : Z;
  expected : option Z;
  timeout : option nat
}.

End Sub.

(** What a deferred callback does once the event loop runs it. *)
Inductive task : Type :=
| EmitTask (name : string)
| CallbackTask (cb : option fn) (sid : string).

Record timer : Type := Timer { handle : nat; due : Z; job : task }.

(** What the world outside the client gets to see. *)
Inductive event : Type :=
| Emitted (name : string)
| Called (f : fn) (args : list value).

(** The Node runtime: how many identifiers the uuid library has handed
    out, the clock in milliseconds, the pending timers in the order in
    which they were armed, the next timer handle, the [process.nextTick]
    queue, and the calls made so far. *)
Record Runtime : Type := MkRuntime {
  drawn : nat;
  now : Z;
  timers : list timer;
  handles : nat;
  ticks : list task;
  log : list event
}.

(** The fields of a [MockNatsClient]; [connected] is [None] as long as the
    property has not been written. *)
Record Client : Type := MkClient {
  subs : list Sub.t;
  useJson : bool;
  preserveBuffers : bool;
  connected : option bool;
  rt : Runtime
}.

Definition with_subs (l : list Sub.t) (w : Client) : Client :=
  MkClient l (useJson w) (preserveBuffers w) (connected w) (rt w).

Definition with_connected (c : option bool) (w : Client) : Client :=
  MkClient (subs w) (useJson w) (preserveBuffers w) c (rt w).

Definition with_rt (r : Runtime) (w : Client) : Client :=
  MkClient (subs w) (useJson w) (preserveBuffers w) (connected w) r.

Definition with_drawn (n : nat) (r : Runtime) : Runtime :=
  MkRuntime n (now r) (timers r) (handles r) (ticks r) (log r).

Definition with_now (t : Z) (r : Runtime) : Runtime :=
  MkRuntime (drawn r) t (timers r) (handles r) (ticks r) (log r).

Definition with_timers (l : list timer) (r : Runtime) : Runtime :=
  MkRuntime (drawn r) (now r) l (handles r) (ticks r) (log r).

Definition with_handles (n : nat) (r : Runtime) : Runtime :=
  MkRuntime (drawn r) (now r) (timers r) n (ticks r) (log r).

Definition with_ticks (l : list task) (r : Runtime) : Runtime :=
  MkRuntime (drawn r) (now r) (timers r) (handles r) l (log r).

Definition with_log (l : list event) (r : Runtime) : Runtime :=
  MkRuntime (drawn r) (now r) (timers r) (handles r) (ticks r) l.

(** A method body: it runs on the client, may change it, and either
    returns or throws; what it did before throwing stays done. *)
Definition M (A : Type) : Type := Client -> (error + A) * Client.

Definition ret {A} (a : A) : M A := fun w => (inr a, w).

Definition throw {A} (e : error) : M A := fun w => (inl e, w).

Definition bind {A B} (m : M A) (k : A -> M B) : M B :=
  fun w => match m w with
           | (inr a, w') => k a w'
           | (inl e, w') => (inl e, w')
           end.

Notation "'let*' x ':=' m 'in' k" := (bind m (fun x => k))
  (at level 10, x pattern, m at level 100, k at level 200).

Notation "m ;; k" := (bind m (fun _ => k))
  (at level 100, k at level 200, right associativity).

(** Reading a field of [this]. *)
Definition gets {A} (f : Client -> A) : M A := fun w => (inr (f w), w).

Definition modify (f : Client -> Client) : M unit := fun w => (inr tt, f w).

Definition lift {A} (r : error + A) : M A := fun w => (r, w).

(** [array.forEach(f)]. *)
Fixpoint forEach {A} (f : A -> M unit) (l : list A) : M unit :=
  match l with
  | [] => ret tt
  | x :: l' => f x ;; forEach f l'
  end.

(** *** Timers and the event loop *)

(** The delay [setTimeout] really uses. *)
Definition delay (ms : Z) : Z :=
  if ((ms <? 1) || (2147483647 <? ms))%Z then 1%Z else ms.

(** [setTimeout(job, ms)], returning the handle. *)
Definition setTimeout (j : task) (ms : Z) : M nat :=
  fun w =>
    let r := rt w in
    let h := handles r in
    (inr h, with_rt (with_handles (S h) (with_timers (timers r ++ [Timer h (now r + delay ms) j]) r)) w).

(** [clearTimeout(h)]. *)
Definition clearTimeout (h : nat) : M unit :=
  modify (fun w =>
    with_rt (with_timers (List.filter (fun t => negb (Nat.eqb (handle t) h)) (timers (rt w))) (rt w)) w).

(** [process.nextTick(job)]. *)
Definition nextTick (j : task) : M unit :=
  modify (fun w => with_rt (with_ticks (ticks (rt w) ++ [j]) (rt w)) w).

Definition record (e : event) : M unit :=
  modify (fun w => with_rt (with_log (log (rt w) ++ [e]) (rt w)) w).

Definition run_task (j : task) : list event :=
  match j with
  | EmitTask name => [Emitted name]
  | CallbackTask (Some f) sid => [Called f [VStr sid]]
  | CallbackTask None _ => []
  end.

(** Timers fire by due time, and in the order they were armed when due
    together. *)
Fixpoint insert_by_due (t : timer) (l : list timer) : list timer :=
  match l with
  | [] => [t]
  | t' :: l' => if (due t <? due t')%Z then t :: l else t' :: insert_by_due t l'
  end.

Definition by_due (l : list timer) : list timer :=
  fold_left (fun acc t => insert_by_due t acc) l [].

Definition is_due (t : Z) (x : timer) : bool := (due x <=? t)%Z.

(** The program yields for [dt] milliseconds: the [nextTick] queue is run,
    then every timer that falls due. *)
Definition advance (dt : Z) (w : Client) : Client :=
  let r := rt w in
  let t := (now r + dt)%Z in
  let fired := by_due (List.filter (is_due t) (timers r)) in
  with_rt (MkRuntime (drawn r) t
             (List.filter (fun x => negb (is_due t x)) (timers r))
             (handles r) []
             (log r ++ flat_map run_task (ticks r) ++ flat_map (fun x => run_task (job x)) fired)) w.

(** *** The class *)

(** The second argument of [subscribe]: a callback, an options object
    (with or without a [queue]), or nothing. *)
Inductive options : Type :=
| OptsCallback (f : fn)
| OptsObject (queue : option string)
| OptsAbsent.

(** A method body that never looks at [this.connected]: started from a
    client whose flag is [c] instead, it returns the same and leaves the
    same client, but for the flag. *)
Definition ignores_connected {A} (m : M A) : Prop :=
  forall c w, m (with_connected c w) = (fst (m w), with_connected c (snd (m w))).

(** *** Sample data

    A runtime at rest, identifiers in the layout of the uuid library, the
    handlers of a test that all return, and a registry of three
    subscribers to [jobs], the first and the last in the group [workers]. *)

Definition runtime0 : Runtime := MkRuntime 0 0 [] 0 [] [].

Definition sample_uuid (n : nat) : string :=
  let digits := JsObject.show_N (N.of_nat n) in
  "1b9d6bcd-bbfd-4b2d-9b5d-" +:+ string_of_list_ascii (replicate (12 - String.length digits) "0"%char)
    +:+ digits.

Definition all_return (f : fn) (args : list value) : bool := false.

Definition proto_group : Client :=
  MkClient
    [Sub.Make "jobs" (Some "__proto__"%string) (Some "first"%string) (sample_uuid 0) 0 None None;
     Sub.Make "jobs" (Some "__proto__"%string) (Some "second"%string) (sample_uuid 1) 0 None None]
    false false None (MkRuntime 2 0 [] 0 [] []).

Definition one_subscriber : Client :=
  MkClient
    [Sub.Make "jobs" None (Some "handler"%string) (sample_uuid 0) 0 None None]
    false false None (MkRuntime 1 0 [] 0 [] []).

Definition three_subscribers : Client :=
  MkClient
    [Sub.Make "jobs" (Some "workers"%string) (Some "first"%string) (sample_uuid 0) 0 None None;
     Sub.Make "jobs" None (Some "second"%string) (sample_uuid 1) 0 None None;
     Sub.Make "jobs" (Some "workers"%string) (Some "third"%string) (sample_uuid 2) 0 None None]
    false false None (MkRuntime 3 0 [] 0 [] []).

(** Two subscribers to [jobs], neither in a queue group. *)
Definition two_subscribers : Client :=
  MkClient
    [Sub.Make "jobs" None (Some "first"%string) (sample_uuid 0) 0 None None;
     Sub.Make "jobs" None (Some "second"%string) (sample_uuid 1) 0 None None]
    false false None (MkRuntime 2 0 [] 0 [] []).

(** Three subscribers to [jobs], two of them alone in their queue
    groups; and two of which the second is in a queue group named like an
    array index. *)
Definition apart_subscribers : Client :=
  MkClient
    [Sub.Make "jobs" (Some "workers"%string) (Some "first"%string) (sample_uuid 0) 0 None None;
     Sub.Make "jobs" None (Some "second"%string) (sample_uuid 1) 0 None None;
     Sub.Make "jobs" (Some "loggers"%string) (Some "third"%string) (sample_uuid 2) 0 None None]
    false false None (MkRuntime 3 0 [] 0 [] []).

Definition index_group : Client :=
  MkClient
    [Sub.Make "jobs" None (Some "first"%string) (sample_uuid 0) 0 None None;
     Sub.Make "jobs" (Some "7"%string) (Some "second"%string) (sample_uuid 1) 0 None None]
    false false None (MkRuntime 2 0 [] 0 [] []).

(** The same registry under other options, and a test whose handler
    [third] throws. *)
Definition with_modes (json preserve : bool) (w : Client) : Client :=
  MkClient (subs w) json preserve (connected w) (rt w).

Definition third_throws (f : fn) (args : list value) : bool := String.eqb f "third".

Section MockNatsClient.

(** What the class takes from outside: the matcher of [./utils], the
    identifiers the uuid library returns, in the order of the calls, and
    which calls of a handler end in an exception. *)
Variable matchSubject : string -> string -> bool.
Variable uuid_v4 : nat -> string.
Variable raises : fn -> list value -> bool.

(** [uuid.v4()], and [uuid()], which the releases of the library that
    export a function make the same thing. *)
Definition uuid : M string :=
  fun w => (inr (uuid_v4 (drawn (rt w))), with_rt (with_drawn (S (drawn (rt w))) (rt w)) w).

(** A call [f(args)] of a function handed in by the test.  Of what the
    function does, the model keeps that it was called, with what, and
    whether it returned or threw; a handler that calls back into the
    client is outside it. *)
Definition call (f : option fn) (args : list value) : M unit :=
  match f with
  | None => throw TypeError
  | Some g => record (Called g args) ;; if raises g args then throw (Raised g) else ret tt
  end.

(** [new MockNatsClient(opts)], in a runtime [r]. *)
Definition constructor (json preserve : option bool) (r : Runtime) : Client :=
  MkClient [] (default false json) (default false preserve) None r.

Definition connect : M unit :=
  modify (with_connected (Some true)) ;;
  setTimeout (EmitTask "connect") 10 ;;
  ret tt.

Definition close : M unit :=
  modify (with_subs []) ;;
  modify (with_connected (Some false)) ;;
  nextTick (EmitTask "disconnect").

Definition subscribe (subject : string) (opts : options) (cb : option fn) : M string :=
  let* sid := uuid in
  let (parsedCb, parsedQueue) :=
    match opts with
    | OptsCallback f => (Some f, None)
    | OptsObject q => (cb, q)
    | OptsAbsent => (cb, None)
    end in
  modify (fun w => with_subs (subs w ++ [Sub.Make subject parsedQueue parsedCb sid 0 None None]) w) ;;
  ret sid.

(** [sub.queue || uuid.v4()]: an absent or empty group name is falsy. *)
Definition queue_key (s : Sub.t) : M string :=
  match Sub.queue s with
  | Some q => if String.eqb q EmptyString then uuid else ret q
  | None => uuid
  end.

(** The records of the registry, each with its position. *)
Fixpoint indexed (k : nat) (l : list Sub.t) : list (nat * Sub.t) :=
  match l with
  | [] => []
  | s :: l' => (k, s) :: indexed (S k) l'
  end.

(** The [matches.forEach] loop, on the positions of the matching records. *)
Fixpoint collect (l : list (nat * Sub.t)) (onePerQueue : JsObject.props nat)
  : M (JsObject.props nat) :=
  match l with
  | [] => ret onePerQueue
  | (i, s) :: l' =>
      let* k := queue_key s in
      collect l' (JsObject.set k i onePerQueue)
  end.

(** A record of [this.subs] is named by its position: [publish] changes
    the records it selected where they stand in the registry. *)
Definition _findSubscribesBySubject (subject : string) : M (list nat) :=
  let* registry := gets subs in
  let matches :=
    List.filter (fun p => matchSubject subject (Sub.subject (snd p))) (indexed 0 registry) in
  let* onePerQueue := collect matches [] in
  ret (JsObject.values onePerQueue).

(** The same selection as a function of the registry and of the number
    [d] of identifiers drawn so far: the property list built, and the
    number drawn in the end. *)
Definition falsy (q : option string) : bool :=
  match q with
  | Some t => String.eqb t EmptyString
  | None => true
  end.

Fixpoint picked (l : list (nat * Sub.t)) (d : nat) (o : JsObject.props nat)
  : JsObject.props nat * nat :=
  match l with
  | [] => (o, d)
  | (i, s) :: l' =>
      if falsy (Sub.queue s) then picked l' (S d) (JsObject.set (uuid_v4 d) i o)
      else picked l' d (JsObject.set (default EmptyString (Sub.queue s)) i o)
  end.

(** The assignments the loop makes, in order, and the identifiers among
    their keys. *)
Fixpoint key_seq (l : list (nat * Sub.t)) (d : nat) : list (string * nat) :=
  match l with
  | [] => []
  | (i, s) :: l' =>
      if falsy (Sub.queue s) then (uuid_v4 d, i) :: key_seq l' (S d)
      else (default EmptyString (Sub.queue s), i) :: key_seq l' d
  end.

(** The property list after a run of assignments. *)
Definition assign (ks : list (string * nat)) (o : JsObject.props nat) : JsObject.props nat :=
  fold_left (fun acc p => JsObject.set (fst p) (snd p) acc) ks o.

Fixpoint drawn_keys (l : list (nat * Sub.t)) (d : nat) : list string :=
  match l with
  | [] => []
  | (i, s) :: l' =>
      if falsy (Sub.queue s) then uuid_v4 d :: drawn_keys l' (S d) else drawn_keys l' d
  end.

(** The identifiers are what a uuid is taken to be: none is [__proto__],
    and each is the key of one assignment only, so that it is neither the
    group name of a matching record nor an identifier drawn twice. *)
Definition fresh_draws (l : list (nat * Sub.t)) (d : nat) : bool :=
  forallb (fun k => negb (String.eqb k "__proto__")
                    && (count_occ string_dec (map fst (key_seq l d)) k =? 1))
          (drawn_keys l d).

Definition matching (subject : string) (l : list Sub.t) : list (nat * Sub.t) :=
  List.filter (fun p => matchSubject subject (Sub.subject (snd p))) (indexed 0 l).

Definition selected (subject : string) (w : Client) : list nat :=
  JsObject.values (fst (picked (matching subject (subs w)) (drawn (rt w)) [])).

Definition drawn_after (subject : string) (w : Client) : nat :=
  snd (picked (matching subject (subs w)) (drawn (rt w)) []).

(** The keys under which the loop files the matching records, in the
    order of the registry: for each record its queue group, or the
    identifier drawn for it when it has none. *)
Definition keys_assigned (subject : string) (w : Client) : list string :=
  map fst (key_seq (matching subject (subs w)) (drawn (rt w))).

(** [this.subs.find(sub => sub.sid === sid)], as a position. *)
Fixpoint find_sid (sid : string) (l : list Sub.t) : option nat :=
  match l with
  | [] => None
  | s :: l' => if String.eqb (Sub.sid s) sid then Some 0 else option_map S (find_sid sid l')
  end.

Definition _findSubscribeBySid (sid : string) : M (option nat) :=
  let* registry := gets subs in ret (find_sid sid registry).

Definition update_sub (i : nat) (f : Sub.t -> Sub.t) : M unit :=
  modify (fun w => with_subs (alter f i (subs w)) w).

Definition increment (s : Sub.t) : Sub.t :=
  Sub.Make (Sub.subject s) (Sub.queue s) (Sub.cb s) (Sub.sid s)
           (Sub.received s + 1) (Sub.expected s) (Sub.timeout s).

Definition set_timeout (h : option nat) (s : Sub.t) : Sub.t :=
  Sub.Make (Sub.subject s) (Sub.queue s) (Sub.cb s) (Sub.sid s)
           (Sub.received s) (Sub.expected s) h.

Definition set_expected (n : Z) (s : Sub.t) : Sub.t :=
  Sub.Make (Sub.subject s) (Sub.queue s) (Sub.cb s) (Sub.sid s)
           (Sub.received s) (Some n) (Sub.timeout s).

(** [sub.timeout && sub.received >= sub.expected]; a comparison with
    [undefined] is false. *)
Definition reached (s : Sub.t) : option nat :=
  match Sub.timeout s, Sub.expected s with
  | Some h, Some n => if (n <=? Sub.received s)%Z then Some h else None
  | _, _ => None
  end.

(** The body of the [subs.forEach] of [publish]; [s] is the record as it
    stands when its turn comes. *)
Definition deliver (delivery replyTo : value) (subject : string) (i : nat) : M unit :=
  let* registry := gets subs in
  match registry !! i with
  | None => ret tt
  | Some s =>
      update_sub i increment ;;
      match reached (increment s) with
      | Some h => clearTimeout h ;; update_sub i (set_timeout None)
      | None => ret tt
      end ;;
      call (Sub.cb s) [delivery; replyTo; VStr subject]
  end.

(** What a delivery that returns leaves behind: the record, the pending
    timers, the client. *)
Definition after_delivery (s : Sub.t) : Sub.t :=
  match reached (increment s) with
  | Some _ => set_timeout None (increment s)
  | None => increment s
  end.

Definition cancel (h : option nat) (l : list timer) : list timer :=
  match h with
  | Some h' => List.filter (fun t => negb (Nat.eqb (handle t) h')) l
  | None => l
  end.

Definition delivered (delivery replyTo : value) (subject : string) (w : Client) (i : nat)
  : Client :=
  match subs w !! i with
  | Some s =>
      let r := rt w in
      MkClient (<[i := after_delivery s]> (subs w)) (useJson w) (preserveBuffers w) (connected w)
        (MkRuntime (drawn r) (now r) (cancel (reached (increment s)) (timers r))
           (handles r) (ticks r)
           (log r ++ match Sub.cb s with
                     | Some f => [Called f [delivery; replyTo; VStr subject]]
                     | None => []
                     end))
  | None => w
  end.

(** The handler of the record at position [i] is a function, and its call
    with [args] returns. *)
Definition returns_at (args : list value) (l : list Sub.t) (i : nat) : bool :=
  match l !! i with
  | Some s => match Sub.cb s with
              | Some f => negb (raises f args)
              | None => false
              end
  | None => false
  end.

(** The call a delivery to position [i] makes. *)
Definition handler_call (delivery replyTo : value) (subject : string) (l : list Sub.t) (i : nat)
  : list event :=
  match l !! i with
  | Some s => match Sub.cb s with
              | Some f => [Called f [delivery; replyTo; VStr subject]]
              | None => []
              end
  | None => []
  end.

(** The payload the handlers receive, from the message published. *)
Definition encode (json : bool) (message : value) : error + list Byte.byte :=
  Buffer_from (if json then match JSON.stringify message with
                            | Some text => VStr text
                            | None => VUndefined
                            end
               else message).

Definition decode (json preserve : bool) (payload : list Byte.byte) : error + value :=
  if json then JSON.parse (Buffer.toString payload)
  else if negb preserve then inr (VStr (Buffer.toString payload))
  else inr (VBuffer payload).

(** Encoding, then decoding: what [publish] does before it looks at the
    registry. *)
Definition round_trip (json preserve : bool) (message : value) : error + value :=
  match encode json message with
  | inl e => inl e
  | inr payload => decode json preserve payload
  end.

Definition publish (subject : string) (message replyTo : value) : M unit :=
  let* json := gets useJson in
  let* preserve := gets preserveBuffers in
  let* payload := lift (encode json message) in
  let* delivery := lift (decode json preserve payload) in
  let* selected := _findSubscribesBySubject subject in
  forEach (deliver delivery replyTo subject) selected.

(** A name the module never binds: reading it is a [ReferenceError]. *)
Definition unbound {A} (name : string) : M A := throw ReferenceError.

Definition is_function (v : value) : bool :=
  match v with VFun _ => true | _ => false end.

Definition requestOne (subject : string) (message options callback : value) : M string :=
  let* sid := uuid in
  let* shifted :=
    (if is_function message
     then let* empty := unbound "EMPTY" in ret (empty, message)
     else ret (message, callback)) in
  let (message1, callback1) := (shifted : value * value) in
  let (options2, callback2) :=
    if is_function options then (VNull, options) else (options, callback1) in
  publish subject message1 (VStr sid) ;;
  ret sid.

(** [this.subs.splice(this.subs.indexOf(subToRemove), 1)]. *)
Definition unsubscribe (sid : string) : M unit :=
  let* subToRemove := _findSubscribeBySid sid in
  match subToRemove with
  | Some i => modify (fun w => with_subs (delete i (subs w)) w)
  | None => ret tt
  end.

Definition timeout (sid : string) (ms expected : Z) (cb : option fn) : M unit :=
  let* sub := _findSubscribeBySid sid in
  match sub with
  | Some i =>
      update_sub i (set_expected expected) ;;
      let* h := setTimeout (CallbackTask cb sid) ms in
      update_sub i (set_timeout (Some h))
  | None => ret tt
  end.

(** *** A test, step by step *)

(** What a test does to the client: a call of one of its methods, or
    letting [dt] milliseconds pass. *)
Inductive action : Type :=
| Connect
| Close
| Subscribe (subject : string) (opts : options) (cb : option fn)
| Publish (subject : string) (message replyTo : value)
| RequestOne (subject : string) (message options callback : value)
| Unsubscribe (sid : string)
| Timeout (sid : string) (ms expected : Z) (cb : option fn)
| Wait (dt : Z).

(** A call that throws leaves the client as it stands at the throw, and
    the test goes on. *)
Definition perform (a : action) (w : Client) : Client :=
  match a with
  | Connect => snd (connect w)
  | Close => snd (close w)
  | Subscribe subject opts cb => snd (subscribe subject opts cb w)
  | Publish subject message replyTo => snd (publish subject message replyTo w)
  | RequestOne subject message options callback =>
      snd (requestOne subject message options callback w)
  | Unsubscribe sid => snd (unsubscribe sid w)
  | Timeout sid ms expected cb => snd (timeout sid ms expected cb w)
  | Wait dt => advance dt w
  end.

Definition run (script : list action) (w : Client) : Client :=
  fold_left (fun w' a => perform a w') script w.

(** Scripts that only publish and let time pass, and the time they take. *)
Definition calm (a : action) : bool :=
  match a with
  | Publish _ _ _ => true
  | Wait dt => (0 <=? dt)%Z
  | _ => false
  end.

Definition waited (script : list action) : Z :=
  fold_right (fun a t => match a with Wait dt => (dt + t)%Z | _ => t end) 0%Z script.

(** Every timer handle a record holds was handed out by [setTimeout]. *)
Definition handles_fresh (w : Client) : bool :=
  forallb (fun s => match Sub.timeout s with
                    | Some h => h <? handles (rt w)
                    | None => true
                    end) (subs w).

(** The timeout [h] of the record at position [i], armed for [n] messages
    when the record had received [r0]: still pending, or cancelled by a
    delivery that brought the count to [n] or beyond. *)
Definition armed (i h : nat) (n due : Z) (j : task) (r0 : Z) (w : Client) : Prop :=
  exists s,
    subs w !! i = Some s
    /\ Sub.timeout s = Some h
    /\ Sub.expected s = Some n
    /\ In (Timer h due j) (timers (rt w))
    /\ (Sub.received s = r0 \/ (r0 < Sub.received s < n)%Z)
    /\ h < handles (rt w)
    /\ forall k s', k <> i -> subs w !! k = Some s' -> Sub.timeout s' <> Some h.

Definition retired (h : nat) (w : Client) : Prop :=
  ~ In h (map handle (timers (rt w))) /\ h < handles (rt w).

Definition disarmed (i h : nat) (n r0 : Z) (w : Client) : Prop :=
  exists s,
    subs w !! i = Some s
    /\ Sub.timeout s = None
    /\ (r0 < Sub.received s)%Z
    /\ (n <= Sub.received s)%Z
    /\ retired h w.

(** *** Timers that nothing can cancel *)

(** No record of the registry holds the handle [h]. *)
Definition unheld (h : nat) (w : Client) : bool :=
  forallb (fun s => match Sub.timeout s with
                    | Some h' => negb (Nat.eqb h' h)
                    | None => true
                    end) (subs w).

(** A pending timer whose handle no record holds: [publish] clears the
    handles of the records only. *)
Definition orphan (h : nat) (due : Z) (j : task) (w : Client) : Prop :=
  In (Timer h due j) (timers (rt w)) /\ h < handles (rt w) /\ unheld h w = true.

(** The timer has run since the log stood at [base], or it is pending with
    nothing left to cancel it. *)
Definition fired (j : task) (base : list event) (w : Client) : Prop :=
  exists before after, log (rt w) = base ++ before ++ run_task j ++ after.

Definition pending_or_fired (h : nat) (due : Z) (j : task) (base : list event) (w : Client)
  : Prop :=
  (orphan h due j w /\ exists before, log (rt w) = base ++ before) \/ fired j base w.

(** The same for a job of the [nextTick] queue, which nothing cancels. *)
Definition queued_or_fired (j : task) (base : list event) (w : Client) : Prop :=
  (In j (ticks (rt w)) /\ exists before, log (rt w) = base ++ before) \/ fired j base w.

(** *** What stays of a record *)

(** What [subscribe] fixes of a record for good. *)
Definition identity (s : Sub.t) : string * option string * option fn * string :=
  (Sub.subject s, Sub.queue s, Sub.cb s, Sub.sid s).

(** How the call made by a delivery to position [i] ends: [None] when it
    returns. *)
Definition failure_at (args : list value) (l : list Sub.t) (i : nat) : option error :=
  match l !! i with
  | Some s => match Sub.cb s with
              | Some f => if raises f args then Some (Raised f) else None
              | None => Some TypeError
              end
  | None => None
  end.

(** [publish] returns, having handed [delivery] to the handler of every
    selected record, in the order of the selection. *)
Definition hands_over (subject : string) (message replyTo delivery : value) (w : Client) : Prop :=
  exists w',
    publish subject message replyTo w = (inr tt, w')
    /\ log (rt w') = log (rt w)
                     ++ flat_map (handler_call delivery replyTo subject (subs w))
                                 (selected subject w).

(** The sids of the registry are identifiers drawn so far, in the order
    in which they were drawn. *)
Definition sids_drawn (w : Client) : Prop :=
  exists ks,
    map Sub.sid (subs w) = map uuid_v4 ks
    /\ StronglySorted lt ks
    /\ Forall (fun k => k < drawn (rt w)) ks.

(** Messages that [Buffer.from] takes for neither text nor bytes. *)
Definition no_bytes (v : value) : bool :=
  match v with
  | VUndefined | VNull | VBool _ | VNum _ | VFun _ => true
  | VStr _ | VBuffer _ | VArr _ | VObj _ => false
  end.

Fixpoint distinct (l : list string) : bool :=
  match l with
  | [] => true
  | x :: l' => negb (existsb (String.eqb x) l') && distinct l'
  end.

(** * Properties *)

(** ** JSON texts *)

Lemma append_assoc (a b c : string) : (a +:+ b) +:+ c = a +:+ (b +:+ c).
Proof. induction a as [|x a IH]; simpl; [reflexivity|]. now rewrite IH. Qed.

Lemma append_cons c (a b : string) : String c a +:+ b = String c (a +:+ b).
Proof. reflexivity. Qed.

Lemma parse_chars_escape c t :
  JSON.parse_chars (JSON.escape c +:+ t) =
  match JSON.parse_chars t with
  | Some (u, r) => Some (String c u, r)
  | None => None
  end.
Proof. destruct c as [[] [] [] [] [] [] [] []]; reflexivity. Qed.

Lemma parse_chars_quote s : forall rest,
  JSON.parse_chars (JSON.escape_all s +:+ String dquote rest) = Some (s, rest).
Proof.
  induction s as [|c s IH]; intros rest.
  - reflexivity.
  - simpl JSON.escape_all. now rewrite append_assoc, parse_chars_escape, IH.
Qed.

Lemma delimited_cases rest :
  delimited rest = true ->
  rest = EmptyString \/ exists c r, rest = String c r /\ (c = "," \/ c = "]" \/ c = "}")%char.
Proof.
  destruct rest as [|c r]; [now left|]. simpl. intros H. right. exists c, r. split; [reflexivity|].
  apply orb_prop in H as [H|H]; [apply orb_prop in H as [H|H]|]; apply Ascii.eqb_eq in H; auto.
Qed.

Lemma span_digits_uint d rest :
  delimited rest = true ->
  JSON.span_digits (NilEmpty.string_of_uint d +:+ rest) = (NilEmpty.string_of_uint d, rest).
Proof.
  intros H. induction d; simpl; try (rewrite IHd; reflexivity).
  apply delimited_cases in H as [->|[c [r [-> [->|[->| ->]]]]]]; reflexivity.
Qed.

Lemma read_show n : JsObject.read_N (JsObject.show_N n) = Some n.
Proof.
  unfold JsObject.read_N, JsObject.show_N.
  rewrite NilEmpty.usu. simpl. rewrite DecimalN.Unsigned.of_to.
  destruct (NilEmpty.string_of_uint (N.to_uint n)) eqn:E; [|reflexivity].
  destruct n as [|p]; [discriminate|]. simpl in E.
  pose proof (DecimalPos.Unsigned.to_uint_nonnil p) as Hn.
  destruct (Pos.to_uint p); simpl in E; congruence.
Qed.

Lemma parse_number_show z rest :
  delimited rest = true ->
  JSON.parse_number (JSON.show_Z z +:+ rest) = Some (VNum z, rest).
Proof.
  intros H. unfold JSON.show_Z.
  assert (Hpos : forall n, JSON.parse_number (JsObject.show_N n +:+ rest) = Some (VNum (Z.of_N n), rest)
                           /\ JSON.parse_number (String "-" (JsObject.show_N n +:+ rest)) = Some (VNum (- Z.of_N n), rest)).
  { intros n. unfold JSON.parse_number.
    assert (Hs : JSON.strip "-" (JsObject.show_N n +:+ rest) = None).
    { unfold JsObject.show_N. destruct n as [|p]; [reflexivity|]. simpl.
      pose proof (DecimalPos.Unsigned.to_uint_nonnil p) as Hn.
      destruct (Pos.to_uint p); try reflexivity. congruence. }
    rewrite Hs. simpl JSON.strip.
    unfold JsObject.show_N at 1 3. rewrite span_digits_uint by assumption.
    fold (JsObject.show_N n). rewrite read_show, String.eqb_refl.
    apply delimited_cases in H as [->|[c [r [-> [->|[->| ->]]]]]]; split; reflexivity. }
  destruct (Z.ltb_spec z 0).
  - simpl. destruct (Hpos (Z.abs_N z)) as [_ ->]. do 3 f_equal. lia.
  - destruct (Hpos (Z.to_N z)) as [-> _]. do 3 f_equal. lia.
Qed.

Lemma length_append (a b : string) : String.length (a +:+ b) = String.length a + String.length b.
Proof. induction a as [|x a IH]; simpl; [reflexivity|]. now rewrite IH. Qed.

Lemma opens_show_N n : opens (JsObject.show_N n).
Proof.
  intros rest. unfold JsObject.show_N. destruct n as [|p]; [split; reflexivity|]. simpl.
  pose proof (DecimalPos.Unsigned.to_uint_nonnil p) as Hn.
  destruct (Pos.to_uint p); try (split; reflexivity). congruence.
Qed.

Lemma show_N_length n : 1 <= String.length (JsObject.show_N n).
Proof.
  unfold JsObject.show_N. destruct n as [|p]; [simpl; lia|]. simpl.
  pose proof (DecimalPos.Unsigned.to_uint_nonnil p) as Hn.
  destruct (Pos.to_uint p); simpl; try lia. congruence.
Qed.

Lemma parse_value_number fuel t rest :
  opens t ->
  (exists c t', t = String c t' /\ (Ascii.eqb c "-" || JSON.is_digit c) = true) ->
  JSON.parse_value (S fuel) (t +:+ rest) = JSON.parse_number (t +:+ rest).
Proof.
  intros _ [c [t' [-> Hc]]].
  destruct c as [[] [] [] [] [] [] [] []]; try discriminate Hc; reflexivity.
Qed.

Lemma round_trips_num z : round_trips (VNum z).
Proof.
  intros _. exists (JSON.show_Z z). split; [reflexivity|].
  assert (Ho : opens (JSON.show_Z z)).
  { unfold JSON.show_Z. destruct (z <? 0)%Z; [intros rest; split; reflexivity|apply opens_show_N]. }
  split; [|split; [exact Ho|]].
  - unfold JSON.show_Z. pose proof (show_N_length (Z.to_N z)).
    destruct (z <? 0)%Z; simpl; lia.
  - intros [|fuel] rest Hf Hd; [simpl in Hf; lia|].
    rewrite parse_value_number; [now apply parse_number_show|exact Ho|].
    unfold JSON.show_Z. destruct (z <? 0)%Z; [eexists _, _; split; reflexivity|].
    unfold JsObject.show_N. destruct (Z.to_N z) as [|p]; [eexists _, _; split; reflexivity|]. simpl.
    pose proof (DecimalPos.Unsigned.to_uint_nonnil p) as Hn.
    destruct (Pos.to_uint p); try (eexists _, _; split; reflexivity). congruence.
Qed.

Lemma round_trips_str s : round_trips (VStr s).
Proof.
  intros _. exists (JSON.quote s). split; [reflexivity|].
  split; [simpl; lia|]. split; [intros rest; split; reflexivity|].
  intros [|fuel] rest Hf Hd; [simpl in Hf; lia|].
  unfold JSON.quote. simpl. rewrite append_assoc. simpl.
  now rewrite parse_chars_quote.
Qed.

Lemma parse_elements_S fuel s :
  JSON.parse_elements (S fuel) s =
  match JSON.parse_value fuel s with
  | Some (v, r) =>
      match JSON.strip "," (JSON.skip_ws r), JSON.strip "]" (JSON.skip_ws r) with
      | Some r', _ =>
          match JSON.parse_elements fuel r' with
          | Some (l, r'') => Some (v :: l, r'')
          | None => None
          end
      | None, Some r' => Some ([v], r')
      | None, None => None
      end
  | None => None
  end.
Proof. reflexivity. Qed.

Lemma parse_members_S fuel acc s :
  JSON.parse_members (S fuel) acc s =
  match JSON.strip (String dquote EmptyString) (JSON.skip_ws s) with
  | Some s1 =>
      match JSON.parse_chars s1 with
      | Some (k, r) =>
          match JSON.strip ":" (JSON.skip_ws r) with
          | Some r1 =>
              match JSON.parse_value fuel r1 with
              | Some (v, r2) =>
                  match JSON.strip "," (JSON.skip_ws r2), JSON.strip "}" (JSON.skip_ws r2) with
                  | Some r3, _ => JSON.parse_members fuel (JsObject.define k v acc) r3
                  | None, Some r3 => Some (JsObject.define k v acc, r3)
                  | None, None => None
                  end
              | None => None
              end
          | None => None
          end
      | None => None
      end
  | None => None
  end.
Proof. reflexivity. Qed.

Lemma elements_round_trip l :
  Forall round_trips l ->
  fold_right (fun x P => serializable x /\ P) True l ->
  l <> [] ->
  elems_weight l <= S (String.length (JSON.join (map elem_text l)))
  /\ opens (JSON.join (map elem_text l))
  /\ forall fuel rest, elems_weight l <= fuel ->
       JSON.parse_elements fuel (JSON.join (map elem_text l) +:+ String "]" rest) = Some (l, rest).
Proof.
  induction 1 as [|x l Hx Hl IH]; [congruence|]. intros [Sx Sl] _.
  destruct (Hx Sx) as [t [Ht [Hw [Ho Hp]]]].
  assert (Et : elem_text x = t) by (unfold elem_text; now rewrite Ht).
  destruct l as [|y l].
  - simpl. rewrite Et. split; [unfold elems_weight; simpl; lia|]. split; [exact Ho|].
    intros [|fuel] rest Hf; [unfold elems_weight in Hf; simpl in Hf; lia|].
    rewrite parse_elements_S, Hp; [reflexivity| |reflexivity].
    unfold elems_weight in Hf. simpl in Hf. lia.
  - destruct (IH Sl) as [Hw' [Ho' Hp']]; [congruence|].
    change (JSON.join (map elem_text (x :: y :: l)))
      with (elem_text x +:+ String "," (JSON.join (map elem_text (y :: l)))).
    rewrite Et. split; [|split].
    + rewrite length_append. unfold elems_weight in *. simpl in *. lia.
    + intros rest. rewrite append_assoc. apply Ho.
    + intros [|fuel] rest Hf; [unfold elems_weight in Hf; simpl in Hf; lia|].
      assert (Hf' : weight x + elems_weight (y :: l) <= fuel)
        by (unfold elems_weight in *; simpl in *; lia).
      rewrite parse_elements_S, append_assoc, Hp; [|lia|reflexivity].
      simpl. rewrite Hp' by lia. reflexivity.
Qed.

Lemma quote_append k r :
  JSON.quote k +:+ r = String dquote (JSON.escape_all k +:+ String dquote r).
Proof. unfold JSON.quote. simpl. now rewrite append_assoc. Qed.

Lemma members_round_trip o :
  Forall (fun kv => round_trips (snd kv)) o ->
  fold_right (fun kv P => (utf8_text (fst kv) = true /\ serializable (snd kv)) /\ P) True o ->
  flat_map (fun kv => match kv with
                      | (k, x) => match JSON.stringify x with
                                  | Some t => [JSON.quote k +:+ ":" +:+ t]
                                  | None => []
                                  end
                      end) o = map member_text o
  /\ (o <> [] ->
      members_weight o <= S (String.length (JSON.join (map member_text o)))
      /\ forall fuel acc rest, members_weight o <= fuel ->
           JSON.parse_members fuel acc (JSON.join (map member_text o) +:+ String "}" rest)
           = Some (fold_left (fun a kv => JsObject.define (fst kv) (snd kv) a) o acc, rest)).
Proof.
  induction 1 as [|[k x] o Hx Ho IH]; [split; [reflexivity|congruence]|].
  intros [[Sk Sx] So]. simpl in Hx, Sx.
  destruct (Hx Sx) as [t [Ht [Hw [Hopen Hp]]]].
  destruct (IH So) as [Hflat Hrest].
  assert (Et : elem_text x = t) by (unfold elem_text; now rewrite Ht).
  split.
  - revert Hflat.
    set (f := fun kv : string * value => match kv with
                      | (k, x) => match JSON.stringify x with
                                  | Some t => [JSON.quote k +:+ ":" +:+ t]
                                  | None => []
                                  end
                      end).
    intros Hflat. change (flat_map f ((k, x) :: o)) with (f (k, x) ++ flat_map f o).
    rewrite Hflat. unfold f. rewrite Ht.
    change (map member_text ((k, x) :: o)) with (member_text (k, x) :: map member_text o).
    unfold member_text at 2. simpl fst. simpl snd. rewrite Et. reflexivity.
  - intros _. destruct o as [|kv o].
    + change (JSON.join (map member_text [(k, x)])) with (member_text (k, x)).
      unfold member_text. simpl fst. simpl snd. rewrite Et. split.
      * rewrite length_append. unfold members_weight. simpl fold_right. simpl snd.
        simpl String.length. lia.
      * intros [|fuel] acc rest Hf; [unfold members_weight in Hf; simpl in Hf; lia|].
        assert (Hf' : weight x <= fuel) by (unfold members_weight in Hf; simpl in Hf; lia).
        rewrite parse_members_S, append_assoc, quote_append, !append_cons.
        change (JSON.strip (String dquote EmptyString)
                  (JSON.skip_ws (String dquote (JSON.escape_all k +:+ String dquote (String ":" (t +:+ String "}" rest))))))
          with (Some (JSON.escape_all k +:+ String dquote (String ":" (t +:+ String "}" rest)))).
        cbv beta iota. rewrite parse_chars_quote. cbv beta iota.
        change (JSON.strip ":" (JSON.skip_ws (String ":" (t +:+ String "}" rest))))
          with (Some (t +:+ String "}" rest)).
        cbv beta iota. rewrite Hp; [reflexivity|exact Hf'|reflexivity].
    + destruct Hrest as [Hw' Hp']; [congruence|].
      change (JSON.join (map member_text ((k, x) :: kv :: o)))
        with (member_text (k, x) +:+ String "," (JSON.join (map member_text (kv :: o)))).
      unfold member_text at 1 3. simpl fst. simpl snd. rewrite Et. split.
      * change (members_weight ((k, x) :: kv :: o)) with (S (weight x + members_weight (kv :: o))).
        set (J := JSON.join (map member_text (kv :: o))) in *.
        rewrite !length_append. simpl String.length. lia.
      * intros [|fuel] acc rest Hf;
          change (members_weight ((k, x) :: kv :: o)) with (S (weight x + members_weight (kv :: o))) in Hf;
          [lia|].
        rewrite parse_members_S, !append_assoc, quote_append, !append_cons.
        set (tail := JSON.join (map member_text (kv :: o)) +:+ String "}" rest).
        change (JSON.strip (String dquote EmptyString)
                  (JSON.skip_ws (String dquote (JSON.escape_all k +:+ String dquote (String ":" (t +:+ String "," tail))))))
          with (Some (JSON.escape_all k +:+ String dquote (String ":" (t +:+ String "," tail)))).
        cbv beta iota. rewrite parse_chars_quote. cbv beta iota.
        change (JSON.strip ":" (JSON.skip_ws (String ":" (t +:+ String "," tail))))
          with (Some (t +:+ String "," tail)).
        cbv beta iota. rewrite Hp; [|lia|reflexivity]. cbv beta iota.
        change (JSON.strip "," (JSON.skip_ws (String "," tail))) with (Some tail).
        cbv beta iota. unfold tail. rewrite Hp' by lia. reflexivity.
Qed.

Lemma parse_value_array fuel s1 :
  JSON.parse_value (S fuel) (String "[" s1) =
  match JSON.strip "]" (JSON.skip_ws s1) with
  | Some r => Some (VArr [], r)
  | None => match JSON.parse_elements fuel s1 with
            | Some (l, r) => Some (VArr l, r)
            | None => None
            end
  end.
Proof. reflexivity. Qed.

Lemma parse_value_object fuel s1 :
  JSON.parse_value (S fuel) (String "{" s1) =
  match JSON.strip "}" (JSON.skip_ws s1) with
  | Some r => Some (VObj [], r)
  | None => match JSON.parse_members fuel [] s1 with
            | Some (o, r) => Some (VObj o, r)
            | None => None
            end
  end.
Proof. reflexivity. Qed.

Lemma every_serializable_value_round_trips : forall v, round_trips v.
Proof.
  apply value_induction.
  - intros [].
  - intros _. exists "null"%string. split; [reflexivity|]. split; [simpl; lia|].
    split; [intros rest; split; reflexivity|].
    intros [|fuel] rest Hf _; [simpl in Hf; lia|reflexivity].
  - intros b _. exists (if b then "true" else "false")%string. split; [reflexivity|].
    split; [destruct b; simpl; lia|]. split; [intros rest; destruct b; split; reflexivity|].
    intros [|fuel] rest Hf _; [simpl in Hf; lia|destruct b; reflexivity].
  - apply round_trips_num.
  - apply round_trips_str.
  - intros b [].
  - intros l Hl Sl.
    exists ("[" +:+ JSON.join (map elem_text l) +:+ "]"). split; [reflexivity|].
    destruct l as [|x l].
    + split; [simpl; lia|]. split; [intros rest; split; reflexivity|].
      intros [|fuel] rest Hf _; [simpl in Hf; lia|reflexivity].
    + destruct (elements_round_trip (x :: l) Hl Sl) as [Hw [Ho Hp]]; [congruence|].
      split; [|split].
      * change (weight (VArr (x :: l))) with (S (elems_weight (x :: l))).
        set (J := JSON.join (map elem_text (x :: l))) in *.
        change ("[" +:+ J +:+ "]") with (String "[" (J +:+ "]")).
        simpl String.length. rewrite length_append. simpl String.length. lia.
      * intros rest; split; reflexivity.
      * intros [|fuel] rest Hf _; [simpl in Hf; lia|].
        change (weight (VArr (x :: l))) with (S (elems_weight (x :: l))) in Hf.
        set (J := JSON.join (map elem_text (x :: l))) in *.
        change (("[" +:+ J +:+ "]") +:+ rest) with (String "[" ((J +:+ "]") +:+ rest)).
        rewrite append_assoc. change ("]" +:+ rest) with (String "]" rest).
        rewrite parse_value_array.
        destruct (Ho (String "]" rest)) as [-> ->].
        now rewrite Hp by lia.
  - intros o Ho [So Hproper].
    destruct (members_round_trip o Ho So) as [Hflat Hrest].
    exists ("{" +:+ JSON.join (map member_text o) +:+ "}"). split; [now rewrite <- Hflat|].
    destruct o as [|kv o].
    + split; [simpl; lia|]. split; [intros rest; split; reflexivity|].
      intros [|fuel] rest Hf _; [simpl in Hf; lia|reflexivity].
    + destruct Hrest as [Hw Hp]; [congruence|].
      split; [|split].
      * change (weight (VObj (kv :: o))) with (S (members_weight (kv :: o))).
        set (J := JSON.join (map member_text (kv :: o))) in *.
        change ("{" +:+ J +:+ "}") with (String "{" (J +:+ "}")).
        simpl String.length. rewrite length_append. simpl String.length. lia.
      * intros rest; split; reflexivity.
      * intros [|fuel] rest Hf _; [simpl in Hf; lia|].
        change (weight (VObj (kv :: o))) with (S (members_weight (kv :: o))) in Hf.
        change (("{" +:+ JSON.join (map member_text (kv :: o)) +:+ "}") +:+ rest)
          with (String "{" ((JSON.join (map member_text (kv :: o)) +:+ "}") +:+ rest)).
        rewrite append_assoc. change ("}" +:+ rest) with (String "}" rest).
        rewrite parse_value_object.
        assert (Hq : forall r, JSON.strip "}" (JSON.skip_ws (JSON.join (map member_text (kv :: o)) +:+ r)) = None).
        { intros r.
          assert (HJ : exists X, JSON.join (map member_text (kv :: o)) = JSON.quote (fst kv) +:+ X).
          { destruct o as [|kv' o]; [now exists (String ":" (elem_text (snd kv)))|].
            exists (String ":" (elem_text (snd kv))
                    +:+ String "," (JSON.join (map member_text (kv' :: o)))).
            change (JSON.join (map member_text (kv :: kv' :: o)))
              with (member_text kv +:+ String "," (JSON.join (map member_text (kv' :: o)))).
            unfold member_text at 1. now rewrite append_assoc. }
          destruct HJ as [X ->]. now rewrite append_assoc, quote_append. }
        rewrite Hq, Hp by lia. now rewrite Hproper.
  - intros f [].
Qed.

(** ** Well-formed text *)

Lemma utf8_text_Utf8 s : utf8_text s = true -> Utf8 s.
Proof.
  assert (H : forall n s, String.length s <= n -> utf8_text s = true -> Utf8 s).
  { clear s. induction n as [|n IH]; intros [|c0 s0] Hn;
      [intros _; constructor|simpl in Hn; lia|intros _; constructor|].
    simpl in Hn. simpl utf8_text.
    destruct (N_of_ascii c0 <=? 127)%N eqn:T1.
    { intros Hs. apply Utf8_one; [assumption|]. apply IH; [lia|assumption]. }
    destruct ((194 <=? N_of_ascii c0)%N && (N_of_ascii c0 <=? 223)%N) eqn:T2.
    { destruct s0 as [|c1 s1]; [discriminate|]. intros Hs. apply andb_prop in Hs as [B1 Hs].
      apply Utf8_two; try assumption. apply IH; [simpl in Hn; lia|assumption]. }
    destruct ((224 <=? N_of_ascii c0)%N && (N_of_ascii c0 <=? 239)%N) eqn:T3.
    { destruct s0 as [|c1 [|c2 s2]]; try discriminate. intros Hs.
      apply andb_prop in Hs as [Hs H2]. apply andb_prop in Hs as [B1 B2].
      apply Utf8_three; try assumption. apply IH; [simpl in Hn; lia|assumption]. }
    destruct ((240 <=? N_of_ascii c0)%N && (N_of_ascii c0 <=? 244)%N) eqn:T4; [|discriminate].
    destruct s0 as [|c1 [|c2 [|c3 s3]]]; try discriminate. intros Hs.
    apply andb_prop in Hs as [Hs H3]. apply andb_prop in Hs as [Hs B3].
    apply andb_prop in Hs as [B1 B2].
    apply Utf8_four; try assumption. apply IH; [simpl in Hn; lia|assumption]. }
  now apply (H (String.length s)).
Qed.

Lemma Utf8_append a b : Utf8 a -> Utf8 b -> Utf8 (a +:+ b).
Proof.
  induction 1; intros Hb; simpl;
    [assumption|apply Utf8_one|apply Utf8_two|apply Utf8_three|apply Utf8_four]; auto.
Qed.

Lemma ascii_Utf8 a : ascii_text a = true -> Utf8 a.
Proof.
  induction a as [|c a IH]; simpl; [constructor|]. intros H.
  apply andb_prop in H as [Hc Ha]. apply Utf8_one; auto.
Qed.

Lemma ascii_text_escape c :
  (N_of_ascii c <=? 127)%N = true -> ascii_text (JSON.escape c) = true.
Proof. destruct c as [[] [] [] [] [] [] [] []]; intros H; try discriminate H; reflexivity. Qed.

Lemma escape_high c :
  (N_of_ascii c <=? 127)%N = false -> JSON.escape c = String c EmptyString.
Proof. destruct c as [[] [] [] [] [] [] [] []]; intros H; try discriminate H; reflexivity. Qed.

Lemma between_high lo hi c :
  (128 <= lo)%N -> between lo hi c = true -> (N_of_ascii c <=? 127)%N = false.
Proof.
  unfold between. intros Hlo H. apply andb_prop in H as [H _].
  apply N.leb_le in H. apply N.leb_gt. lia.
Qed.

Lemma lower_after_high b : (128 <= Buffer.lower_after b)%N.
Proof.
  unfold Buffer.lower_after. destruct (b =? 224)%N; [lia|]. destruct (b =? 240)%N; lia.
Qed.

Lemma continuation_high c : between 128 191 c = true -> (N_of_ascii c <=? 127)%N = false.
Proof. apply between_high. lia. Qed.

Lemma Utf8_escape_all s : Utf8 s -> Utf8 (JSON.escape_all s).
Proof.
  induction 1 as [|c s Hc Hs IH|c0 c1 s T1 T2 B1 Hs IH|c0 c1 c2 s T1 T2 T3 B1 B2 Hs IH
                  |c0 c1 c2 c3 s T1 T2 T3 T4 B1 B2 B3 Hs IH]; simpl.
  - constructor.
  - apply Utf8_append; [|assumption]. now apply ascii_Utf8, ascii_text_escape.
  - rewrite (escape_high c0 T1), (escape_high c1 (continuation_high _ B1)). simpl.
    now apply Utf8_two.
  - rewrite (escape_high c0 T1), (escape_high c1 (between_high _ _ _ (lower_after_high _) B1)),
      (escape_high c2 (continuation_high _ B2)). simpl.
    now apply Utf8_three.
  - rewrite (escape_high c0 T1), (escape_high c1 (between_high _ _ _ (lower_after_high _) B1)),
      (escape_high c2 (continuation_high _ B2)),
      (escape_high c3 (continuation_high _ B3)). simpl.
    now apply Utf8_four.
Qed.

Lemma Utf8_quote s : Utf8 s -> Utf8 (JSON.quote s).
Proof.
  intros H. unfold JSON.quote. apply Utf8_one; [reflexivity|].
  apply Utf8_append; [now apply Utf8_escape_all|]. now apply ascii_Utf8.
Qed.

Lemma ascii_text_show_N n : ascii_text (JsObject.show_N n) = true.
Proof. unfold JsObject.show_N. induction (N.to_uint n); simpl; auto. Qed.

Lemma Utf8_show_Z z : Utf8 (JSON.show_Z z).
Proof.
  apply ascii_Utf8. unfold JSON.show_Z. destruct (z <? 0)%Z; simpl; apply ascii_text_show_N.
Qed.

Lemma Utf8_join l : Forall Utf8 l -> Utf8 (JSON.join l).
Proof.
  induction 1 as [|t l Ht Hl IH]; [constructor|].
  destruct l as [|t' l]; [exact Ht|].
  change (JSON.join (t :: t' :: l)) with (t +:+ String "," (JSON.join (t' :: l))).
  apply Utf8_append; [assumption|]. apply Utf8_one; [reflexivity|assumption].
Qed.

Lemma stringify_Utf8 : forall v t,
  serializable v -> JSON.stringify v = Some t -> Utf8 t.
Proof.
  apply (value_induction (fun v => forall t, serializable v -> JSON.stringify v = Some t -> Utf8 t)).
  - intros t [].
  - intros t _ H. inversion H. now apply ascii_Utf8.
  - intros [] t _ H; inversion H; now apply ascii_Utf8.
  - intros z t _ H. inversion H. apply Utf8_show_Z.
  - intros s t Hs H. inversion H. now apply Utf8_quote, utf8_text_Utf8.
  - intros b t [].
  - intros l Hl t Sl H. inversion H. clear H H1.
    change ("[" +:+ JSON.join (map elem_text l) +:+ "]")
      with (String "[" (JSON.join (map elem_text l) +:+ "]")).
    apply Utf8_one; [reflexivity|]. apply Utf8_append; [|now apply ascii_Utf8].
    apply Utf8_join.
    induction Hl as [|x l Hx Hl IH]; [constructor|]. destruct Sl as [Sx Sl].
    simpl. constructor; [|now apply IH].
    destruct (every_serializable_value_round_trips x Sx) as [tx [Ex _]].
    unfold elem_text. rewrite Ex. simpl. now apply (Hx tx).
  - intros o Ho t [So Hp] H.
    destruct (members_round_trip o) as [Hflat _].
    { apply Forall_forall. intros kv _. apply every_serializable_value_round_trips. }
    { exact So. }
    assert (E : JSON.stringify (VObj o) = Some ("{" +:+ JSON.join (map member_text o) +:+ "}"))
      by now rewrite <- Hflat.
    rewrite E in H. inversion H. clear H E H1 Hflat Hp.
    change ("{" +:+ JSON.join (map member_text o) +:+ "}")
      with (String "{" (JSON.join (map member_text o) +:+ "}")).
    apply Utf8_one; [reflexivity|]. apply Utf8_append; [|now apply ascii_Utf8].
    apply Utf8_join.
    induction Ho as [|[k x] o Hx Ho IH]; [constructor|]. destruct So as [[Sk Sx] So].
    simpl in Sk, Sx, Hx. simpl. constructor; [|now apply IH].
    destruct (every_serializable_value_round_trips x Sx) as [tx [Ex _]].
    unfold member_text, elem_text. simpl fst. simpl snd. rewrite Ex.
    apply Utf8_append; [now apply Utf8_quote, utf8_text_Utf8|].
    apply Utf8_one; [reflexivity|]. now apply (Hx tx).
  - intros f t [].
Qed.

(** ** Buffers of text *)

Lemma to_N_byte_of_ascii c : Byte.to_N (byte_of_ascii c) = N_of_ascii c.
Proof. apply Byte.to_of_N. symmetry. apply byte_of_ascii_via_N. Qed.

Lemma bytes_of_string s :
  map Byte.to_N (Buffer.of_string s) = map N_of_ascii (list_ascii_of_string s).
Proof.
  unfold Buffer.of_string, list_byte_of_string. rewrite map_map.
  apply map_ext. apply to_N_byte_of_ascii.
Qed.

(** The decoder hands a well-formed sequence on as it is. *)
Lemma decode_Utf8 s :
  Utf8 s ->
  Buffer.decode Buffer.idle (map N_of_ascii (list_ascii_of_string s))
  = map N_of_ascii (list_ascii_of_string s).
Proof.
  induction 1 as [|c s Hc Hs IH|c0 c1 s T1 T2 B1 Hs IH|c0 c1 c2 s T1 T2 T3 B1 B2 Hs IH
                  |c0 c1 c2 c3 s T1 T2 T3 T4 B1 B2 B3 Hs IH]; unfold between in *.
  - reflexivity.
  - simpl. unfold Buffer.step, Buffer.lead. simpl. rewrite Hc. simpl. now rewrite IH.
  - simpl. unfold Buffer.step at 1, Buffer.lead. simpl. rewrite T1, T2. simpl.
    unfold Buffer.step at 1. simpl. rewrite B1. simpl. now rewrite IH.
  - simpl. unfold Buffer.step at 1, Buffer.lead. simpl. rewrite T1, T2, T3. simpl.
    unfold Buffer.step at 1. simpl. rewrite B1. simpl.
    unfold Buffer.step at 1. simpl. rewrite B2. simpl. now rewrite IH.
  - simpl. unfold Buffer.step at 1, Buffer.lead. simpl. rewrite T1, T2, T3, T4. simpl.
    unfold Buffer.step at 1. simpl. rewrite B1. simpl.
    unfold Buffer.step at 1. simpl. rewrite B2. simpl.
    unfold Buffer.step at 1. simpl. rewrite B3. simpl. now rewrite IH.
Qed.

Lemma toString_of_string s : Utf8 s -> Buffer.toString (Buffer.of_string s) = s.
Proof.
  intros H. unfold Buffer.toString. rewrite bytes_of_string, decode_Utf8 by assumption.
  rewrite map_map. rewrite <- (string_of_list_ascii_of_string s) at 2. f_equal.
  rewrite <- (map_id (list_ascii_of_string s)) at 2. apply map_ext. apply ascii_N_embedding.
Qed.

Lemma append_empty (a : string) : a +:+ EmptyString = a.
Proof. induction a as [|c a IH]; simpl; [reflexivity|]. now rewrite IH. Qed.

Lemma parse_stringify v t :
  serializable v -> JSON.stringify v = Some t -> JSON.parse t = inr v.
Proof.
  intros Sv Ht. destruct (every_serializable_value_round_trips v Sv) as [t' [Et [Hw [_ Hp]]]].
  rewrite Ht in Et. inversion Et; subst t'. unfold JSON.parse.
  rewrite <- (append_empty t) at 2. rewrite Hp; [reflexivity|lia|reflexivity].
Qed.

(** ** Method bodies *)

Lemma bind_inr {A B} (m : M A) (k : A -> M B) w a w' :
  m w = (inr a, w') -> bind m k w = k a w'.
Proof. intros H. unfold bind. now rewrite H. Qed.

Lemma bind_inl {A B} (m : M A) (k : A -> M B) w e w' :
  m w = (inl e, w') -> bind m k w = (inl e, w').
Proof. intros H. unfold bind. now rewrite H. Qed.

Lemma with_rt_same w : with_rt (rt w) w = w.
Proof. now destruct w. Qed.

Lemma with_drawn_same r : with_drawn (drawn r) r = r.
Proof. now destruct r. Qed.

(** ** Selection *)

Lemma collect_picked l : forall acc w,
  collect l acc w =
  (inr (fst (picked l (drawn (rt w)) acc)),
   with_rt (with_drawn (snd (picked l (drawn (rt w)) acc)) (rt w)) w).
Proof.
  induction l as [|[i s] l IH]; intros acc w; simpl.
  - unfold ret. now rewrite with_drawn_same, with_rt_same.
  - unfold queue_key, falsy.
    destruct (Sub.queue s) as [q|]; [destruct (String.eqb q EmptyString)|]; simpl;
      unfold bind at 1; simpl; rewrite IH; simpl; try reflexivity;
      now destruct w as [? ? ? ? []].
Qed.

Lemma select_selected subject w :
  _findSubscribesBySubject subject w =
  (inr (selected subject w), with_rt (with_drawn (drawn_after subject w) (rt w)) w).
Proof.
  unfold _findSubscribesBySubject, selected, drawn_after, matching.
  unfold bind at 1. simpl. unfold bind at 1. now rewrite collect_picked.
Qed.

(** ** Delivery *)

Lemma alter_lookup (f : Sub.t -> Sub.t) i (l : list Sub.t) s :
  l !! i = Some s -> alter f i l = <[i := f s]> l.
Proof.
  revert i. induction l as [|x l IH]; intros [|i] H; simpl in *; try discriminate.
  - now inversion H.
  - f_equal. now apply IH.
Qed.

Lemma deliver_returns delivery replyTo subject i w s f :
  subs w !! i = Some s ->
  Sub.cb s = Some f ->
  raises f [delivery; replyTo; VStr subject] = false ->
  deliver delivery replyTo subject i w = (inr tt, delivered delivery replyTo subject w i).
Proof.
  intros Hi Hf Hr. unfold deliver, delivered.
  unfold bind at 1. simpl. rewrite Hi, Hf.
  unfold after_delivery.
  destruct (reached (increment s)) as [h|] eqn:E; simpl;
    unfold bind, update_sub, clearTimeout, modify, call, record, ret, throw; simpl;
    rewrite Hr; simpl; rewrite (alter_lookup increment i _ s Hi).
  - rewrite (alter_lookup (set_timeout None) i _ (increment s)).
    + now rewrite list_insert_insert_eq.
    + apply list_lookup_insert_eq. now apply lookup_lt_Some in Hi.
  - reflexivity.
Qed.

Lemma delivered_cb delivery replyTo subject w i j :
  Sub.cb <$> (subs (delivered delivery replyTo subject w i) !! j) = Sub.cb <$> (subs w !! j).
Proof.
  unfold delivered. destruct (subs w !! i) as [s|] eqn:Hi; [|reflexivity]. simpl.
  destruct (decide (i = j)) as [->|Hne].
  - rewrite list_lookup_insert_eq by (now apply lookup_lt_Some in Hi).
    rewrite Hi. simpl. unfold after_delivery.
    now destruct (reached (increment s)).
  - now rewrite list_lookup_insert_ne.
Qed.

Lemma delivered_returns_at delivery replyTo subject args w i j :
  returns_at args (subs (delivered delivery replyTo subject w i)) j = returns_at args (subs w) j.
Proof.
  unfold returns_at. pose proof (delivered_cb delivery replyTo subject w i j) as H.
  destruct (subs (delivered delivery replyTo subject w i) !! j) as [s'|],
           (subs w !! j) as [s|]; simpl in H; try discriminate; [|reflexivity].
  now inversion H.
Qed.

(** When every selected handler returns, the loop of [publish] returns,
    having made the deliveries one after the other. *)
Lemma forEach_deliver delivery replyTo subject l : forall w,
  forallb (returns_at [delivery; replyTo; VStr subject] (subs w)) l = true ->
  forEach (deliver delivery replyTo subject) l w
  = (inr tt, fold_left (delivered delivery replyTo subject) l w).
Proof.
  induction l as [|i l IH]; intros w H; simpl in *; [reflexivity|].
  apply andb_prop in H as [Hi Hl].
  unfold returns_at in Hi.
  destruct (subs w !! i) as [s|] eqn:Es; [|discriminate].
  destruct (Sub.cb s) as [f|] eqn:Ef; [|discriminate].
  apply negb_true_iff in Hi.
  rewrite (bind_inr _ _ _ _ _ (deliver_returns _ _ _ _ _ _ _ Es Ef Hi)).
  apply IH. apply forallb_forall. intros j Hj.
  rewrite delivered_returns_at. revert j Hj. now apply forallb_forall.
Qed.

(** ** Values of a property list *)

Lemma values_replace {A} k (v : A) o x :
  In x (JsObject.values (JsObject.replace_value k v o)) -> x = v \/ In x (JsObject.values o).
Proof.
  induction o as [|[k' v'] o IH]; simpl; [tauto|].
  destruct (String.eqb k k'); simpl; intuition.
Qed.

Lemma values_insert_index {A} n k (v : A) o x :
  In x (JsObject.values (JsObject.insert_index n k v o)) -> x = v \/ In x (JsObject.values o).
Proof.
  induction o as [|[k' v'] o IH]; simpl; [intuition|].
  destruct (JsObject.array_index k') as [m|]; [destruct (m <? n)%N|]; simpl; intuition.
Qed.

Lemma values_define {A} k (v : A) o x :
  In x (JsObject.values (JsObject.define k v o)) -> x = v \/ In x (JsObject.values o).
Proof.
  unfold JsObject.define. destruct (JsObject.has_key k o).
  - apply values_replace.
  - destruct (JsObject.array_index k).
    + apply values_insert_index.
    + unfold JsObject.values. rewrite map_app, in_app_iff. simpl. intuition.
Qed.

Lemma values_set {A} k (v : A) o x :
  In x (JsObject.values (JsObject.set k v o)) -> x = v \/ In x (JsObject.values o).
Proof.
  unfold JsObject.set. destruct (String.eqb k "__proto__"); [tauto|apply values_define].
Qed.

Lemma NoDup_values_replace {A} k (v : A) o :
  ~ In v (JsObject.values o) -> NoDup (JsObject.values o) ->
  NoDup (JsObject.values (JsObject.replace_value k v o)).
Proof.
  induction o as [|[k' v'] o IH]; simpl; intros Hv Hnd; [constructor|].
  apply NoDup_cons in Hnd as [Hv' Hnd]. rewrite list_elem_of_In in Hv'.
  destruct (String.eqb k k'); simpl; apply NoDup_cons; rewrite list_elem_of_In.
  - split; [tauto|assumption].
  - split; [|apply IH; tauto].
    intros H. apply values_replace in H. intuition.
Qed.

Lemma NoDup_values_insert_index {A} n k (v : A) o :
  ~ In v (JsObject.values o) -> NoDup (JsObject.values o) ->
  NoDup (JsObject.values (JsObject.insert_index n k v o)).
Proof.
  induction o as [|[k' v'] o IH]; simpl; intros Hv Hnd.
  - apply NoDup_cons. split; [rewrite list_elem_of_In; tauto|constructor].
  - assert (Hcons : NoDup (v :: v' :: JsObject.values o)).
    { apply NoDup_cons. split; [rewrite list_elem_of_In; simpl; tauto|assumption]. }
    apply NoDup_cons in Hnd as [Hv' Hnd]. rewrite list_elem_of_In in Hv'.
    destruct (JsObject.array_index k') as [m|]; [destruct (m <? n)%N|]; simpl; try exact Hcons.
    apply NoDup_cons. rewrite list_elem_of_In. split; [|apply IH; tauto].
    intros H. apply values_insert_index in H. intuition.
Qed.

Lemma NoDup_values_set {A} k (v : A) o :
  ~ In v (JsObject.values o) -> NoDup (JsObject.values o) ->
  NoDup (JsObject.values (JsObject.set k v o)).
Proof.
  intros Hv Hnd. unfold JsObject.set, JsObject.define.
  destruct (String.eqb k "__proto__"); [assumption|].
  destruct (JsObject.has_key k o); [now apply NoDup_values_replace|].
  destruct (JsObject.array_index k); [now apply NoDup_values_insert_index|].
  unfold JsObject.values in *. rewrite map_app. simpl.
  apply NoDup_app. split; [assumption|]. split; [|apply NoDup_singleton].
  intros x Hx Hx'. apply list_elem_of_In in Hx. apply list_elem_of_In in Hx'. simpl in Hx'.
  intuition congruence.
Qed.

(** ** The matching records *)

Lemma indexed_In l : forall k i s,
  In (i, s) (indexed k l) <-> k <= i /\ l !! (i - k) = Some s.
Proof.
  induction l as [|x l IH]; intros k i s; simpl.
  - split; [tauto|intros [_ H]; discriminate].
  - rewrite IH. split.
    + intros [H|[Hk H]].
      * inversion H; subst. split; [lia|]. now replace (i - i) with 0 by lia.
      * split; [lia|]. replace (i - k) with (S (i - S k)) by lia. exact H.
    + intros [Hk H]. destruct (decide (i = k)) as [->|Hne].
      * left. replace (k - k) with 0 in H by lia. simpl in H. now inversion H.
      * right. split; [lia|]. replace (i - k) with (S (i - S k)) in H by lia. exact H.
Qed.

Lemma indexed_sorted l : forall k, StronglySorted lt (map fst (indexed k l)).
Proof.
  induction l as [|x l IH]; intros k; simpl; constructor; [apply IH|].
  apply Forall_forall. intros i Hi. apply list_elem_of_In, in_map_iff in Hi as [[j s] [<- Hj]].
  apply indexed_In in Hj. simpl. lia.
Qed.

Lemma filter_fst_sorted {B} (f : nat * B -> bool) l :
  StronglySorted lt (map fst l) -> StronglySorted lt (map fst (List.filter f l)).
Proof.
  induction l as [|p l IH]; simpl; intros H; [constructor|].
  apply StronglySorted_inv in H as [Hl Hp].
  destruct (f p); simpl; [|now apply IH].
  constructor; [now apply IH|].
  rewrite Forall_forall in *. intros i Hi. apply Hp.
  apply list_elem_of_In, in_map_iff in Hi as [q [<- Hq]].
  apply filter_In in Hq as [Hq _]. apply list_elem_of_In, in_map_iff. eauto.
Qed.

Lemma sorted_NoDup l : StronglySorted lt l -> NoDup l.
Proof.
  induction 1 as [|a l Hl IH Ha]; constructor; [|assumption].
  intros Hin. rewrite Forall_forall in Ha. specialize (Ha _ Hin). lia.
Qed.

Lemma matching_sorted subject l : StronglySorted lt (map fst (matching subject l)).
Proof. apply filter_fst_sorted, indexed_sorted. Qed.

Lemma matching_In subject l i s :
  In (i, s) (matching subject l) <->
  l !! i = Some s /\ matchSubject subject (Sub.subject s) = true.
Proof.
  unfold matching. rewrite filter_In, indexed_In. simpl.
  replace (i - 0) with i by lia. intuition lia.
Qed.

(** ** The selection *)

Lemma picked_values l : forall d o x,
  In x (JsObject.values (fst (picked l d o))) ->
  In x (map fst l) \/ In x (JsObject.values o).
Proof.
  induction l as [|[i s] l IH]; intros d o x; simpl; [tauto|].
  destruct (falsy (Sub.queue s)); intros H; apply IH in H as [H|H]; try tauto;
    apply values_set in H as [->|H]; auto.
Qed.

Lemma picked_NoDup l : forall d o,
  NoDup (map fst l) ->
  (forall x, In x (map fst l) -> ~ In x (JsObject.values o)) ->
  NoDup (JsObject.values o) ->
  NoDup (JsObject.values (fst (picked l d o))).
Proof.
  induction l as [|[i s] l IH]; intros d o Hl Hd Ho; simpl in *; [assumption|].
  apply NoDup_cons in Hl as [Hi Hl]. rewrite list_elem_of_In in Hi.
  assert (Hstep : forall k x, In x (map fst l) -> ~ In x (JsObject.values (JsObject.set k i o))).
  { intros k x Hx H. apply values_set in H as [->|H]; [now apply Hi|]. apply (Hd x); tauto. }
  destruct (falsy (Sub.queue s)); apply IH; auto; apply NoDup_values_set; auto.
Qed.

Lemma selected_NoDup subject w : NoDup (selected subject w).
Proof.
  unfold selected. apply picked_NoDup.
  - apply sorted_NoDup, matching_sorted.
  - intros x _ [].
  - constructor.
Qed.

Lemma selected_matches subject w i :
  In i (selected subject w) ->
  exists s, subs w !! i = Some s /\ matchSubject subject (Sub.subject s) = true.
Proof.
  unfold selected. intros H. apply picked_values in H as [H|[]].
  apply in_map_iff in H as [[j s] [<- H]]. apply matching_In in H. eauto.
Qed.

(** ** A whole [publish] *)

Lemma handler_call_delivered d r subj d' r' subj' w i j :
  handler_call d r subj (subs (delivered d' r' subj' w i)) j = handler_call d r subj (subs w) j.
Proof.
  unfold handler_call. pose proof (delivered_cb d' r' subj' w i j) as H.
  destruct (subs (delivered d' r' subj' w i) !! j) as [s'|],
           (subs w !! j) as [s|]; simpl in H; try discriminate; [|reflexivity].
  now inversion H.
Qed.

Lemma delivered_log d r subj w i :
  log (rt (delivered d r subj w i)) = log (rt w) ++ handler_call d r subj (subs w) i.
Proof.
  unfold delivered, handler_call. destruct (subs w !! i); simpl; [reflexivity|].
  now rewrite app_nil_r.
Qed.

Lemma deliveries_log d r subj l : forall w,
  log (rt (fold_left (delivered d r subj) l w))
  = log (rt w) ++ flat_map (handler_call d r subj (subs w)) l.
Proof.
  induction l as [|i l IH]; intros w; simpl; [now rewrite app_nil_r|].
  rewrite IH, delivered_log, <- app_assoc. do 2 f_equal.
  apply flat_map_ext. intros j. apply handler_call_delivered.
Qed.

Lemma after_delivery_received s : Sub.received (after_delivery s) = (Sub.received s + 1)%Z.
Proof. unfold after_delivery. now destruct (reached (increment s)). Qed.

Lemma delivered_received d r subj w i j s :
  subs w !! j = Some s ->
  exists s', subs (delivered d r subj w i) !! j = Some s'
             /\ Sub.received s' = (Sub.received s + if Nat.eqb i j then 1 else 0)%Z.
Proof.
  intros Hj. unfold delivered. destruct (subs w !! i) as [si|] eqn:Hi; simpl.
  - destruct (Nat.eqb_spec i j) as [->|Hne].
    + rewrite list_lookup_insert_eq by (now apply lookup_lt_Some in Hj).
      rewrite Hj in Hi. inversion Hi; subst. eexists. split; [reflexivity|].
      apply after_delivery_received.
    + rewrite list_lookup_insert_ne by assumption. exists s. split; [assumption|lia].
  - exists s. split; [assumption|].
    destruct (Nat.eqb_spec i j) as [->|Hne]; [congruence|lia].
Qed.

Lemma deliveries_received d r subj l : forall w j s,
  subs w !! j = Some s ->
  exists s', subs (fold_left (delivered d r subj) l w) !! j = Some s'
             /\ Sub.received s' = (Sub.received s + Z.of_nat (count_occ Nat.eq_dec l j))%Z.
Proof.
  induction l as [|i l IH]; intros w j s Hj; simpl.
  - exists s. split; [assumption|lia].
  - destruct (delivered_received d r subj w i j s Hj) as [s1 [H1 R1]].
    destruct (IH _ _ _ H1) as [s2 [H2 R2]]. exists s2. split; [assumption|].
    rewrite R2, R1. destruct (Nat.eq_dec i j) as [->|Hne].
    + rewrite Nat.eqb_refl. lia.
    + apply Nat.eqb_neq in Hne. rewrite Hne. lia.
Qed.

Lemma count_occ_NoDup (l : list nat) j :
  NoDup l -> count_occ Nat.eq_dec l j = if bool_decide (j ∈ l) then 1 else 0.
Proof.
  intros H. rewrite NoDup_ListNoDup in H.
  pose proof (proj1 (NoDup_count_occ Nat.eq_dec l) H j) as Hle.
  pose proof (count_occ_In Nat.eq_dec l j) as Hin.
  pose proof (count_occ_not_In Nat.eq_dec l j) as Hout.
  case_bool_decide as Hj; rewrite list_elem_of_In in Hj;
    [apply Hin in Hj; lia|apply Hout in Hj; lia].
Qed.

(** [publish] up to the loop: a failure to encode or decode ends it there,
    otherwise the selection is made and the loop entered. *)
Lemma publish_unfold subject message replyTo w :
  publish subject message replyTo w =
  match encode (useJson w) message with
  | inl e => (inl e, w)
  | inr payload =>
      match decode (useJson w) (preserveBuffers w) payload with
      | inl e => (inl e, w)
      | inr delivery =>
          forEach (deliver delivery replyTo subject) (selected subject w)
            (with_rt (with_drawn (drawn_after subject w) (rt w)) w)
      end
  end.
Proof.
  unfold publish. unfold bind at 1. simpl. unfold bind at 1. simpl.
  unfold bind at 1, lift at 1.
  destruct (encode (useJson w) message) as [e|payload]; [reflexivity|].
  unfold bind at 1, lift at 1.
  destruct (decode (useJson w) (preserveBuffers w) payload) as [e|delivery]; [reflexivity|].
  unfold bind at 1. now rewrite select_selected.
Qed.

Lemma publish_returns subject message replyTo w payload delivery :
  encode (useJson w) message = inr payload ->
  decode (useJson w) (preserveBuffers w) payload = inr delivery ->
  forallb (returns_at [delivery; replyTo; VStr subject] (subs w)) (selected subject w) = true ->
  publish subject message replyTo w =
  (inr tt, fold_left (delivered delivery replyTo subject) (selected subject w)
             (with_rt (with_drawn (drawn_after subject w) (rt w)) w)).
Proof.
  intros He Hd Hr. rewrite publish_unfold, He, Hd. now apply forEach_deliver.
Qed.

Lemma publish_round_trip_fails subject message replyTo w e :
  round_trip (useJson w) (preserveBuffers w) message = inl e ->
  publish subject message replyTo w = (inl e, w).
Proof.
  unfold round_trip. intros H. rewrite publish_unfold.
  destruct (encode (useJson w) message) as [e'|payload]; [congruence|].
  now rewrite H.
Qed.

Lemma deliver_raises delivery replyTo subject i w s f :
  subs w !! i = Some s ->
  Sub.cb s = Some f ->
  raises f [delivery; replyTo; VStr subject] = true ->
  deliver delivery replyTo subject i w
  = (inl (Raised f), delivered delivery replyTo subject w i).
Proof.
  intros Hi Hf Hr. unfold deliver, delivered.
  unfold bind at 1. simpl. rewrite Hi, Hf.
  unfold after_delivery.
  destruct (reached (increment s)) as [h|] eqn:E; simpl;
    unfold bind, update_sub, clearTimeout, modify, call, record, ret, throw; simpl;
    rewrite Hr; simpl; rewrite (alter_lookup increment i _ s Hi).
  - rewrite (alter_lookup (set_timeout None) i _ (increment s)).
    + now rewrite list_insert_insert_eq.
    + apply list_lookup_insert_eq. now apply lookup_lt_Some in Hi.
  - reflexivity.
Qed.

(** ** Request and reply *)

Lemma requestOne_publishes subject message options callback w :
  is_function message = false ->
  requestOne subject message options callback w =
  let sid := uuid_v4 (drawn (rt w)) in
  match publish subject message (VStr sid) (with_rt (with_drawn (S (drawn (rt w))) (rt w)) w) with
  | (inr _, w') => (inr sid, w')
  | (inl e, w') => (inl e, w')
  end.
Proof.
  intros Hm. unfold requestOne. unfold bind at 1. simpl. rewrite Hm.
  unfold bind at 1. simpl.
  destruct (is_function options); unfold bind at 1;
    destruct (publish _ _ _ _) as [[e|[]] w']; reflexivity.
Qed.

(** C5, at the input on which the code departs from it.  A first call of
    [requestOne] whose message is a function draws the correlation id and
    then reads [EMPTY], a name the module does not bind: the call ends in a
    [ReferenceError], nothing is published and no id is returned. *)
Theorem requestOne_callback_as_message_throws subject f options callback w :
  requestOne subject (VFun f) options callback w
  = (inl ReferenceError, with_rt (with_drawn (S (drawn (rt w))) (rt w)) w).
Proof. reflexivity. Qed.

(** ** Connecting and closing *)

Lemma by_due_In l : forall acc x, In x (fold_left (fun a t => insert_by_due t a) l acc)
                                  <-> In x l \/ In x acc.
Proof.
  assert (Hins : forall t a x, In x (insert_by_due t a) <-> x = t \/ In x a).
  { intros t a x. induction a as [|t' a IH]; simpl; [intuition|].
    destruct (due t <? due t')%Z; simpl; intuition. }
  induction l as [|t l IH]; intros acc x; simpl; [tauto|].
  rewrite IH, Hins. intuition.
Qed.

(** C6, as amended.  [connect] writes [true] into [connected] before it
    returns; what is put off, by a timer of 10 ms, is the [connect] event
    only: it is not in the log when [connect] returns, and it is once the
    program has yielded for 10 ms or more.  A client fresh from the
    constructor has no [connected] property yet. *)
Theorem connect_sets_flag_before_returning w :
  (exists w',
     connect w = (inr tt, w')
     /\ connected w' = Some true
     /\ subs w' = subs w
     /\ log (rt w') = log (rt w)
     /\ timers (rt w') = timers (rt w) ++ [Timer (handles (rt w)) (now (rt w) + 10) (EmitTask "connect")]
     /\ forall dt, (10 <= dt)%Z -> In (Emitted "connect") (log (rt (advance dt w'))))
  /\ forall json preserve r, connected (constructor json preserve r) = None.
Proof.
  split; [|reflexivity].
  eexists. split; [reflexivity|]. simpl. repeat split.
  intros dt Hdt. rewrite !in_app_iff. right. right.
  apply in_flat_map. exists (Timer (handles (rt w)) (now (rt w) + 10) (EmitTask "connect")).
  split; [|simpl; tauto].
  unfold by_due. apply by_due_In. left. apply filter_In. split.
  - apply in_app_iff. right. simpl. tauto.
  - unfold is_due. simpl. apply Z.leb_le. lia.
Qed.

(** C7.  [close] returns with the registry empty and [connected] false,
    the [disconnect] event still queued; a [publish] that follows selects
    no record, calls no handler, and leaves registry and flag as they
    are, whether it returns or throws. *)
Theorem close_then_publish_reaches_nobody w :
  exists w',
    close w = (inr tt, w')
    /\ subs w' = []
    /\ connected w' = Some false
    /\ log (rt w') = log (rt w)
    /\ ticks (rt w') = ticks (rt w) ++ [EmitTask "disconnect"]
    /\ forall subject message replyTo,
         selected subject w' = []
         /\ log (rt (snd (publish subject message replyTo w'))) = log (rt w')
         /\ subs (snd (publish subject message replyTo w')) = []
         /\ connected (snd (publish subject message replyTo w')) = Some false.
Proof.
  eexists. split; [reflexivity|]. simpl. repeat split.
  all: rewrite publish_unfold; simpl;
    destruct (encode (useJson w) message) as [e|payload]; [reflexivity|];
    destruct (decode (useJson w) (preserveBuffers w) payload) as [e|delivery]; reflexivity.
Qed.

(** ** Failures of the round trip *)

(** C9.  In JSON mode, a message that does not survive encoding and
    decoding makes [publish] throw that failure to its caller before the
    registry is looked at: the client is left exactly as it was, so no
    record was selected, no count moved and no handler ran.  [undefined]
    and functions are such messages. *)
Theorem publish_json_failure_changes_nothing subject message replyTo w e :
  useJson w = true ->
  round_trip true (preserveBuffers w) message = inl e ->
  publish subject message replyTo w = (inl e, w)
  /\ round_trip true (preserveBuffers w) VUndefined = inl TypeError
  /\ forall f, round_trip true (preserveBuffers w) (VFun f) = inl TypeError.
Proof.
  intros Hj He. split; [|split; reflexivity].
  apply publish_round_trip_fails. now rewrite Hj.
Qed.

(** ** The [connected] flag is never read *)

Lemma ignores_ret {A} (a : A) : ignores_connected (ret a).
Proof. now intros c w. Qed.

Lemma ignores_throw {A} e : ignores_connected (@throw A e).
Proof. now intros c w. Qed.

Lemma ignores_lift {A} (r : error + A) : ignores_connected (lift r).
Proof. now intros c w. Qed.

Lemma ignores_bind {A B} (m : M A) (k : A -> M B) :
  ignores_connected m -> (forall a, ignores_connected (k a)) -> ignores_connected (bind m k).
Proof.
  intros Hm Hk c w. unfold bind. rewrite Hm.
  destruct (m w) as [[e|a] w']; simpl; [reflexivity|]. apply Hk.
Qed.

Lemma ignores_gets {A} (f : Client -> A) :
  (forall c w, f (with_connected c w) = f w) -> ignores_connected (gets f).
Proof. intros Hf c w. unfold gets. simpl. now rewrite Hf. Qed.

Lemma ignores_modify (f : Client -> Client) :
  (forall c w, f (with_connected c w) = with_connected c (f w)) ->
  ignores_connected (modify f).
Proof. intros Hf c w. unfold modify. simpl. now rewrite Hf. Qed.

Lemma ignores_forEach {A} (f : A -> M unit) l :
  (forall a, ignores_connected (f a)) -> ignores_connected (forEach f l).
Proof.
  intros Hf. induction l as [|x l IH]; simpl; [apply ignores_ret|].
  apply ignores_bind; [apply Hf|intros _; apply IH].
Qed.

Lemma ignores_uuid : ignores_connected uuid.
Proof. now intros c w. Qed.

Lemma ignores_setTimeout j ms : ignores_connected (setTimeout j ms).
Proof. now intros c w. Qed.

Lemma ignores_update_sub i f : ignores_connected (update_sub i f).
Proof. now apply ignores_modify. Qed.

Lemma ignores_call f args : ignores_connected (call f args).
Proof.
  destruct f as [g|]; simpl; [|apply ignores_throw].
  apply ignores_bind; [now apply ignores_modify|intros _].
  destruct (raises g args); [apply ignores_throw|apply ignores_ret].
Qed.

Lemma ignores_deliver d r subj i : ignores_connected (deliver d r subj i).
Proof.
  apply ignores_bind; [now apply ignores_gets|intros l].
  destruct (l !! i) as [s|]; [|apply ignores_ret].
  apply ignores_bind; [apply ignores_update_sub|intros _].
  apply ignores_bind; [|intros _; apply ignores_call].
  destruct (reached (increment s)); [|apply ignores_ret].
  apply ignores_bind; [now apply ignores_modify|intros _; apply ignores_update_sub].
Qed.

Lemma ignores_collect l : forall o, ignores_connected (collect l o).
Proof.
  induction l as [|[i s] l IH]; intros o; simpl; [apply ignores_ret|].
  apply ignores_bind; [|intros k; apply IH].
  unfold queue_key. destruct (Sub.queue s) as [q|]; [|apply ignores_uuid].
  destruct (String.eqb q EmptyString); [apply ignores_uuid|apply ignores_ret].
Qed.

Lemma ignores_select subject : ignores_connected (_findSubscribesBySubject subject).
Proof.
  apply ignores_bind; [now apply ignores_gets|intros l].
  apply ignores_bind; [apply ignores_collect|intros o; apply ignores_ret].
Qed.

Lemma ignores_find sid : ignores_connected (_findSubscribeBySid sid).
Proof. apply ignores_bind; [now apply ignores_gets|intros l; apply ignores_ret]. Qed.

(** C10.  [subscribe], [publish], [unsubscribe] and [timeout] never read
    [connected]: on two clients that differ in that flag only they return
    the same result and leave the same registry, timers and calls, the
    flag of each being what it was.  Nothing has to be connected for
    messages to flow. *)
Theorem messaging_ignores_connected :
  (forall subject opts cb, ignores_connected (subscribe subject opts cb))
  /\ (forall subject message replyTo, ignores_connected (publish subject message replyTo))
  /\ (forall sid, ignores_connected (unsubscribe sid))
  /\ (forall sid ms expected cb, ignores_connected (timeout sid ms expected cb)).
Proof.
  split; [|split; [|split]].
  - intros subject opts cb. apply ignores_bind; [apply ignores_uuid|intros sid].
    destruct opts; (apply ignores_bind; [now apply ignores_modify|intros _; apply ignores_ret]).
  - intros subject message replyTo.
    apply ignores_bind; [now apply ignores_gets|intros json].
    apply ignores_bind; [now apply ignores_gets|intros preserve].
    apply ignores_bind; [apply ignores_lift|intros payload].
    apply ignores_bind; [apply ignores_lift|intros delivery].
    apply ignores_bind; [apply ignores_select|intros l].
    apply ignores_forEach. intros i. apply ignores_deliver.
  - intros sid. apply ignores_bind; [apply ignores_find|intros [i|]].
    + now apply ignores_modify.
    + apply ignores_ret.
  - intros sid ms expected cb. apply ignores_bind; [apply ignores_find|intros [i|]].
    + apply ignores_bind; [apply ignores_update_sub|intros _].
      apply ignores_bind; [apply ignores_setTimeout|intros h; apply ignores_update_sub].
    + apply ignores_ret.
Qed.

(** ** Payloads *)

Lemma round_trip_json v preserve : serializable v -> round_trip true preserve v = inr v.
Proof.
  intros Sv. destruct (every_serializable_value_round_trips v Sv) as [t [Et _]].
  unfold round_trip, encode, decode. rewrite Et. simpl.
  rewrite toString_of_string by (now apply (stringify_Utf8 v)).
  now apply parse_stringify.
Qed.


Lemma publish_after_round_trip subject message replyTo w delivery :
  round_trip (useJson w) (preserveBuffers w) message = inr delivery ->
  forallb (returns_at [delivery; replyTo; VStr subject] (subs w)) (selected subject w) = true ->
  exists w',
    publish subject message replyTo w = (inr tt, w')
    /\ log (rt w') = log (rt w)
                     ++ flat_map (handler_call delivery replyTo subject (subs w))
                                 (selected subject w).
Proof.
  unfold round_trip. intros Hrt Hr.
  destruct (encode (useJson w) message) as [e|payload] eqn:He; [discriminate|].
  eexists. split; [now apply (publish_returns _ _ _ _ payload delivery)|].
  now rewrite deliveries_log.
Qed.


(** ** Timeouts *)

Lemma deliver_state d r subj i w :
  snd (deliver d r subj i w) = delivered d r subj w i.
Proof.
  unfold deliver, delivered. unfold bind at 1. simpl.
  destruct (subs w !! i) as [s|] eqn:Hi; [|reflexivity].
  unfold after_delivery.
  destruct (reached (increment s)) as [h|] eqn:E; simpl;
    unfold bind, update_sub, clearTimeout, modify, call, record, ret, throw; simpl;
    rewrite (alter_lookup increment i _ s Hi).
  - rewrite (alter_lookup (set_timeout None) i _ (increment s))
      by (apply list_lookup_insert_eq; now apply lookup_lt_Some in Hi).
    rewrite list_insert_insert_eq.
    destruct (Sub.cb s) as [f|]; simpl; [destruct (raises f _); reflexivity|].
    now rewrite app_nil_r.
  - destruct (Sub.cb s) as [f|]; simpl; [destruct (raises f _); reflexivity|].
    rewrite app_nil_r. now destruct w as [? ? ? ? []].
Qed.

(** A property of clients that every delivery keeps is kept by the whole
    loop, wherever it stops. *)
Lemma forEach_deliver_keeps (P : Client -> Prop) d r subj :
  (forall w i, P w -> P (delivered d r subj w i)) ->
  forall l w, P w -> P (snd (forEach (deliver d r subj) l w)).
Proof.
  intros Hstep. induction l as [|i l IH]; intros w Hw; simpl; [assumption|].
  unfold bind. pose proof (deliver_state d r subj i w) as Hs.
  destruct (deliver d r subj i w) as [[e|[]] w']; simpl in *; subst w'.
  - now apply Hstep.
  - apply IH. now apply Hstep.
Qed.

Lemma publish_keeps (P : Client -> Prop) subject message replyTo w :
  (forall d r subj w i, P w -> P (delivered d r subj w i)) ->
  (forall n w, P w -> P (with_rt (with_drawn n (rt w)) w)) ->
  P w -> P (snd (publish subject message replyTo w)).
Proof.
  intros Hstep Hdrawn Hw. rewrite publish_unfold.
  destruct (encode (useJson w) message) as [e|payload]; [assumption|].
  destruct (decode (useJson w) (preserveBuffers w) payload) as [e|delivery]; [assumption|].
  apply forEach_deliver_keeps; [apply Hstep|]. now apply Hdrawn.
Qed.

Lemma cancel_In x l t : In t (cancel x l) -> In t l.
Proof. destruct x as [h|]; simpl; [|tauto]. intros H. now apply filter_In in H. Qed.

Lemma cancel_other h x l t :
  x <> Some h -> handle t = h -> In t l -> In t (cancel x l).
Proof.
  intros Hx Ht Hin. destruct x as [h'|]; simpl; [|assumption].
  apply filter_In. split; [assumption|].
  apply negb_true_iff, Nat.eqb_neq. congruence.
Qed.

Lemma reached_timeout s h : reached s = Some h -> Sub.timeout s = Some h.
Proof.
  unfold reached. destruct (Sub.timeout s) as [h'|]; [|discriminate].
  destruct (Sub.expected s) as [n|]; [|discriminate].
  destruct (n <=? Sub.received s)%Z; [congruence|discriminate].
Qed.

Lemma after_delivery_timeout s h :
  Sub.timeout (after_delivery s) = Some h -> Sub.timeout s = Some h.
Proof. unfold after_delivery. destruct (reached (increment s)); simpl; [discriminate|tauto]. Qed.

Lemma delivered_retired d r subj h w k : retired h w -> retired h (delivered d r subj w k).
Proof.
  intros [Hout Hlt]. unfold delivered. destruct (subs w !! k) as [s|]; [|now split].
  split; simpl; [|assumption].
  intros Hin. apply Hout. apply in_map_iff in Hin as [t [Ht Hin]].
  apply cancel_In in Hin. apply in_map_iff. eauto.
Qed.

Lemma delivered_disarmed d r subj i h n r0 w k :
  disarmed i h n r0 w -> disarmed i h n r0 (delivered d r subj w k).
Proof.
  intros [s [Hi [Ht [Hr [Hn Hret]]]]].
  pose proof (delivered_retired d r subj h w k Hret) as Hret'.
  unfold disarmed, delivered in *. destruct (subs w !! k) as [sk|] eqn:Hk; [|now exists s].
  simpl. destruct (decide (k = i)) as [->|Hne].
  - rewrite Hi in Hk. inversion Hk; subst sk.
    rewrite list_lookup_insert_eq by (now apply lookup_lt_Some in Hi).
    exists (after_delivery s). split; [reflexivity|].
    assert (Ea : after_delivery s = increment s)
      by (unfold after_delivery, reached; simpl; now rewrite Ht).
    rewrite Ea. simpl. repeat split; try assumption; try lia; apply Hret'.
  - rewrite list_lookup_insert_ne by assumption. now exists s.
Qed.

Lemma delivered_armed d r subj i h n due j r0 w k :
  armed i h n due j r0 w ->
  armed i h n due j r0 (delivered d r subj w k) \/ disarmed i h n r0 (delivered d r subj w k).
Proof.
  intros [s [Hi [Ht [He [Hin [Hr [Hlt Hothers]]]]]]].
  unfold delivered. destruct (subs w !! k) as [sk|] eqn:Hk.
  2:{ left. exists s. now repeat split. }
  destruct (decide (k = i)) as [->|Hne].
  - rewrite Hi in Hk. inversion Hk; subst sk. clear Hk.
    assert (Hreach : reached (increment s)
                     = if (n <=? Sub.received s + 1)%Z then Some h else None).
    { unfold reached. simpl. now rewrite Ht, He. }
    destruct (Z.leb_spec n (Sub.received s + 1)) as [Hge|Hlow].
    + right. exists (after_delivery s). simpl.
      rewrite list_lookup_insert_eq by (now apply lookup_lt_Some in Hi).
      split; [reflexivity|]. unfold after_delivery. rewrite Hreach. simpl.
      repeat split; try lia; [|exact Hlt]. simpl.
      intros Hh. apply in_map_iff in Hh as [t [Hth Hh]]. apply filter_In in Hh as [_ Hh].
      apply negb_true_iff, Nat.eqb_neq in Hh. congruence.
    + left. exists (after_delivery s). simpl.
      rewrite list_lookup_insert_eq by (now apply lookup_lt_Some in Hi).
      split; [reflexivity|]. unfold after_delivery. rewrite Hreach. simpl.
      repeat split; try assumption; try lia.
      intros k' s' Hk' Hs'. rewrite list_lookup_insert_ne in Hs' by congruence.
      now apply (Hothers k' s').
  - left. exists s. simpl. rewrite list_lookup_insert_ne by assumption.
    repeat split; try assumption.
    + apply (cancel_other h); [|reflexivity|assumption].
      intros Hc. apply reached_timeout in Hc. simpl in Hc. now apply (Hothers k sk).
    + intros k' s' Hk' Hs'. destruct (decide (k' = k)) as [->|Hkk].
      * rewrite list_lookup_insert_eq in Hs' by (now apply lookup_lt_Some in Hk).
        inversion Hs'; subst s'. intros Hc. apply after_delivery_timeout in Hc.
        now apply (Hothers k sk).
      * rewrite list_lookup_insert_ne in Hs' by congruence. now apply (Hothers k' s').
Qed.

Lemma advance_retired h dt w : retired h w -> retired h (advance dt w).
Proof.
  intros [Hout Hlt]. split; simpl; [|assumption].
  intros Hin. apply Hout. apply in_map_iff in Hin as [t [Ht Hin]].
  apply filter_In in Hin as [Hin _]. apply in_map_iff. eauto.
Qed.

Lemma advance_disarmed i h n r0 dt w : disarmed i h n r0 w -> disarmed i h n r0 (advance dt w).
Proof.
  intros [s [Hi [Ht [Hr [Hn Hret]]]]]. exists s.
  repeat split; try assumption; now apply (advance_retired h dt w).
Qed.

Lemma advance_armed i h n due j r0 dt w :
  (now (rt w) + dt < due)%Z ->
  armed i h n due j r0 w -> armed i h n due j r0 (advance dt w).
Proof.
  intros Hdt [s [Hi [Ht [He [Hin [Hr [Hlt Hothers]]]]]]]. exists s.
  repeat split; try assumption. simpl. apply filter_In. split; [assumption|].
  unfold is_due. simpl. apply negb_true_iff, Z.leb_gt. lia.
Qed.

Lemma publish_now subject message replyTo w :
  now (rt (snd (publish subject message replyTo w))) = now (rt w).
Proof.
  apply (publish_keeps (fun w' => now (rt w') = now (rt w))); [| |reflexivity].
  - intros d r subj w' k H. unfold delivered. now destruct (subs w' !! k).
  - intros n w' H. exact H.
Qed.

Lemma publish_armed_or_disarmed subject message replyTo i h n due j r0 w :
  armed i h n due j r0 w \/ disarmed i h n r0 w ->
  armed i h n due j r0 (snd (publish subject message replyTo w))
  \/ disarmed i h n r0 (snd (publish subject message replyTo w)).
Proof.
  apply (publish_keeps (fun w' => armed i h n due j r0 w' \/ disarmed i h n r0 w')).
  - intros d r subj w' k [H|H]; [now apply delivered_armed|right; now apply delivered_disarmed].
  - intros m w' H. exact H.
Qed.

Lemma waited_calm script : forallb calm script = true -> (0 <= waited script)%Z.
Proof.
  induction script as [|a script IH]; simpl; [lia|].
  intros H. apply andb_prop in H as [Ha Hs]. specialize (IH Hs).
  destruct a; simpl in Ha; try discriminate; [assumption|].
  apply Z.leb_le in Ha. lia.
Qed.

(** Publishing and waiting short of the due time leave the timeout armed
    until it is disarmed, and disarmed from then on. *)
Lemma calm_script i h n due j r0 script : forall w,
  forallb calm script = true ->
  (now (rt w) + waited script < due)%Z ->
  armed i h n due j r0 w \/ disarmed i h n r0 w ->
  (armed i h n due j r0 (run script w) \/ disarmed i h n r0 (run script w))
  /\ now (rt (run script w)) = (now (rt w) + waited script)%Z.
Proof.
  induction script as [|a script IH]; intros w Hc Ht Hw.
  - simpl in *. split; [assumption|lia].
  - change (run (a :: script) w) with (run script (perform a w)).
    simpl in Hc. apply andb_prop in Hc as [Ha Hs]. pose proof (waited_calm script Hs) as Hpos.
    destruct a as [| |subject opts cb|subject message replyTo|subject message opts callback
                  |sid|sid ms expected cb|dt]; simpl in Ha; try discriminate.
    + change (waited (Publish subject message replyTo :: script)) with (waited script) in *.
      destruct (IH (perform (Publish subject message replyTo) w) Hs) as [Hinv Hnow].
      * simpl. rewrite publish_now. exact Ht.
      * now apply publish_armed_or_disarmed.
      * split; [exact Hinv|]. rewrite Hnow. simpl. now rewrite publish_now.
    + change (waited (Wait dt :: script)) with (dt + waited script)%Z in *.
      apply Z.leb_le in Ha.
      destruct (IH (perform (Wait dt) w) Hs) as [Hinv Hnow].
      * simpl. lia.
      * destruct Hw as [Hw|Hw]; [left; apply advance_armed; [lia|assumption]|].
        right. now apply advance_disarmed.
      * split; [exact Hinv|]. rewrite Hnow. simpl. lia.
Qed.

(** A timer that is pending when its time has come is run. *)
Lemma advance_fires h due j dt w :
  In (Timer h due j) (timers (rt w)) ->
  (due <= now (rt w) + dt)%Z ->
  exists before after,
    log (rt (advance dt w)) = log (rt w) ++ before ++ run_task j ++ after.
Proof.
  intros Hin Hdue. simpl.
  assert (Hf : In (Timer h due j) (by_due (List.filter (is_due (now (rt w) + dt)) (timers (rt w))))).
  { unfold by_due. apply by_due_In. left. apply filter_In. split; [assumption|].
    unfold is_due. simpl. now apply Z.leb_le. }
  apply in_split in Hf as [l1 [l2 Hf]]. rewrite Hf.
  exists (flat_map run_task (ticks (rt w)) ++ flat_map (fun x => run_task (job x)) l1),
         (flat_map (fun x => run_task (job x)) l2).
  rewrite flat_map_app. simpl. now rewrite <- !app_assoc.
Qed.

(** No call brings back a handle that [setTimeout] has handed out and
    that is no longer pending. *)
Lemma perform_retired h a w : retired h w -> retired h (perform a w).
Proof.
  intros Hret. pose proof Hret as [Hout Hlt].
  assert (Hsame : forall w', timers (rt w') = timers (rt w) -> handles (rt w') = handles (rt w) ->
                             retired h w').
  { intros w' Et Eh. unfold retired. now rewrite Et, Eh. }
  assert (Harm : forall t ms w', timers (rt w') = timers (rt w) ->
                                 handles (rt w') = handles (rt w) ->
                                 retired h (snd (setTimeout t ms w'))).
  { intros t ms w' Et Eh. split; simpl; rewrite Eh; [|lia].
    rewrite Et, map_app, in_app_iff. simpl. intros [H|[H|[]]]; [tauto|lia]. }
  assert (Hpub : forall subject message replyTo w', retired h w' ->
                   retired h (snd (publish subject message replyTo w'))).
  { intros subject message replyTo w' H. apply (publish_keeps (retired h)); [| |assumption].
    - intros d r subj w'' k. apply delivered_retired.
    - intros m w'' H'. exact H'. }
  destruct a as [| |subject opts cb|subject message replyTo|subject message opts callback
                |sid|sid ms expected cb|dt]; simpl.
  - apply (Harm (EmitTask "connect") 10%Z (with_connected (Some true) w)); reflexivity.
  - now apply Hsame.
  - unfold subscribe, bind. simpl. destruct opts; now apply Hsame.
  - now apply Hpub.
  - unfold requestOne. unfold bind at 1. simpl.
    destruct (is_function message); simpl; [now apply Hsame|].
    unfold bind at 1. simpl.
    assert (Hp := Hpub subject message (VStr (uuid_v4 (drawn (rt w))))
                    (with_rt (with_drawn (S (drawn (rt w))) (rt w)) w)).
    destruct (is_function opts); unfold bind;
      destruct (publish _ _ _ _) as [[e|[]] w']; simpl in *; apply Hp; now apply Hsame.
  - unfold unsubscribe, bind. simpl. destruct (find_sid sid (subs w)); now apply Hsame.
  - unfold timeout. unfold bind at 1. simpl. destruct (find_sid sid (subs w)) as [k|]; [|now apply Hsame].
    unfold bind. simpl. split; simpl; [|lia].
    rewrite map_app, in_app_iff. simpl. intros [H|[H|[]]]; [tauto|lia].
  - now apply advance_retired.
Qed.

Lemma run_retired h script : forall w, retired h w -> retired h (run script w).
Proof.
  induction script as [|a script IH]; intros w H; simpl; [assumption|].
  apply IH. now apply perform_retired.
Qed.

Lemma timeout_arms sid ms n cb i s0 w :
  handles_fresh w = true ->
  find_sid sid (subs w) = Some i ->
  subs w !! i = Some s0 ->
  armed i (handles (rt w)) n (now (rt w) + delay ms) (CallbackTask cb sid) (Sub.received s0)
        (snd (timeout sid ms n cb w))
  /\ now (rt (snd (timeout sid ms n cb w))) = now (rt w).
Proof.
  intros Hfresh Hfind Hi.
  unfold timeout, _findSubscribeBySid, bind, gets, ret, update_sub, setTimeout, modify.
  simpl. rewrite Hfind. simpl. split; [|reflexivity].
  rewrite (alter_lookup (set_expected n) i _ s0 Hi).
  rewrite (alter_lookup (set_timeout (Some (handles (rt w)))) i _ (set_expected n s0))
    by (apply list_lookup_insert_eq; now apply lookup_lt_Some in Hi).
  rewrite list_insert_insert_eq.
  exists (set_timeout (Some (handles (rt w))) (set_expected n s0)). simpl.
  split; [apply list_lookup_insert_eq; now apply lookup_lt_Some in Hi|].
  split; [reflexivity|]. split; [reflexivity|].
  split; [apply in_app_iff; right; simpl; tauto|].
  split; [now left|]. split; [lia|].
  intros k s' Hk Hs'.
  { rewrite list_lookup_insert_ne in Hs' by congruence.
    unfold handles_fresh in Hfresh. rewrite forallb_forall in Hfresh.
    assert (Hin : In s' (subs w)) by (apply list_elem_of_In, list_elem_of_lookup; eauto).
    specialize (Hfresh s' Hin). intros Hc. rewrite Hc in Hfresh.
    apply Nat.ltb_lt in Hfresh. lia. }
Qed.

(** What the code does with a timeout.  [timeout(sid, ms, n, cb)] on a
    registered [sid] arms a timer for the subscription, due [delay ms]
    after the call: [ms] itself, or 1 ms when [ms] is below 1 or above
    2147483647.  While the test, before the timer is due, only publishes
    and lets time pass, the timer is cancelled at the first delivery to
    the subscription that finds its [received] count, the count since
    [subscribe], at [n] or above, and at no other moment.  So if the
    count has not moved, or is still below [n], when the timer falls due,
    [cb(sid)] is run; and if a delivery has brought the count to [n] or
    beyond, the record holds no timeout any more and the timer is never
    pending again, whatever the test does next: [cb] is not run by it.
    On a subscription that has received nothing yet this is what the
    comment above [timeout] promises; on one that has, it is not. *)
Theorem timeout_fires_unless_count_reached sid ms n cb i s0 script w0 :
  handles_fresh w0 = true ->
  find_sid sid (subs w0) = Some i ->
  subs w0 !! i = Some s0 ->
  forallb calm script = true ->
  (waited script < delay ms)%Z ->
  let h := handles (rt w0) in
  let due := (now (rt w0) + delay ms)%Z in
  let w2 := run script (snd (timeout sid ms n cb w0)) in
  exists s2,
    subs w2 !! i = Some s2
    /\ (Sub.received s0 <= Sub.received s2)%Z
    /\ ((Sub.received s2 = Sub.received s0 \/ Sub.received s2 < n)%Z ->
        forall dt, (due <= now (rt w2) + dt)%Z ->
        exists before after,
          log (rt (advance dt w2))
          = log (rt w2) ++ before ++ run_task (CallbackTask cb sid) ++ after)
    /\ ((Sub.received s0 < Sub.received s2)%Z -> (n <= Sub.received s2)%Z ->
        Sub.timeout s2 = None
        /\ forall more, ~ In h (map handle (timers (rt (run more w2))))).
Proof.
  intros Hfresh Hfind Hi Hcalm Hwait h due w2.
  destruct (timeout_arms sid ms n cb i s0 w0 Hfresh Hfind Hi) as [Harmed Hnow].
  destruct (calm_script i h n due (CallbackTask cb sid) (Sub.received s0) script
              (snd (timeout sid ms n cb w0)) Hcalm) as [Hinv _].
  { rewrite Hnow. unfold due. lia. }
  { left. exact Harmed. }
  fold w2 in Hinv. destruct Hinv as [[s2 [H2 [Ht [He [Hin [Hr [Hlt Ho]]]]]]]|[s2 [H2 [Ht [Hr [Hn Hret]]]]]].
  - exists s2. split; [assumption|]. split; [lia|]. split.
    + intros _ dt Hdt. now apply (advance_fires h due).
    + intros H1 H3. lia.
  - exists s2. split; [assumption|]. split; [lia|]. split.
    + intros H1. lia.
    + intros _ _. split; [assumption|]. intros more. now apply run_retired.
Qed.

(** Every method keeps the handles held by the records below the next
    handle of [setTimeout]: a client fresh from the constructor has
    [handles_fresh], and so has every client a test makes of it. *)
Lemma find_sid_lookup sid l : forall k,
  find_sid sid l = Some k -> exists s, l !! k = Some s /\ Sub.sid s = sid.
Proof.
  induction l as [|x l IH]; intros k; simpl; [discriminate|].
  destruct (String.eqb_spec (Sub.sid x) sid) as [E|E].
  - intros H. inversion H. exists x. now split.
  - destruct (find_sid sid l) as [k'|]; simpl; [|discriminate].
    intros H. inversion H. now apply IH.
Qed.

Lemma In_insert (l : list Sub.t) k x y : In y (<[k := x]> l) -> y = x \/ In y l.
Proof.
  revert k. induction l as [|z l IH]; intros [|k]; simpl; try tauto.
  - intros [H|H]; auto.
  - intros [H|H]; auto. apply IH in H. tauto.
Qed.

Lemma In_delete (l : list Sub.t) k y : In y (delete k l) -> In y l.
Proof.
  revert k. induction l as [|z l IH]; intros [|k]; simpl; try tauto.
  intros [H|H]; [now left|right; now apply (IH k)].
Qed.

Lemma handles_fresh_spec w :
  handles_fresh w = true <->
  forall s h, In s (subs w) -> Sub.timeout s = Some h -> h < handles (rt w).
Proof.
  unfold handles_fresh. rewrite forallb_forall. split.
  - intros H s h Hs Ht. specialize (H s Hs). rewrite Ht in H. now apply Nat.ltb_lt.
  - intros H s Hs. destruct (Sub.timeout s) as [h|] eqn:Ht; [|reflexivity].
    apply Nat.ltb_lt. eauto.
Qed.

Lemma delivered_handles_fresh d r subj w k :
  handles_fresh w = true -> handles_fresh (delivered d r subj w k) = true.
Proof.
  rewrite !handles_fresh_spec. intros H s h Hs Ht. unfold delivered in *.
  destruct (subs w !! k) as [sk|] eqn:Hk; [|eauto]. simpl in *.
  apply In_insert in Hs as [->|Hs]; [|eauto].
  apply after_delivery_timeout in Ht. apply (H sk); [|assumption].
  apply list_elem_of_In, list_elem_of_lookup. eauto.
Qed.

(** Every call keeps the handles held by the records below the next
    handle of [setTimeout]; a client fresh from the constructor holds
    none. *)
Lemma perform_handles_fresh a w : handles_fresh w = true -> handles_fresh (perform a w) = true.
Proof.
  intros Hw.
  assert (Hpub : forall subject message replyTo w', handles_fresh w' = true ->
                   handles_fresh (snd (publish subject message replyTo w')) = true).
  { intros subject message replyTo w' H.
    apply (publish_keeps (fun x => handles_fresh x = true)); [| |assumption].
    - intros d r subj w'' k. apply delivered_handles_fresh.
    - intros m w'' H'. exact H'. }
  destruct a as [| |subject opts cb|subject message replyTo|subject message opts callback
                |sid|sid ms expected cb|dt]; simpl.
  - apply handles_fresh_spec. rewrite handles_fresh_spec in Hw. simpl.
    intros s h Hs Ht. specialize (Hw s h Hs Ht). lia.
  - reflexivity.
  - apply handles_fresh_spec. rewrite handles_fresh_spec in Hw.
    unfold subscribe, bind. simpl.
    destruct opts; simpl; intros s h Hs Ht; apply in_app_iff in Hs as [Hs|[<-|[]]];
      eauto; discriminate.
  - now apply Hpub.
  - unfold requestOne. unfold bind at 1. simpl.
    destruct (is_function message); simpl; [exact Hw|].
    unfold bind at 1. simpl.
    assert (Hp := Hpub subject message (VStr (uuid_v4 (drawn (rt w))))
                    (with_rt (with_drawn (S (drawn (rt w))) (rt w)) w) Hw).
    destruct (is_function opts); unfold bind;
      destruct (publish _ _ _ _) as [[e|[]] w']; simpl in *; exact Hp.
  - unfold unsubscribe, bind. simpl. destruct (find_sid sid (subs w)) as [k|]; [|exact Hw].
    apply handles_fresh_spec. rewrite handles_fresh_spec in Hw. simpl.
    intros s h Hs Ht. apply In_delete in Hs. eauto.
  - unfold timeout, _findSubscribeBySid, bind, gets, ret, update_sub, setTimeout, modify. simpl.
    destruct (find_sid sid (subs w)) as [k|] eqn:Hf; [|exact Hw].
    apply handles_fresh_spec. rewrite handles_fresh_spec in Hw. simpl.
    intros s h Hs Ht.
    destruct (find_sid_lookup _ _ _ Hf) as [sk [Hk _]].
    + rewrite (alter_lookup (set_expected expected) k _ sk Hk) in Hs.
      rewrite (alter_lookup (set_timeout (Some (handles (rt w)))) k _ (set_expected expected sk)) in Hs
        by (apply list_lookup_insert_eq; now apply lookup_lt_Some in Hk).
      rewrite list_insert_insert_eq in Hs.
      apply In_insert in Hs as [->|Hs]; [simpl in Ht; inversion Ht; lia|].
      specialize (Hw s h Hs Ht). lia.
  - exact Hw.
Qed.

Lemma run_handles_fresh script : forall w,
  handles_fresh w = true -> handles_fresh (run script w) = true.
Proof.
  induction script as [|a script IH]; intros w H; simpl; [assumption|].
  apply IH. now apply perform_handles_fresh.
Qed.

(** Whatever a test does with a new client, the records hold handles of
    [setTimeout] only. *)
Lemma tested_client_handles_fresh json preserve r script :
  handles_fresh (run script (constructor json preserve r)) = true.
Proof. now apply run_handles_fresh. Qed.

(** ** One subscription per queue group *)

Lemma has_key_get {A} k (o : JsObject.props A) :
  JsObject.has_key k o = false <-> JsObject.get k o = None.
Proof.
  induction o as [|[k' v] o IH]; simpl; [tauto|].
  destruct (String.eqb k k'); simpl; [split; discriminate|exact IH].
Qed.

Lemma get_replace {A} k (v : A) o k' :
  JsObject.has_key k o = true ->
  JsObject.get k' (JsObject.replace_value k v o)
  = if String.eqb k' k then Some v else JsObject.get k' o.
Proof.
  induction o as [|[k0 v0] o IH]; simpl; [discriminate|].
  destruct (String.eqb_spec k k0) as [<-|Hne]; simpl.
  - intros _. now destruct (String.eqb k' k).
  - intros H. rewrite (IH H).
    destruct (String.eqb_spec k' k0) as [->|Hne']; [|reflexivity].
    destruct (String.eqb_spec k0 k); [congruence|reflexivity].
Qed.

Lemma get_insert_index {A} n k (v : A) o k' :
  JsObject.get k o = None ->
  JsObject.get k' (JsObject.insert_index n k v o)
  = if String.eqb k' k then Some v else JsObject.get k' o.
Proof.
  induction o as [|[k0 v0] o IH]; simpl; [reflexivity|].
  destruct (String.eqb_spec k k0) as [<-|Hne]; [discriminate|]. intros H.
  destruct (JsObject.array_index k0) as [m|]; [destruct (m <? n)%N|]; simpl; try reflexivity.
  rewrite (IH H). destruct (String.eqb_spec k' k0) as [->|Hne']; [|reflexivity].
  destruct (String.eqb_spec k0 k); [congruence|reflexivity].
Qed.

Lemma get_app_new {A} k (v : A) o k' :
  JsObject.get k o = None ->
  JsObject.get k' (o ++ [(k, v)]) = if String.eqb k' k then Some v else JsObject.get k' o.
Proof.
  induction o as [|[k0 v0] o IH]; simpl; [reflexivity|].
  destruct (String.eqb_spec k k0) as [<-|Hne]; [discriminate|]. intros H.
  rewrite (IH H). destruct (String.eqb_spec k' k0) as [->|Hne']; [|reflexivity].
  destruct (String.eqb_spec k0 k); [congruence|reflexivity].
Qed.

Lemma get_define {A} k (v : A) o k' :
  JsObject.get k' (JsObject.define k v o)
  = if String.eqb k' k then Some v else JsObject.get k' o.
Proof.
  unfold JsObject.define. destruct (JsObject.has_key k o) eqn:H.
  - now apply get_replace.
  - apply has_key_get in H. destruct (JsObject.array_index k).
    + now apply get_insert_index.
    + now apply get_app_new.
Qed.

Lemma get_set {A} k (v : A) o k' :
  k' <> "__proto__"%string ->
  JsObject.get k' (JsObject.set k v o)
  = if String.eqb k' k then Some v else JsObject.get k' o.
Proof.
  intros Hk. unfold JsObject.set. destruct (String.eqb_spec k "__proto__") as [->|Hne].
  - destruct (String.eqb_spec k' "__proto__"); [congruence|reflexivity].
  - apply get_define.
Qed.

Lemma get_In {A} k (v : A) o : JsObject.get k o = Some v -> In (k, v) o.
Proof.
  induction o as [|[k0 v0] o IH]; simpl; [discriminate|].
  destruct (String.eqb_spec k k0) as [->|Hne]; [intros H; inversion H; now left|].
  intros H. right. now apply IH.
Qed.

Lemma get_In_key {A} k (o : JsObject.props A) :
  In k (map fst o) -> exists v, JsObject.get k o = Some v.
Proof.
  induction o as [|[k0 v0] o IH]; simpl; [tauto|].
  destruct (String.eqb_spec k k0) as [->|Hne]; [eauto|].
  intros [H|H]; [congruence|now apply IH].
Qed.

Lemma get_unique {A} k (v : A) o :
  In (k, v) o -> count_occ string_dec (map fst o) k = 1 -> JsObject.get k o = Some v.
Proof.
  induction o as [|[k0 v0] o IH]; simpl; [tauto|].
  destruct (string_dec k0 k) as [->|Hne].
  - rewrite String.eqb_refl. intros [H|H] Hc; [now inversion H|].
    exfalso. assert (Hin : In k (map fst o)) by (apply in_map_iff; exists (k, v); now split).
    apply (count_occ_In string_dec) in Hin. lia.
  - destruct (String.eqb_spec k k0); [congruence|].
    intros [H|H] Hc; [inversion H; congruence|now apply IH].
Qed.

Lemma In_define {A} k (v : A) o p :
  In p (JsObject.define k v o) -> p = (k, v) \/ In p o.
Proof.
  unfold JsObject.define. destruct (JsObject.has_key k o) eqn:Hk.
  - clear Hk. induction o as [|[k0 v0] o IH]; simpl; [tauto|].
    destruct (String.eqb_spec k k0) as [->|Hne]; simpl; intuition.
  - clear Hk. destruct (JsObject.array_index k) as [n|].
    + induction o as [|[k0 v0] o IH]; simpl; [intuition|].
      destruct (JsObject.array_index k0) as [m|]; [destruct (m <? n)%N|]; simpl; intuition.
    + rewrite in_app_iff. simpl. intuition.
Qed.

Lemma In_set {A} k (v : A) o p : In p (JsObject.set k v o) -> p = (k, v) \/ In p o.
Proof.
  unfold JsObject.set. destruct (String.eqb k "__proto__"); [tauto|apply In_define].
Qed.

Lemma insert_index_Permutation {A} n k (v : A) o :
  Permutation (JsObject.insert_index n k v o) ((k, v) :: o).
Proof.
  induction o as [|[k0 v0] o IH]; simpl; [reflexivity|].
  destruct (JsObject.array_index k0) as [m|]; [destruct (m <? n)%N|]; try reflexivity.
  rewrite IH. apply perm_swap.
Qed.

Lemma keys_replace {A} k (v : A) o :
  map fst (JsObject.replace_value k v o) = map fst o.
Proof.
  induction o as [|[k0 v0] o IH]; simpl; [reflexivity|].
  destruct (String.eqb k k0); simpl; [reflexivity|]. now rewrite IH.
Qed.

Lemma get_None_keys {A} k (o : JsObject.props A) :
  JsObject.get k o = None -> ~ In k (map fst o).
Proof. intros H Hin. apply get_In_key in Hin as [v Hv]. congruence. Qed.

Lemma define_keys_NoDup {A} k (v : A) o :
  NoDup (map fst o) -> NoDup (map fst (JsObject.define k v o)).
Proof.
  intros Ho. unfold JsObject.define. destruct (JsObject.has_key k o) eqn:Hk.
  - now rewrite keys_replace.
  - apply has_key_get, get_None_keys in Hk.
    assert (Hcons : NoDup (map fst ((k, v) :: o))).
    { simpl. apply NoDup_cons. split; [now rewrite list_elem_of_In|assumption]. }
    destruct (JsObject.array_index k) as [n|].
    + now rewrite insert_index_Permutation.
    + now rewrite <- Permutation_cons_append.
Qed.

Lemma set_keys_NoDup {A} k (v : A) o :
  NoDup (map fst o) -> NoDup (map fst (JsObject.set k v o)).
Proof.
  unfold JsObject.set. destruct (String.eqb k "__proto__"); [auto|apply define_keys_NoDup].
Qed.

Lemma keys_NoDup_unique {A} k (v v' : A) (o : JsObject.props A) :
  NoDup (map fst o) -> In (k, v) o -> In (k, v') o -> v = v'.
Proof.
  induction o as [|[k0 v0] o IH]; simpl; [tauto|]. intros Ho.
  apply NoDup_cons in Ho as [Hk Ho]. rewrite list_elem_of_In in Hk.
  intros [H|H] [H'|H'].
  - congruence.
  - inversion H; subst. exfalso. apply Hk. apply in_map_iff. exists (k, v'). now split.
  - inversion H'; subst. exfalso. apply Hk. apply in_map_iff. exists (k, v). now split.
  - now apply IH.
Qed.

Lemma picked_assign l : forall d o, fst (picked l d o) = assign (key_seq l d) o.
Proof.
  induction l as [|[i s] l IH]; intros d o; simpl; [reflexivity|].
  destruct (falsy (Sub.queue s)); simpl; apply IH.
Qed.

Lemma assign_keys_NoDup ks : forall o, NoDup (map fst o) -> NoDup (map fst (assign ks o)).
Proof.
  induction ks as [|[k i] ks IH]; intros o Ho; simpl; [assumption|].
  apply IH. now apply set_keys_NoDup.
Qed.

Lemma assign_In ks : forall o p, In p (assign ks o) -> In p ks \/ In p o.
Proof.
  induction ks as [|[k i] ks IH]; intros o p; simpl; [tauto|].
  intros H. apply IH in H as [H|H]; [tauto|]. apply In_set in H. simpl in H. intuition.
Qed.

(** The last assignment to a key decides. *)
Lemma assign_get k ks : forall o,
  k <> "__proto__"%string ->
  JsObject.get k (assign ks o)
  = match JsObject.get k (rev ks) with
    | Some i => Some i
    | None => JsObject.get k o
    end.
Proof.
  induction ks as [|[k0 i0] ks IH]; intros o Hk; simpl; [reflexivity|].
  rewrite IH by assumption. rewrite get_set by assumption. simpl.
  assert (Happ : forall l, JsObject.get k (l ++ [(k0, i0)])
                           = match JsObject.get k l with
                             | Some i => Some i
                             | None => if String.eqb k k0 then Some i0 else None
                             end).
  { induction l as [|[k1 i1] l IHl]; simpl; [reflexivity|].
    destruct (String.eqb k k1); [reflexivity|apply IHl]. }
  rewrite Happ. destruct (JsObject.get k (rev ks)); [reflexivity|].
  now destruct (String.eqb k k0).
Qed.

Lemma key_seq_In l : forall d k i,
  In (k, i) (key_seq l d) ->
  exists s, In (i, s) l
            /\ if falsy (Sub.queue s) then In k (drawn_keys l d) else Sub.queue s = Some k.
Proof.
  induction l as [|[i0 s0] l IH]; intros d k i; simpl; [tauto|].
  destruct (falsy (Sub.queue s0)) eqn:Hf; simpl.
  - intros [H|H].
    + inversion H; subst. exists s0. rewrite Hf. split; [now left|now left].
    + apply IH in H as [s [Hs Hk]]. exists s. split; [now right|].
      destruct (falsy (Sub.queue s)); [now right|assumption].
  - intros [H|H].
    + inversion H; subst. exists s0. rewrite Hf. split; [now left|].
      unfold falsy in Hf. now destruct (Sub.queue s0).
    + apply IH in H as [s [Hs Hk]]. exists s. split; [now right|assumption].
Qed.

Lemma key_seq_covers l : forall d i s,
  In (i, s) l ->
  exists k, In (k, i) (key_seq l d)
            /\ if falsy (Sub.queue s) then In k (drawn_keys l d) else Sub.queue s = Some k.
Proof.
  induction l as [|[i0 s0] l IH]; intros d i s; simpl; [tauto|].
  intros [H|H].
  - inversion H; subst. destruct (falsy (Sub.queue s)) eqn:Hf.
    + exists (uuid_v4 d). split; now left.
    + exists (default EmptyString (Sub.queue s)). split; [now left|].
      unfold falsy in Hf. now destruct (Sub.queue s).
  - destruct (falsy (Sub.queue s0)).
    + destruct (IH (S d) i s H) as [k [Hk Hq]]. exists k. split; [now right|].
      destruct (falsy (Sub.queue s)); [now right|assumption].
    + destruct (IH d i s H) as [k [Hk Hq]]. exists k. split; [now right|assumption].
Qed.

Lemma matching_unique subject l i s s' :
  In (i, s) (matching subject l) -> In (i, s') (matching subject l) -> s = s'.
Proof. rewrite !matching_In. intros [H _] [H' _]. congruence. Qed.

Lemma fresh_draws_spec l d k :
  fresh_draws l d = true -> In k (drawn_keys l d) ->
  k <> "__proto__"%string /\ count_occ string_dec (map fst (key_seq l d)) k = 1.
Proof.
  unfold fresh_draws. rewrite forallb_forall. intros H Hk. specialize (H k Hk).
  apply andb_prop in H as [Hp Hc]. split; [|now apply Nat.eqb_eq].
  apply negb_true_iff in Hp. now apply String.eqb_neq.
Qed.

Lemma count_occ_rev (l : list string) k :
  count_occ string_dec (rev l) k = count_occ string_dec l k.
Proof.
  induction l as [|x l IH]; simpl; [reflexivity|].
  rewrite count_occ_app, IH. simpl. destruct (string_dec x k); lia.
Qed.

(** Where no identifier drawn is [__proto__] or clashes with another key,
    every matching record without a queue group is selected, and of the
    matching records of a queue group, [__proto__] apart, exactly one. *)
Lemma one_per_group_and_all_ungrouped subject w :
  fresh_draws (matching subject (subs w)) (drawn (rt w)) = true ->
  (forall i s,
     subs w !! i = Some s -> matchSubject subject (Sub.subject s) = true ->
     falsy (Sub.queue s) = true -> In i (selected subject w))
  /\ (forall q,
        q <> EmptyString -> q <> "__proto__"%string ->
        (exists i s, subs w !! i = Some s /\ matchSubject subject (Sub.subject s) = true
                     /\ Sub.queue s = Some q) ->
        exists i,
          (In i (selected subject w) /\ exists s, subs w !! i = Some s /\ Sub.queue s = Some q)
          /\ forall i', In i' (selected subject w) ->
               (exists s', subs w !! i' = Some s' /\ Sub.queue s' = Some q) -> i' = i).
Proof.
  intros Hfresh. unfold selected. rewrite picked_assign.
  set (m := matching subject (subs w)) in *. set (d := drawn (rt w)) in *.
  set (ks := key_seq m d).
  assert (Hnd : NoDup (map fst (assign ks []))) by (apply assign_keys_NoDup; constructor).
  assert (Hget : forall k i, k <> "__proto__"%string -> JsObject.get k (rev ks) = Some i ->
                             In i (JsObject.values (assign ks [])) /\ In (k, i) (assign ks [])).
  { intros k i Hk Hg. pose proof (assign_get k ks [] Hk) as E. rewrite Hg in E.
    apply get_In in E. split; [|assumption].
    unfold JsObject.values. apply in_map_iff. exists (k, i). now split. }
  split.
  - intros i s Hi Hm Hf.
    assert (Him : In (i, s) m) by (apply matching_In; now split).
    destruct (key_seq_covers m d i s Him) as [k [Hk Hq]]. rewrite Hf in Hq.
    destruct (fresh_draws_spec m d k Hfresh Hq) as [Hp Hc].
    apply (Hget k i Hp). apply get_unique.
    + now apply in_rev in Hk.
    + rewrite map_rev, count_occ_rev. exact Hc.
  - intros q Hq Hp [i0 [s0 [Hi0 [Hm0 Hq0]]]].
    assert (Hnf : forall s, Sub.queue s = Some q -> falsy (Sub.queue s) = false).
    { intros s Hs. unfold falsy. rewrite Hs. now apply String.eqb_neq. }
    assert (Him0 : In (i0, s0) m) by (apply matching_In; now split).
    destruct (key_seq_covers m d i0 s0 Him0) as [k0 [Hk0 Hq0']].
    rewrite (Hnf s0 Hq0), Hq0 in Hq0'. inversion Hq0'; subst k0. clear Hq0'.
    destruct (get_In_key q (rev ks)) as [i1 Hg].
    { apply in_map_iff. exists (q, i0). split; [reflexivity|now apply in_rev in Hk0]. }
    destruct (Hget q i1 Hp Hg) as [Hsel Hin1].
    assert (Hks1 : In (q, i1) ks) by (apply get_In in Hg; now apply in_rev).
    destruct (key_seq_In m d q i1 Hks1) as [s1 [Hm1 Hq1]].
    assert (Hgroup : Sub.queue s1 = Some q).
    { destruct (falsy (Sub.queue s1)) eqn:Hf1; [|assumption]. exfalso.
      destruct (fresh_draws_spec m d q Hfresh Hq1) as [_ Hc].
      assert (E : JsObject.get q ks = Some i0) by (now apply get_unique).
      assert (E' : JsObject.get q ks = Some i1) by (now apply get_unique).
      rewrite E in E'. inversion E'; subst i1.
      rewrite (matching_unique subject (subs w) i0 s0 s1 Him0 Hm1) in Hq0.
      rewrite (Hnf s1 Hq0) in Hf1. discriminate. }
    exists i1. split.
    + split; [assumption|]. exists s1. split; [|assumption]. now apply matching_In in Hm1.
    + intros i' Hsel' [s' [Hi' Hq']].
      apply in_map_iff in Hsel' as [[k' j] [Hj Hin']]. simpl in Hj. subst j.
      destruct (assign_In ks [] (k', i') Hin') as [Hks'|[]].
      destruct (key_seq_In m d k' i' Hks') as [s'' [Hm'' Hq'']].
      apply matching_In in Hm'' as [Hi'' _]. rewrite Hi' in Hi''. inversion Hi''; subst s''.
      rewrite (Hnf s' Hq'), Hq' in Hq''. inversion Hq''; subst k'.
      now apply (keys_NoDup_unique q i' i1 (assign ks [])).
Qed.

(** ** The order of the selection *)

Lemma assign_appends ks : forall o,
  NoDup (map fst (o ++ ks)) ->
  Forall (fun p => fst p <> "__proto__"%string /\ JsObject.array_index (fst p) = None) ks ->
  assign ks o = o ++ ks.
Proof.
  induction ks as [|[k i] ks IH]; intros o Hnd Hks; simpl; [now rewrite app_nil_r|].
  apply Forall_cons in Hks as [[Hp Ha] Hks]. simpl in Hp, Ha.
  assert (Hnew : JsObject.get k o = None).
  { destruct (JsObject.get k o) as [v|] eqn:Hg; [|reflexivity]. exfalso.
    apply get_In in Hg. rewrite map_app in Hnd. apply NoDup_app in Hnd as [_ [Hd _]].
    apply (Hd k).
    - apply list_elem_of_In, in_map_iff. exists (k, v). now split.
    - apply list_elem_of_In. now left. }
  assert (Hset : JsObject.set k i o = o ++ [(k, i)]).
  { unfold JsObject.set, JsObject.define.
    destruct (String.eqb_spec k "__proto__"); [congruence|].
    apply has_key_get in Hnew. now rewrite Hnew, Ha. }
  rewrite Hset, IH; [now rewrite <- app_assoc| |assumption].
  now rewrite <- app_assoc.
Qed.

Lemma key_seq_ungrouped l : forall d,
  forallb (fun p => falsy (Sub.queue (snd p))) l = true ->
  map fst (key_seq l d) = drawn_keys l d /\ map snd (key_seq l d) = map fst l.
Proof.
  induction l as [|[i s] l IH]; intros d H; simpl in *; [now split|].
  apply andb_prop in H as [Hs Hl]. rewrite Hs. simpl.
  destruct (IH (S d) Hl) as [-> ->]. now split.
Qed.

Lemma key_seq_positions l : forall d, map snd (key_seq l d) = map fst l.
Proof.
  induction l as [|[i s] l IH]; intros d; simpl; [reflexivity|].
  destruct (falsy (Sub.queue s)); simpl; now rewrite IH.
Qed.

(** Where the keys are pairwise distinct, and none is [__proto__] or an
    array index, every assignment adds a property at the end. *)
Lemma distinct_keys_selection subject w :
  NoDup (keys_assigned subject w) ->
  Forall (fun k => k <> "__proto__"%string /\ JsObject.array_index k = None)
         (keys_assigned subject w) ->
  selected subject w = map fst (matching subject (subs w))
  /\ StronglySorted lt (selected subject w).
Proof.
  unfold keys_assigned. intros Hnd Hk.
  assert (E : selected subject w = map fst (matching subject (subs w))).
  { unfold selected. rewrite picked_assign, assign_appends.
    - simpl. unfold JsObject.values. apply key_seq_positions.
    - exact Hnd.
    - apply Forall_forall. intros [k i] Hin. simpl.
      rewrite Forall_forall in Hk. apply Hk.
      apply list_elem_of_In, in_map_iff. exists (k, i). split; [reflexivity|].
      now apply list_elem_of_In. }
  split; [exact E|]. rewrite E. apply matching_sorted.
Qed.

(** Without queue groups the property list grows by one key at each
    matching record. *)
Lemma ungrouped_selection subject w :
  let m := matching subject (subs w) in
  forallb (fun p => falsy (Sub.queue (snd p))) m = true ->
  NoDup (drawn_keys m (drawn (rt w))) ->
  Forall (fun k => k <> "__proto__"%string /\ JsObject.array_index k = None)
         (drawn_keys m (drawn (rt w))) ->
  selected subject w = map fst m /\ StronglySorted lt (selected subject w).
Proof.
  intros m Hm Hnd Hk.
  destruct (key_seq_ungrouped m (drawn (rt w)) Hm) as [Hkeys Hvals].
  assert (E : selected subject w = map fst m).
  { unfold selected. fold m. rewrite picked_assign, assign_appends.
    - simpl. exact Hvals.
    - simpl. now rewrite Hkeys.
    - apply Forall_forall. intros [k i] Hin. simpl.
      rewrite Forall_forall in Hk. apply Hk. rewrite <- Hkeys.
      apply list_elem_of_In, in_map_iff. exists (k, i). split; [reflexivity|].
      now apply list_elem_of_In. }
  split; [exact E|]. rewrite E. apply matching_sorted.
Qed.

(** X22.  Where no matching record has a queue group, and the identifiers
    drawn are distinct and look like no array index, the records are
    selected, and so served, in the order of the registry. *)
Lemma selection_without_groups subject w :
  let m := matching subject (subs w) in
  forallb (fun p => falsy (Sub.queue (snd p))) m = true ->
  NoDup (drawn_keys m (drawn (rt w))) ->
  Forall (fun k => k <> "__proto__"%string /\ JsObject.array_index k = None)
         (drawn_keys m (drawn (rt w))) ->
  selected subject w = map fst m /\ StronglySorted lt (selected subject w).
Proof. intros m. apply ungrouped_selection. Qed.

(** C3, as amended.  When the payload survives the round trip and every
    selected handler returns, [publish] returns, and by then it has gone
    through the selected records in the order in which
    [_findSubscribesBySubject] lists them, the order of [Object.values] of
    its queue map: each handler has been called once with the decoded
    payload, the reply subject and the subject, in that order, and the
    [received] count of a record has grown by one if it was selected and
    not at all otherwise.  The count is raised before the call: a handler
    that throws leaves it raised.  The order is that of the registry when
    no matching record has a queue group, the identifiers drawn for the
    records being distinct and neither [__proto__] nor an array index, as
    uuids are; and more generally when the keys of the queue map, queue
    groups and identifiers together, are pairwise distinct and none is
    [__proto__] or an array index.  Where two matching records share a
    queue group, or a key is an array index, it need not be.  [selected]
    is the list [_findSubscribesBySubject] returns. *)
Theorem publish_delivers_in_selection_order subject message replyTo w payload delivery :
  encode (useJson w) message = inr payload ->
  decode (useJson w) (preserveBuffers w) payload = inr delivery ->
  forallb (returns_at [delivery; replyTo; VStr subject] (subs w)) (selected subject w) = true ->
  (exists w',
     publish subject message replyTo w = (inr tt, w')
     /\ log (rt w') = log (rt w)
                      ++ flat_map (handler_call delivery replyTo subject (subs w))
                                  (selected subject w)
     /\ forall j s, subs w !! j = Some s ->
          exists s', subs w' !! j = Some s'
                     /\ Sub.received s' =
                        (Sub.received s + if bool_decide (j ∈ selected subject w) then 1 else 0)%Z)
  /\ (forall i s f w0,
        subs w0 !! i = Some s -> Sub.cb s = Some f ->
        raises f [delivery; replyTo; VStr subject] = true ->
        exists w1 s1,
          deliver delivery replyTo subject i w0 = (inl (Raised f), w1)
          /\ subs w1 !! i = Some s1
          /\ Sub.received s1 = (Sub.received s + 1)%Z
          /\ log (rt w1) = log (rt w0) ++ [Called f [delivery; replyTo; VStr subject]])
  /\ (forallb (fun p => falsy (Sub.queue (snd p))) (matching subject (subs w)) = true ->
      NoDup (drawn_keys (matching subject (subs w)) (drawn (rt w))) ->
      Forall (fun k => k <> "__proto__"%string /\ JsObject.array_index k = None)
             (drawn_keys (matching subject (subs w)) (drawn (rt w))) ->
      selected subject w = map fst (matching subject (subs w))
      /\ StronglySorted lt (selected subject w))
  /\ (NoDup (keys_assigned subject w) ->
      Forall (fun k => k <> "__proto__"%string /\ JsObject.array_index k = None)
             (keys_assigned subject w) ->
      selected subject w = map fst (matching subject (subs w))
      /\ StronglySorted lt (selected subject w))
  /\ fst (_findSubscribesBySubject subject w) = inr (selected subject w).
Proof.
  intros He Hd Hr.
  split; [|split; [|split; [|split; [apply distinct_keys_selection
                                     |now rewrite select_selected]]]].
  - eexists. split; [now apply (publish_returns _ _ _ _ payload delivery)|].
    split; [now rewrite deliveries_log|].
    intros j s Hj.
    destruct (deliveries_received delivery replyTo subject (selected subject w)
                (with_rt (with_drawn (drawn_after subject w) (rt w)) w) j s Hj)
      as [s' [Hs' R]].
    exists s'. split; [assumption|].
    rewrite R, (count_occ_NoDup _ _ (selected_NoDup subject w)).
    now case_bool_decide.
  - intros i s f w0 Hi Hf Hraise.
    destruct (delivered_received delivery replyTo subject w0 i i s Hi) as [s1 [H1 R1]].
    rewrite Nat.eqb_refl in R1.
    exists (delivered delivery replyTo subject w0 i), s1.
    split; [now apply (deliver_raises _ _ _ _ _ s)|]. split; [assumption|]. split; [assumption|].
    rewrite delivered_log. unfold handler_call. now rewrite Hi, Hf.
  - apply ungrouped_selection.
Qed.

(** * More of the class *)

(** ** What the calls leave of the log and of the clock *)

Lemma publish_log_grows subject message replyTo w :
  exists more, log (rt (snd (publish subject message replyTo w))) = log (rt w) ++ more.
Proof.
  apply (publish_keeps (fun w' => exists more, log (rt w') = log (rt w) ++ more)).
  - intros d r subj w' k [more E]. rewrite delivered_log, E, <- app_assoc. eauto.
  - intros n w' H. exact H.
  - exists []. now rewrite app_nil_r.
Qed.

Lemma requestOne_state subject message opts callback w :
  snd (requestOne subject message opts callback w)
  = if is_function message then with_rt (with_drawn (S (drawn (rt w))) (rt w)) w
    else snd (publish subject message (VStr (uuid_v4 (drawn (rt w))))
                (with_rt (with_drawn (S (drawn (rt w))) (rt w)) w)).
Proof.
  unfold requestOne. unfold bind at 1. simpl.
  destruct (is_function message); simpl; [reflexivity|].
  unfold bind at 1. simpl.
  destruct (is_function opts); unfold bind;
    destruct (publish _ _ _ _) as [[e|[]] w']; reflexivity.
Qed.

Lemma perform_log_grows a w :
  exists more, log (rt (perform a w)) = log (rt w) ++ more.
Proof.
  assert (Hsame : forall w', log (rt w') = log (rt w) -> exists more, log (rt w') = log (rt w) ++ more).
  { intros w' E. exists []. now rewrite app_nil_r. }
  destruct a as [| |subject opts cb|subject message replyTo|subject message opts callback
                |sid|sid ms expected cb|dt]; simpl.
  - now apply Hsame.
  - now apply Hsame.
  - unfold subscribe, bind. simpl. destruct opts; now apply Hsame.
  - apply publish_log_grows.
  - rewrite requestOne_state. destruct (is_function message); [now apply Hsame|].
    apply (publish_log_grows subject message _
             (with_rt (with_drawn (S (drawn (rt w))) (rt w)) w)).
  - unfold unsubscribe, bind. simpl. destruct (find_sid sid (subs w)); now apply Hsame.
  - unfold timeout, _findSubscribeBySid, bind, gets, ret, update_sub, setTimeout, modify. simpl.
    destruct (find_sid sid (subs w)); now apply Hsame.
  - eexists. reflexivity.
Qed.

(** ** The registry *)

Lemma find_sid_None sid l :
  find_sid sid l = None <-> forall s, In s l -> Sub.sid s <> sid.
Proof.
  induction l as [|x l IH]; simpl.
  - split; [intros _ s []|reflexivity].
  - destruct (String.eqb_spec (Sub.sid x) sid) as [E|E].
    + split; [discriminate|]. intros H. exfalso. apply (H x); auto.
    + destruct (find_sid sid l) as [k|]; simpl.
      * split; [discriminate|]. intros H.
        assert (Hk : Some k = None) by (apply IH; intros s Hs; apply H; now right).
        discriminate.
      * split; [|reflexivity]. intros _ s [<-|Hs]; [assumption|]. now apply IH.
Qed.

Lemma find_sid_split sid l : forall k,
  find_sid sid l = Some k ->
  exists l1 s l2,
    l = l1 ++ s :: l2 /\ length l1 = k /\ Sub.sid s = sid
    /\ (forall s', In s' l1 -> Sub.sid s' <> sid)
    /\ delete k l = l1 ++ l2.
Proof.
  induction l as [|x l IH]; intros k; simpl; [discriminate|].
  destruct (String.eqb_spec (Sub.sid x) sid) as [E|E].
  - intros H. inversion H; subst k. exists [], x, l. repeat split; auto.
  - destruct (find_sid sid l) as [k'|]; simpl; [|discriminate].
    intros H. inversion H; subst k. clear H.
    destruct (IH k' eq_refl) as [l1 [s [l2 [El [Ek [Es [Hl1 Hd]]]]]]].
    exists (x :: l1), s, l2. simpl. rewrite Hd, Ek. repeat split; auto; [now rewrite El|].
    intros s' [<-|Hs']; auto.
Qed.

Lemma find_sid_first sid l1 s l2 :
  (forall s', In s' l1 -> Sub.sid s' <> sid) -> Sub.sid s = sid ->
  find_sid sid (l1 ++ s :: l2) = Some (length l1).
Proof.
  intros Hl1 Hs. induction l1 as [|x l1 IH]; simpl.
  - apply String.eqb_eq in Hs. now rewrite Hs.
  - destruct (String.eqb_spec (Sub.sid x) sid) as [E|E].
    + exfalso. apply (Hl1 x); [now left|assumption].
    + rewrite IH; [reflexivity|]. intros s' Hs'. apply Hl1. now right.
Qed.

Lemma delete_middle (l1 : list Sub.t) s l2 : delete (length l1) (l1 ++ s :: l2) = l1 ++ l2.
Proof. induction l1 as [|x l1 IH]; simpl; [reflexivity|]. now rewrite IH. Qed.

Lemma with_subs_same w : with_subs (subs w) w = w.
Proof. now destruct w. Qed.

(** X1.  [unsubscribe(sid)] always returns.  When no record of the
    registry has that sid it leaves the client as it is; otherwise it takes
    out one record, the first in registry order with that sid, and keeps
    the others, their order, and all the rest of the client: the timers
    too, so a timeout armed for the record stays pending. *)
Theorem unsubscribe_removes_the_first_match sid w :
  ((forall s, In s (subs w) -> Sub.sid s <> sid) /\ unsubscribe sid w = (inr tt, w))
  \/ exists l1 s l2,
       subs w = l1 ++ s :: l2
       /\ Sub.sid s = sid
       /\ (forall s', In s' l1 -> Sub.sid s' <> sid)
       /\ unsubscribe sid w = (inr tt, with_subs (l1 ++ l2) w).
Proof.
  unfold unsubscribe, _findSubscribeBySid, bind, gets, ret, modify. simpl.
  destruct (find_sid sid (subs w)) as [k|] eqn:Hf.
  - right. destruct (find_sid_split _ _ _ Hf) as [l1 [s [l2 [El [Ek [Es [Hl1 Hd]]]]]]].
    exists l1, s, l2. repeat split; auto. now rewrite Hd.
  - left. split; [now apply find_sid_None|reflexivity].
Qed.

(** X2.  [timeout] on a sid that no record has does nothing at all: it
    returns, arms no timer and keeps no trace of the callback, which is
    therefore never called. *)
Theorem timeout_on_unknown_sid_does_nothing sid ms n cb w :
  (forall s, In s (subs w) -> Sub.sid s <> sid) ->
  timeout sid ms n cb w = (inr tt, w).
Proof.
  intros H. apply find_sid_None in H.
  unfold timeout, _findSubscribeBySid, bind, gets, ret. simpl. now rewrite H.
Qed.

(** X3.  Where the identifier drawn is the sid of no record yet,
    [subscribe] followed by [unsubscribe] of the sid it returned leaves the
    registry, the timers and the log as they were: all that is left of the
    pair is the identifier drawn. *)
Theorem subscribe_then_unsubscribe_restores_registry subject opts cb w :
  (forall s, In s (subs w) -> Sub.sid s <> uuid_v4 (drawn (rt w))) ->
  exists sid w1,
    subscribe subject opts cb w = (inr sid, w1)
    /\ sid = uuid_v4 (drawn (rt w))
    /\ unsubscribe sid w1 = (inr tt, with_rt (with_drawn (S (drawn (rt w))) (rt w)) w).
Proof.
  intros Hnew.
  assert (Hgen : forall q c,
    unsubscribe (uuid_v4 (drawn (rt w)))
      (with_subs (subs w ++ [Sub.Make subject q c (uuid_v4 (drawn (rt w))) 0 None None])
         (with_rt (with_drawn (S (drawn (rt w))) (rt w)) w))
    = (inr tt, with_rt (with_drawn (S (drawn (rt w))) (rt w)) w)).
  { intros q c. unfold unsubscribe, _findSubscribeBySid, bind, gets, ret, modify. simpl.
    rewrite find_sid_first by (auto; reflexivity). simpl.
    rewrite delete_middle, app_nil_r. reflexivity. }
  unfold subscribe, bind. simpl.
  destruct opts; eexists; eexists; (split; [reflexivity|]); (split; [reflexivity|]); apply Hgen.
Qed.

(** *** Sids
    The sids of a registry built by [subscribe] are identifiers of the
    uuid library, each drawn at a different call. *)

Lemma picked_grows l : forall d o, d <= snd (picked l d o).
Proof.
  induction l as [|[i s] l IH]; intros d o; simpl; [lia|].
  destruct (falsy (Sub.queue s)); [specialize (IH (S d) (JsObject.set (uuid_v4 d) i o)); lia|].
  apply IH.
Qed.

Lemma publish_keeps_growing (P : Client -> Prop) subject message replyTo w :
  (forall d r subj w i, P w -> P (delivered d r subj w i)) ->
  (forall n w, drawn (rt w) <= n -> P w -> P (with_rt (with_drawn n (rt w)) w)) ->
  P w -> P (snd (publish subject message replyTo w)).
Proof.
  intros Hstep Hdrawn Hw. rewrite publish_unfold.
  destruct (encode (useJson w) message) as [e|payload]; [assumption|].
  destruct (decode (useJson w) (preserveBuffers w) payload) as [e|delivery]; [assumption|].
  apply forEach_deliver_keeps; [apply Hstep|]. apply Hdrawn; [|assumption].
  apply picked_grows.
Qed.

Lemma map_insert_same {B} (f : Sub.t -> B) (l : list Sub.t) i s s' :
  l !! i = Some s -> f s' = f s -> map f (<[i := s']> l) = map f l.
Proof.
  revert i. induction l as [|x l IH]; intros [|i] H E; simpl in *; try discriminate.
  - inversion H; subst. now rewrite E.
  - f_equal. now apply IH.
Qed.

Lemma map_delete {B} (f : Sub.t -> B) (l : list Sub.t) i :
  map f (delete i l) = delete i (map f l).
Proof.
  revert i. induction l as [|x l IH]; intros [|i]; simpl; try reflexivity. now rewrite IH.
Qed.

Lemma delete_map_inv {B} (f : nat -> B) (ks : list nat) i :
  delete i (map f ks) = map f (delete i ks).
Proof.
  revert i. induction ks as [|x ks IH]; intros [|i]; simpl; try reflexivity. now rewrite IH.
Qed.

Lemma In_delete_nat (l : list nat) k y : In y (delete k l) -> In y l.
Proof.
  revert k. induction l as [|z l IH]; intros [|k]; simpl; try tauto.
  intros [H|H]; [now left|right; now apply (IH k)].
Qed.

Lemma sorted_delete (ks : list nat) i : StronglySorted lt ks -> StronglySorted lt (delete i ks).
Proof.
  revert i. induction ks as [|x ks IH]; intros [|i] H; simpl; try assumption.
  - now apply StronglySorted_inv in H.
  - apply StronglySorted_inv in H as [Hks Hx]. constructor; [now apply IH|].
    rewrite Forall_forall in *. intros y Hy. apply Hx.
    apply list_elem_of_In. apply list_elem_of_In in Hy. now apply In_delete_nat in Hy.
Qed.

Lemma sorted_snoc (ks : list nat) d :
  StronglySorted lt ks -> Forall (fun k => k < d) ks -> StronglySorted lt (ks ++ [d]).
Proof.
  induction 1 as [|x ks Hks IH Hx]; intros Hd; simpl.
  - constructor; constructor.
  - apply Forall_cons in Hd as [Hxd Hd]. constructor; [now apply IH|].
    apply Forall_app. split; [assumption|]. now constructor.
Qed.

Lemma delivered_sids d r subj w i :
  map Sub.sid (subs (delivered d r subj w i)) = map Sub.sid (subs w).
Proof.
  unfold delivered. destruct (subs w !! i) as [s|] eqn:Hi; [|reflexivity]. simpl.
  apply (map_insert_same Sub.sid _ _ s); [assumption|].
  unfold after_delivery. now destruct (reached (increment s)).
Qed.

Lemma sids_drawn_more w w' :
  map Sub.sid (subs w') = map Sub.sid (subs w) ->
  drawn (rt w) <= drawn (rt w') ->
  sids_drawn w -> sids_drawn w'.
Proof.
  intros Es Hd [ks [E [Hs Hb]]]. exists ks. rewrite Es. repeat split; try assumption.
  rewrite Forall_forall in *. intros k Hk. specialize (Hb k Hk). lia.
Qed.

Lemma publish_sids_drawn subject message replyTo w :
  sids_drawn w -> sids_drawn (snd (publish subject message replyTo w)).
Proof.
  apply (publish_keeps_growing sids_drawn).
  - intros d r subj w' i H. apply (sids_drawn_more w'); [apply delivered_sids| |assumption].
    unfold delivered. now destruct (subs w' !! i).
  - intros n w' Hn H. now apply (sids_drawn_more w').
Qed.

Lemma perform_sids_drawn a w : sids_drawn w -> sids_drawn (perform a w).
Proof.
  intros Hw.
  destruct a as [| |subject opts cb|subject message replyTo|subject message opts callback
                |sid|sid ms expected cb|dt]; simpl.
  - now apply (sids_drawn_more w).
  - exists []. repeat split; constructor.
  - destruct Hw as [ks [E [Hs Hb]]]. exists (ks ++ [drawn (rt w)]).
    unfold subscribe, bind. simpl.
    destruct opts; simpl; rewrite !map_app, E; simpl;
      (repeat split; [now apply sorted_snoc|]);
      (apply Forall_app; split; [|constructor; [lia|constructor]]);
      rewrite Forall_forall in *; intros k Hk; specialize (Hb k Hk); lia.
  - now apply publish_sids_drawn.
  - rewrite requestOne_state.
    assert (H1 : sids_drawn (with_rt (with_drawn (S (drawn (rt w))) (rt w)) w))
      by (apply (sids_drawn_more w); simpl; auto).
    destruct (is_function message); [exact H1|]. now apply publish_sids_drawn.
  - unfold unsubscribe, bind. simpl. destruct (find_sid sid (subs w)) as [k|]; [|exact Hw].
    destruct Hw as [ks [E [Hs Hb]]]. exists (delete k ks). simpl.
    rewrite map_delete, E, delete_map_inv. repeat split; [now apply sorted_delete|].
    rewrite Forall_forall in *. intros x Hx. apply Hb.
    apply list_elem_of_In. apply list_elem_of_In in Hx. now apply In_delete_nat in Hx.
  - unfold timeout, _findSubscribeBySid, bind, gets, ret, update_sub, setTimeout, modify. simpl.
    destruct (find_sid sid (subs w)) as [k|] eqn:Hf; [|exact Hw].
    destruct (find_sid_lookup _ _ _ Hf) as [sk [Hk _]].
    apply (sids_drawn_more w); simpl; [|lia|assumption].
    rewrite (alter_lookup (set_expected expected) k _ sk Hk).
    rewrite (alter_lookup (set_timeout (Some (handles (rt w)))) k _ (set_expected expected sk))
      by (apply list_lookup_insert_eq; now apply lookup_lt_Some in Hk).
    rewrite list_insert_insert_eq. now apply (map_insert_same Sub.sid _ _ sk).
  - now apply (sids_drawn_more w).
Qed.

Lemma run_sids_drawn script : forall w, sids_drawn w -> sids_drawn (run script w).
Proof.
  induction script as [|a script IH]; intros w H; simpl; [assumption|].
  apply IH. now apply perform_sids_drawn.
Qed.

Lemma distinct_spec l :
  distinct l = true ->
  forall i j x, l !! i = Some x -> l !! j = Some x -> i = j.
Proof.
  induction l as [|y l IH]; simpl; intros H i j x Hi Hj; [discriminate|].
  apply andb_prop in H as [Hy Hl]. apply negb_true_iff in Hy.
  assert (Hout : forall k, l !! k = Some y -> False).
  { intros k Hk. assert (Hex : existsb (String.eqb y) l = true).
    { apply existsb_exists. exists y. split; [|apply String.eqb_refl].
      apply list_elem_of_In, list_elem_of_lookup. eauto. }
    congruence. }
  destruct i as [|i], j as [|j]; simpl in *; try reflexivity.
  - inversion Hi; subst. exfalso. eauto.
  - inversion Hj; subst. exfalso. eauto.
  - f_equal. eauto.
Qed.

Lemma distinct_NoDup l : distinct l = true -> NoDup l.
Proof.
  induction l as [|x l IH]; simpl; intros H; [constructor|].
  apply andb_prop in H as [Hx Hl]. apply NoDup_cons. split; [|now apply IH].
  rewrite list_elem_of_In. intros Hin. apply negb_true_iff in Hx.
  assert (Hex : existsb (String.eqb x) l = true)
    by (apply existsb_exists; exists x; split; [assumption|apply String.eqb_refl]).
  congruence.
Qed.

Lemma lookup_map_seq (f : nat -> string) d k : k < d -> map f (seq 0 d) !! k = Some (f k).
Proof.
  intros Hk. change (map f (seq 0 d)) with (f <$> seq 0 d).
  rewrite list_lookup_fmap, lookup_seq_lt by assumption. reflexivity.
Qed.

(** X4.  Whatever a test does with a new client, the sids of its registry
    are pairwise different as long as the identifiers the uuid library
    handed out are: no call copies a sid or writes one that was not drawn
    for it. *)
Theorem sids_are_distinct json preserve r script :
  distinct (map uuid_v4 (seq 0 (drawn (rt (run script (constructor json preserve r)))))) = true ->
  NoDup (map Sub.sid (subs (run script (constructor json preserve r)))).
Proof.
  intros Hd.
  assert (H0 : sids_drawn (constructor json preserve r)) by (exists []; repeat split; constructor).
  apply (run_sids_drawn script) in H0.
  set (w := run script (constructor json preserve r)) in *.
  destruct H0 as [ks [E [Hs Hb]]]. rewrite E. clear E.
  pose proof (distinct_spec _ Hd) as Hinj.
  induction Hs as [|k ks Hks IH Hk]; simpl; [constructor|].
  apply Forall_cons in Hb as [Hkd Hb].
  apply NoDup_cons. split; [|now apply IH].
  rewrite list_elem_of_In, in_map_iff. intros [k' [Ek Hk']].
  rewrite Forall_forall in Hk, Hb.
  apply list_elem_of_In in Hk'. pose proof (Hk _ Hk') as Hlt. pose proof (Hb _ Hk') as Hlt'.
  assert (k' = k); [|lia].
  apply (Hinj k' k (uuid_v4 k)); [rewrite lookup_map_seq by assumption; now rewrite Ek|].
  now apply lookup_map_seq.
Qed.

(** X5.  In a registry whose sids are pairwise different, [unsubscribe]
    leaves no record with the sid it was given: a later [publish] cannot
    select the subscription, and a later [timeout] or [unsubscribe] on the
    sid does nothing. *)
Theorem unsubscribed_sid_is_gone sid w :
  NoDup (map Sub.sid (subs w)) ->
  (forall s, In s (subs (snd (unsubscribe sid w))) -> Sub.sid s <> sid)
  /\ (forall ms n cb,
        timeout sid ms n cb (snd (unsubscribe sid w)) = (inr tt, snd (unsubscribe sid w)))
  /\ unsubscribe sid (snd (unsubscribe sid w)) = (inr tt, snd (unsubscribe sid w)).
Proof.
  intros Hnd.
  assert (Hgone : forall s, In s (subs (snd (unsubscribe sid w))) -> Sub.sid s <> sid).
  { unfold unsubscribe, _findSubscribeBySid, bind, gets, ret, modify. simpl.
    destruct (find_sid sid (subs w)) as [k|] eqn:Hf; [|now apply find_sid_None].
    destruct (find_sid_split _ _ _ Hf) as [l1 [s [l2 [El [Ek [Es [Hl1 Hdel]]]]]]].
    simpl. rewrite Hdel. intros s' Hs'. apply in_app_iff in Hs' as [Hs'|Hs']; [now apply Hl1|].
    rewrite El, map_app in Hnd. apply NoDup_app in Hnd as [_ [_ Hnd]]. simpl in Hnd.
    apply NoDup_cons in Hnd as [Hnd _]. intros Ec. apply Hnd.
    apply list_elem_of_In, in_map_iff. exists s'. split; [congruence|assumption]. }
  split; [exact Hgone|]. apply find_sid_None in Hgone. split.
  - intros ms n cb. unfold timeout, _findSubscribeBySid, bind, gets, ret. simpl. now rewrite Hgone.
  - unfold unsubscribe at 1 3, _findSubscribeBySid, bind, gets, ret. simpl. now rewrite Hgone.
Qed.

(** ** What [publish] touches *)

Lemma forEach_deliver_prefix d r subj l : forall w,
  exists l1 l2,
    l = l1 ++ l2
    /\ snd (forEach (deliver d r subj) l w) = fold_left (delivered d r subj) l1 w.
Proof.
  induction l as [|i l IH]; intros w; simpl.
  - exists [], []. now split.
  - unfold bind. pose proof (deliver_state d r subj i w) as Hs.
    destruct (deliver d r subj i w) as [[e|[]] w']; simpl in *; subst w'.
    + exists [i], l. now split.
    + destruct (IH (delivered d r subj w i)) as [l1 [l2 [El Ew]]].
      exists (i :: l1), l2. simpl. split; [now rewrite El|exact Ew].
Qed.

(** Each record is delivered to once at most, so the record a delivery
    finds is the one [publish] started from. *)
Lemma deliveries_subs d r subj l : forall w,
  NoDup l ->
  forall j,
    subs (fold_left (delivered d r subj) l w) !! j
    = (fun s => if bool_decide (j ∈ l) then after_delivery s else s) <$> subs w !! j.
Proof.
  induction l as [|i l IH]; intros w Hnd j; simpl.
  - destruct (subs w !! j); reflexivity.
  - apply NoDup_cons in Hnd as [Hi Hnd]. rewrite IH by assumption.
    unfold delivered. destruct (subs w !! i) as [si|] eqn:Ei; simpl.
    + destruct (decide (j = i)) as [->|Hne].
      * rewrite list_lookup_insert_eq by (now apply lookup_lt_Some in Ei). rewrite Ei. simpl.
        rewrite (bool_decide_eq_false_2 _ Hi).
        rewrite bool_decide_eq_true_2 by (now left). reflexivity.
      * rewrite list_lookup_insert_ne by congruence.
        destruct (subs w !! j) as [sj|]; simpl; [|reflexivity].
        f_equal. apply (f_equal (fun b : bool => if b then after_delivery sj else sj)).
        apply bool_decide_ext. rewrite elem_of_cons. intuition congruence.
    + destruct (subs w !! j) as [sj|] eqn:Ej; simpl; [|reflexivity].
      f_equal. apply (f_equal (fun b : bool => if b then after_delivery sj else sj)).
      apply bool_decide_ext. rewrite elem_of_cons. intuition congruence.
Qed.

Lemma NoDup_prefix (l1 l2 : list nat) : NoDup (l1 ++ l2) -> NoDup l1.
Proof. intros H. now apply NoDup_app in H as [H _]. Qed.

(** X6.  Whether it returns or throws, [publish] has gone through a
    first part of the selection and through nothing else: a record of
    that part has had its count raised by one, and its timeout cleared if
    the count reached what was expected; every other record of the
    registry, matching or not, is exactly as it was.  No record is added,
    removed or moved. *)
Theorem publish_touches_selected_records_only subject message replyTo w :
  exists l1 l2,
    selected subject w = l1 ++ l2
    /\ forall j,
         subs (snd (publish subject message replyTo w)) !! j
         = (fun s => if bool_decide (j ∈ l1) then after_delivery s else s) <$> subs w !! j.
Proof.
  rewrite publish_unfold.
  assert (Hnone : exists l1 l2 : list nat,
             selected subject w = l1 ++ l2
             /\ forall j, subs w !! j
                          = (fun s => if bool_decide (j ∈ l1) then after_delivery s else s)
                              <$> subs w !! j).
  { exists [], (selected subject w). split; [reflexivity|].
    intros j. destruct (subs w !! j); reflexivity. }
  destruct (encode (useJson w) message) as [e|payload]; [exact Hnone|].
  destruct (decode (useJson w) (preserveBuffers w) payload) as [e|delivery]; [exact Hnone|].
  destruct (forEach_deliver_prefix delivery replyTo subject (selected subject w)
              (with_rt (with_drawn (drawn_after subject w) (rt w)) w)) as [l1 [l2 [El Ew]]].
  exists l1, l2. split; [exact El|]. intros j. rewrite Ew.
  rewrite deliveries_subs; [reflexivity|].
  apply (NoDup_prefix l1 l2). rewrite <- El. apply selected_NoDup.
Qed.

Lemma delivered_identity d r subj w i :
  map identity (subs (delivered d r subj w i)) = map identity (subs w)
  /\ map Sub.expected (subs (delivered d r subj w i)) = map Sub.expected (subs w).
Proof.
  unfold delivered. destruct (subs w !! i) as [s|] eqn:Hi; [|now split]. simpl.
  split; apply (map_insert_same _ _ _ s); try assumption;
    unfold after_delivery; now destruct (reached (increment s)).
Qed.

(** X7.  Of a client, [publish] changes the counts and timeouts of
    records, the pending timers, of which it can only cancel some, and the
    number of identifiers drawn, which can only grow.  It never changes
    the subject, queue group, callback, sid or expected count of a record,
    nor the two options, the [connected] flag, the clock, the [nextTick]
    queue or the next timer handle; and what it logs comes after what was
    logged before. *)
Theorem publish_changes_counts_and_timers_only subject message replyTo w :
  let w' := snd (publish subject message replyTo w) in
  map identity (subs w') = map identity (subs w)
  /\ map Sub.expected (subs w') = map Sub.expected (subs w)
  /\ useJson w' = useJson w
  /\ preserveBuffers w' = preserveBuffers w
  /\ connected w' = connected w
  /\ now (rt w') = now (rt w)
  /\ ticks (rt w') = ticks (rt w)
  /\ handles (rt w') = handles (rt w)
  /\ (forall t, In t (timers (rt w')) -> In t (timers (rt w)))
  /\ drawn (rt w) <= drawn (rt w')
  /\ exists more, log (rt w') = log (rt w) ++ more.
Proof.
  simpl.
  apply (publish_keeps_growing
           (fun w' => map identity (subs w') = map identity (subs w)
                      /\ map Sub.expected (subs w') = map Sub.expected (subs w)
                      /\ useJson w' = useJson w
                      /\ preserveBuffers w' = preserveBuffers w
                      /\ connected w' = connected w
                      /\ now (rt w') = now (rt w)
                      /\ ticks (rt w') = ticks (rt w)
                      /\ handles (rt w') = handles (rt w)
                      /\ (forall t, In t (timers (rt w')) -> In t (timers (rt w)))
                      /\ drawn (rt w) <= drawn (rt w')
                      /\ exists more, log (rt w') = log (rt w) ++ more)).
  - intros d r subj w' i [H1 [H2 [H3 [H4 [H5 [H6 [H7 [H8 [H9 [H10 [more H11]]]]]]]]]]].
    destruct (delivered_identity d r subj w' i) as [E1 E2]. rewrite E1, E2.
    rewrite delivered_log, H11, <- app_assoc.
    unfold delivered. destruct (subs w' !! i) as [s|]; simpl;
      repeat split; eauto.
    intros t Ht. apply H9. now apply cancel_In in Ht.
  - intros n w' Hn [H1 [H2 [H3 [H4 [H5 [H6 [H7 [H8 [H9 [H10 H11]]]]]]]]]].
    simpl. repeat split; auto. lia.
  - repeat split; auto. exists []. now rewrite app_nil_r.
Qed.

Lemma matching_nil subject l :
  (forall s, In s l -> matchSubject subject (Sub.subject s) = false) ->
  matching subject l = [].
Proof.
  intros H. destruct (matching subject l) as [|[i s] m] eqn:E; [reflexivity|].
  assert (Hin : In (i, s) (matching subject l)) by (rewrite E; now left).
  apply matching_In in Hin as [Hi Hm].
  rewrite H in Hm; [discriminate|]. apply list_elem_of_In, list_elem_of_lookup. eauto.
Qed.

(** X8.  A [publish] of a message that survives the round trip, on a
    subject that no subscription matches, returns and leaves the client
    exactly as it was: no handler is called, no count moves and no
    identifier is drawn. *)
Theorem publish_without_a_match_changes_nothing subject message replyTo w delivery :
  round_trip (useJson w) (preserveBuffers w) message = inr delivery ->
  (forall s, In s (subs w) -> matchSubject subject (Sub.subject s) = false) ->
  publish subject message replyTo w = (inr tt, w).
Proof.
  unfold round_trip. intros Hrt Hnone. rewrite publish_unfold.
  destruct (encode (useJson w) message) as [e|payload]; [discriminate|]. rewrite Hrt.
  unfold selected, drawn_after. rewrite (matching_nil subject (subs w) Hnone). simpl.
  now rewrite with_drawn_same, with_rt_same.
Qed.

Lemma delivered_failure_at args d r subj w i j :
  failure_at args (subs (delivered d r subj w i)) j = failure_at args (subs w) j.
Proof.
  unfold failure_at. pose proof (delivered_cb d r subj w i j) as H.
  destruct (subs (delivered d r subj w i) !! j) as [s'|],
           (subs w !! j) as [s|]; simpl in H; try discriminate; [|reflexivity].
  now inversion H.
Qed.

Lemma deliver_fails d r subj i w e :
  failure_at [d; r; VStr subj] (subs w) i = Some e ->
  deliver d r subj i w = (inl e, delivered d r subj w i).
Proof.
  intros Hf. rewrite (surjective_pairing (deliver d r subj i w)), deliver_state. f_equal.
  unfold failure_at in Hf. unfold deliver. unfold bind at 1. simpl.
  destruct (subs w !! i) as [s|]; [|discriminate].
  destruct (reached (increment s)) as [h|]; simpl;
    unfold bind, update_sub, clearTimeout, modify, call, record, ret, throw; simpl;
    destruct (Sub.cb s) as [f|]; simpl; try (destruct (raises f _)); simpl; congruence.
Qed.

Lemma forEach_deliver_stops d r subj i l2 e l1 : forall w,
  forallb (returns_at [d; r; VStr subj] (subs w)) l1 = true ->
  failure_at [d; r; VStr subj] (subs w) i = Some e ->
  forEach (deliver d r subj) (l1 ++ i :: l2) w
  = (inl e, fold_left (delivered d r subj) (l1 ++ [i]) w).
Proof.
  induction l1 as [|k l1 IH]; intros w Hr Hf; simpl in *.
  - now rewrite (bind_inl _ _ _ _ _ (deliver_fails _ _ _ _ _ _ Hf)).
  - apply andb_prop in Hr as [Hk Hl].
    unfold returns_at in Hk.
    destruct (subs w !! k) as [s|] eqn:Es; [|discriminate].
    destruct (Sub.cb s) as [f|] eqn:Ef; [|discriminate].
    apply negb_true_iff in Hk.
    rewrite (bind_inr _ _ _ _ _ (deliver_returns _ _ _ _ _ _ _ Es Ef Hk)).
    apply IH.
    + apply forallb_forall. intros j Hj.
      rewrite delivered_returns_at. revert j Hj. now apply forallb_forall.
    + now rewrite delivered_failure_at.
Qed.

(** X9.  When the handler of a selected record throws, or the record has
    no callback, which makes the call a [TypeError], [publish] throws
    that error to its caller and stops there: the handlers of the records
    selected before have been called, the record at fault has had its
    count raised (and its handler, if any, called), and the records that
    come later in the selection are untouched and never get the
    message. *)
Theorem publish_stops_at_the_first_failure subject message replyTo w delivery l1 i l2 e :
  round_trip (useJson w) (preserveBuffers w) message = inr delivery ->
  selected subject w = l1 ++ i :: l2 ->
  forallb (returns_at [delivery; replyTo; VStr subject] (subs w)) l1 = true ->
  failure_at [delivery; replyTo; VStr subject] (subs w) i = Some e ->
  exists w',
    publish subject message replyTo w = (inl e, w')
    /\ log (rt w') = log (rt w)
                     ++ flat_map (handler_call delivery replyTo subject (subs w)) (l1 ++ [i])
    /\ subs w' !! i = after_delivery <$> subs w !! i
    /\ forall j, In j l2 -> subs w' !! j = subs w !! j.
Proof.
  unfold round_trip. intros Hrt Hsel Hr Hf. rewrite publish_unfold.
  destruct (encode (useJson w) message) as [e'|payload]; [discriminate|]. rewrite Hrt, Hsel.
  pose proof (selected_NoDup subject w) as Hnd. rewrite Hsel in Hnd.
  assert (Hnd1 : NoDup (l1 ++ [i])).
  { replace (l1 ++ i :: l2) with ((l1 ++ [i]) ++ l2) in Hnd by (now rewrite <- app_assoc).
    now apply NoDup_prefix in Hnd. }
  eexists. split; [now apply forEach_deliver_stops|].
  split; [now rewrite deliveries_log|]. split.
  - rewrite deliveries_subs by assumption. simpl.
    rewrite bool_decide_eq_true_2 by (apply elem_of_app; right; now left).
    reflexivity.
  - intros j Hj. rewrite deliveries_subs by assumption. simpl.
    rewrite bool_decide_eq_false_2; [now destruct (subs w !! j)|].
    intros Hin. replace (l1 ++ i :: l2) with ((l1 ++ [i]) ++ l2) in Hnd by (now rewrite <- app_assoc).
    apply NoDup_app in Hnd as [_ [Hd _]]. apply (Hd j Hin). now apply list_elem_of_In.
Qed.

(** X10.  Without [json], a message that is neither a string nor a
    Buffer (nor an array or an object, which [Buffer.from] copies) makes
    [publish] throw the [TypeError] of [Buffer.from], with or without
    [preserveBuffers], before the registry is looked at: the client is
    left as it was. *)
Theorem publish_rejects_a_message_without_bytes subject message replyTo w :
  useJson w = false ->
  no_bytes message = true ->
  publish subject message replyTo w = (inl TypeError, w).
Proof.
  intros Hj Hm. apply publish_round_trip_fails. rewrite Hj.
  destruct message; try discriminate; reflexivity.
Qed.

(** ** Payloads that are not plain text *)

Lemma buffer_text (J : string) :
  "{" +:+ JSON.quote "type" +:+ ":" +:+ JSON.quote "Buffer" +:+ "," +:+ JSON.quote "data" +:+ ":["
      +:+ J +:+ "]}"
  = "{" +:+ JSON.join [JSON.quote "type" +:+ ":" +:+ JSON.quote "Buffer";
                       JSON.quote "data" +:+ ":" +:+ ("[" +:+ J +:+ "]")] +:+ "}".
Proof.
  unfold JSON.quote, JSON.join.
  cbv [JSON.escape_all JSON.escape N_of_ascii N.eqb N.ltb N.compare Pos.eqb Pos.compare
       Pos.compare_cont N.add N.mul N.succ_double N.double Pos.add Pos.succ].
  simpl. rewrite ?append_assoc. reflexivity.
Qed.

Lemma stringify_buffer b :
  JSON.stringify (VBuffer b) = JSON.stringify (VObj (JSON.buffer_toJSON b)).
Proof.
  unfold JSON.buffer_toJSON.
  assert (Hj : map (fun x => default "null"%string (JSON.stringify x))
                   (map (fun x => VNum (Z.of_N (Byte.to_N x))) b)
               = map (fun x => JsObject.show_N (Byte.to_N x)) b).
  { rewrite map_map. apply map_ext. intros x. simpl. unfold JSON.show_Z.
    destruct (Z.ltb_spec (Z.of_N (Byte.to_N x)) 0) as [Hneg|_]; [lia|].
    now rewrite N2Z.id. }
  change (JSON.stringify (VBuffer b))
    with (Some ("{" +:+ JSON.quote "type" +:+ ":" +:+ JSON.quote "Buffer" +:+ ","
                    +:+ JSON.quote "data" +:+ ":["
                    +:+ JSON.join (map (fun x => JsObject.show_N (Byte.to_N x)) b) +:+ "]}")).
  rewrite buffer_text, <- Hj. reflexivity.
Qed.

Lemma serializable_bytes b :
  serializable (VArr (map (fun x => VNum (Z.of_N (Byte.to_N x))) b)).
Proof.
  induction b as [|x b IH]; [exact I|]. split; [|exact IH].
  pose proof (Byte.to_N_bounded x). cbn [serializable]. lia.
Qed.

Lemma proper_type_data (v1 v2 : value) :
  JsObject.proper [("type"%string, v1); ("data"%string, v2)].
Proof. vm_compute. reflexivity. Qed.

Lemma serializable_buffer_toJSON b : serializable (VObj (JSON.buffer_toJSON b)).
Proof.
  unfold JSON.buffer_toJSON. cbn [serializable fold_right fst snd].
  split; [|apply proper_type_data].
  split; [split|split; [split|exact I]].
  - vm_compute. reflexivity.
  - vm_compute. reflexivity.
  - vm_compute. reflexivity.
  - apply serializable_bytes.
Qed.

Lemma hands_over_after_round_trip subject message replyTo w delivery :
  round_trip (useJson w) (preserveBuffers w) message = inr delivery ->
  forallb (returns_at [delivery; replyTo; VStr subject] (subs w)) (selected subject w) = true ->
  hands_over subject message replyTo delivery w.
Proof. apply publish_after_round_trip. Qed.

Lemma encode_buffer b :
  encode true (VBuffer b) = encode true (VObj (JSON.buffer_toJSON b)).
Proof. unfold encode. rewrite stringify_buffer. reflexivity. Qed.

Lemma round_trip_buffer b preserve :
  round_trip true preserve (VBuffer b) = inr (VObj (JSON.buffer_toJSON b)).
Proof.
  rewrite <- (round_trip_json _ preserve (serializable_buffer_toJSON b)).
  unfold round_trip. rewrite encode_buffer. reflexivity.
Qed.

(** X11.  With [json] on, a Buffer is not delivered as a Buffer: the
    handlers receive the object its [toJSON] makes of it, with [type]
    [Buffer] and, under [data], the array of its bytes as numbers,
    whatever [preserveBuffers] says. *)
Theorem publish_json_delivers_a_buffer_as_an_object subject b replyTo w :
  useJson w = true ->
  forallb (returns_at [VObj (JSON.buffer_toJSON b); replyTo; VStr subject] (subs w))
          (selected subject w) = true ->
  hands_over subject (VBuffer b) replyTo (VObj (JSON.buffer_toJSON b)) w.
Proof.
  intros Hj Hr. apply hands_over_after_round_trip; [|assumption]. rewrite Hj.
  apply round_trip_buffer.
Qed.

(** X12.  Without [json], what the handlers receive depends on
    [preserveBuffers] and not on what was published.  With it, they get a
    Buffer: the one published, or the UTF-8 bytes of the string published.
    Without it, they get a string: a Buffer that holds the bytes of a
    well-formed text arrives as that text. *)
Theorem publish_without_json_converts_between_text_and_bytes subject replyTo w :
  useJson w = false ->
  (preserveBuffers w = true ->
   (forall b,
      forallb (returns_at [VBuffer b; replyTo; VStr subject] (subs w)) (selected subject w) = true ->
      hands_over subject (VBuffer b) replyTo (VBuffer b) w)
   /\ (forall s,
         forallb (returns_at [VBuffer (Buffer.of_string s); replyTo; VStr subject] (subs w))
                 (selected subject w) = true ->
         hands_over subject (VStr s) replyTo (VBuffer (Buffer.of_string s)) w))
  /\ (preserveBuffers w = false ->
      forall s,
        utf8_text s = true ->
        forallb (returns_at [VStr s; replyTo; VStr subject] (subs w)) (selected subject w) = true ->
        hands_over subject (VBuffer (Buffer.of_string s)) replyTo (VStr s) w).
Proof.
  intros Hj. split; [intros Hp; split|intros Hp].
  - intros b Hr. apply hands_over_after_round_trip; [|assumption]. now rewrite Hj, Hp.
  - intros s Hr. apply hands_over_after_round_trip; [|assumption]. now rewrite Hj, Hp.
  - intros s Hs Hr. apply hands_over_after_round_trip; [|assumption]. rewrite Hj, Hp.
    unfold round_trip, encode, decode. simpl.
    now rewrite toString_of_string by (now apply utf8_text_Utf8).
Qed.

(** ** Requests *)

(** X13.  [requestOne] makes no use of its options and of its callback:
    what it returns and what it does to the client are the same whatever
    is passed for them.  It registers nothing either, so nothing is there
    to receive a reply: the callback is never called. *)
Theorem requestOne_ignores_options_and_callback subject message o1 c1 o2 c2 w :
  requestOne subject message o1 c1 w = requestOne subject message o2 c2 w
  /\ map identity (subs (snd (requestOne subject message o1 c1 w))) = map identity (subs w).
Proof.
  split.
  - unfold requestOne. unfold bind at 1 3. simpl.
    destruct (is_function message); simpl; [reflexivity|].
    unfold bind at 1 3. simpl.
    destruct (is_function o1), (is_function o2); reflexivity.
  - rewrite requestOne_state. destruct (is_function message); [reflexivity|].
    apply (publish_keeps (fun w' => map identity (subs w') = map identity (subs w)));
      [| |reflexivity].
    + intros d r subj w' i H. now rewrite (proj1 (delivered_identity d r subj w' i)).
    + intros n w' H. exact H.
Qed.

(** X14.  A [requestOne] whose message is no function and survives the
    round trip is a [publish] with a reply subject of its own: it draws
    an identifier, hands every selected handler the payload with that
    identifier as [replyTo], and returns the identifier. *)
Theorem requestOne_publishes_with_a_fresh_reply_subject subject message opts callback w delivery :
  is_function message = false ->
  round_trip (useJson w) (preserveBuffers w) message = inr delivery ->
  forallb (returns_at [delivery; VStr (uuid_v4 (drawn (rt w))); VStr subject] (subs w))
          (selected subject (with_rt (with_drawn (S (drawn (rt w))) (rt w)) w)) = true ->
  exists w',
    requestOne subject message opts callback w = (inr (uuid_v4 (drawn (rt w))), w')
    /\ log (rt w')
       = log (rt w)
         ++ flat_map (handler_call delivery (VStr (uuid_v4 (drawn (rt w)))) subject (subs w))
                     (selected subject (with_rt (with_drawn (S (drawn (rt w))) (rt w)) w)).
Proof.
  intros Hm Hrt Hr. rewrite requestOne_publishes by assumption. simpl.
  destruct (publish_after_round_trip subject message (VStr (uuid_v4 (drawn (rt w))))
              (with_rt (with_drawn (S (drawn (rt w))) (rt w)) w) delivery Hrt Hr)
    as [w' [E L]].
  rewrite E. exists w'. split; [reflexivity|exact L].
Qed.

(** ** Timers that outlive what armed them *)

Lemma unheld_spec h w :
  unheld h w = true <-> forall s, In s (subs w) -> Sub.timeout s <> Some h.
Proof.
  unfold unheld. rewrite forallb_forall. split.
  - intros H s Hs Ht. specialize (H s Hs). rewrite Ht, Nat.eqb_refl in H. discriminate.
  - intros H s Hs. specialize (H s Hs). destruct (Sub.timeout s) as [h'|]; [|reflexivity].
    apply negb_true_iff, Nat.eqb_neq. congruence.
Qed.

Lemma fired_more j base w w' :
  (exists more, log (rt w') = log (rt w) ++ more) -> fired j base w -> fired j base w'.
Proof.
  intros [more Hm] [before [after Hf]]. exists before, (after ++ more).
  rewrite Hm, Hf. now rewrite <- !app_assoc.
Qed.

Lemma delivered_orphan d r subj h due j w k :
  orphan h due j w -> orphan h due j (delivered d r subj w k).
Proof.
  intros [Hin [Hlt Hun]]. unfold delivered.
  destruct (subs w !! k) as [sk|] eqn:Hk; [|now repeat split].
  pose proof (proj1 (unheld_spec h w) Hun) as Hfree.
  assert (Hsk : Sub.timeout sk <> Some h).
  { apply Hfree. apply list_elem_of_In, list_elem_of_lookup. eauto. }
  repeat split; simpl; [|assumption|].
  - apply (cancel_other h); [|reflexivity|assumption].
    intros Hc. apply reached_timeout in Hc. now apply Hsk.
  - apply unheld_spec. simpl. intros s Hs.
    apply In_insert in Hs as [->|Hs]; [|now apply Hfree].
    intros Hc. now apply after_delivery_timeout in Hc.
Qed.

Lemma publish_orphan subject message replyTo h due j w :
  orphan h due j w -> orphan h due j (snd (publish subject message replyTo w)).
Proof.
  apply (publish_keeps (orphan h due j)).
  - intros d r subj w' k. apply delivered_orphan.
  - intros n w' H. exact H.
Qed.

Lemma timeout_state sid ms n cb i s0 w :
  find_sid sid (subs w) = Some i ->
  subs w !! i = Some s0 ->
  timeout sid ms n cb w
  = (inr tt,
     with_subs (<[i := set_timeout (Some (handles (rt w))) (set_expected n s0)]> (subs w))
       (with_rt (with_handles (S (handles (rt w)))
                   (with_timers (timers (rt w)
                                 ++ [Timer (handles (rt w)) (now (rt w) + delay ms)
                                       (CallbackTask cb sid)])
                      (rt w))) w)).
Proof.
  intros Hfind Hi.
  unfold timeout, _findSubscribeBySid, bind, gets, ret, update_sub, setTimeout, modify.
  simpl. rewrite Hfind. simpl.
  rewrite (alter_lookup (set_expected n) i _ s0 Hi).
  rewrite (alter_lookup (set_timeout (Some (handles (rt w)))) i _ (set_expected n s0))
    by (apply list_lookup_insert_eq; now apply lookup_lt_Some in Hi).
  now rewrite list_insert_insert_eq.
Qed.

Lemma perform_orphan h due j a w :
  (forall dt, a <> Wait dt) -> orphan h due j w -> orphan h due j (perform a w).
Proof.
  intros Hwait Ho. pose proof Ho as [Hin [Hlt Hun]].
  pose proof (proj1 (unheld_spec h w) Hun) as Hfree.
  destruct a as [| |subject opts cb|subject message replyTo|subject message opts callback
                |sid|sid ms expected cb|dt]; simpl.
  - repeat split; simpl; [apply in_app_iff; now left|lia|exact Hun].
  - repeat split; simpl; assumption.
  - unfold subscribe, bind. simpl.
    destruct opts; (repeat split; simpl; [assumption|assumption|]);
      apply unheld_spec; simpl; intros s Hs; apply in_app_iff in Hs as [Hs|[<-|[]]];
      solve [now apply Hfree|discriminate].
  - now apply publish_orphan.
  - rewrite requestOne_state.
    assert (H1 : orphan h due j (with_rt (with_drawn (S (drawn (rt w))) (rt w)) w))
      by (repeat split; simpl; assumption).
    destruct (is_function message); [exact H1|]. now apply publish_orphan.
  - unfold unsubscribe, bind. simpl. destruct (find_sid sid (subs w)) as [k|]; [|exact Ho].
    repeat split; simpl; try assumption.
    apply unheld_spec. simpl. intros s Hs. apply In_delete in Hs. now apply Hfree.
  - destruct (find_sid sid (subs w)) as [k|] eqn:Hf.
    + destruct (find_sid_lookup _ _ _ Hf) as [sk [Hk _]].
      rewrite (timeout_state sid ms expected cb k sk w Hf Hk).
      repeat split; simpl; [apply in_app_iff; now left|lia|].
      apply unheld_spec. simpl. intros s Hs.
      apply In_insert in Hs as [->|Hs]; [|now apply Hfree].
      simpl. intros Hc. inversion Hc. lia.
    + unfold timeout, _findSubscribeBySid, bind, gets, ret. simpl. rewrite Hf. exact Ho.
  - exfalso. now apply (Hwait dt).
Qed.

Lemma perform_pending_or_fired h due j base a w :
  pending_or_fired h due j base w -> pending_or_fired h due j base (perform a w).
Proof.
  intros [[Ho [pre Hl]]|Hf]; [|right; apply (fired_more j base w); [apply perform_log_grows|assumption]].
  assert (Hstay : (forall dt, a <> Wait dt) -> pending_or_fired h due j base (perform a w)).
  { intros Hw. left. split; [now apply perform_orphan|].
    destruct (perform_log_grows a w) as [more Hm]. exists (pre ++ more).
    now rewrite Hm, Hl, <- app_assoc. }
  destruct a as [| |subject opts cb|subject message replyTo|subject message opts callback
                |sid|sid ms expected cb|dt]; try (apply Hstay; discriminate).
  destruct Ho as [Hin [Hlt Hun]].
  destruct (Z.leb_spec due (now (rt w) + dt)) as [Hdue|Hearly].
  - right. destruct (advance_fires h due j dt w Hin Hdue) as [before [after E]].
    exists (pre ++ before), after. simpl perform. rewrite E, Hl. now rewrite <- !app_assoc.
  - left. split; [|eexists; simpl; rewrite Hl, <- app_assoc; reflexivity].
    repeat split; simpl; [|assumption|exact Hun].
    apply filter_In. split; [assumption|].
    unfold is_due. simpl. apply negb_true_iff, Z.leb_gt. lia.
Qed.

Lemma run_pending_or_fired h due j base script : forall w,
  pending_or_fired h due j base w -> pending_or_fired h due j base (run script w).
Proof.
  induction script as [|a script IH]; intros w H; simpl; [assumption|].
  apply IH. now apply perform_pending_or_fired.
Qed.

(** A pending timer whose handle no record holds is run when its time
    comes, whatever the test does in between. *)
Lemma orphan_fires h due j script w dt :
  orphan h due j w ->
  (due <= now (rt (run script w)) + dt)%Z ->
  exists before after,
    log (rt (advance dt (run script w))) = log (rt w) ++ before ++ run_task j ++ after.
Proof.
  intros Ho Hdue.
  assert (H0 : pending_or_fired h due j (log (rt w)) w).
  { left. split; [assumption|]. exists []. now rewrite app_nil_r. }
  apply (run_pending_or_fired h due j _ script) in H0.
  destruct H0 as [[[Hin _] [pre Hl]]|[before [after Hf]]].
  - destruct (advance_fires h due j dt _ Hin Hdue) as [before [after E]].
    exists (pre ++ before), after. rewrite E, Hl. now rewrite <- !app_assoc.
  - exists before, (after ++ flat_map run_task (ticks (rt (run script w)))
                     ++ flat_map (fun x => run_task (job x))
                          (by_due (List.filter (is_due (now (rt (run script w)) + dt))
                                     (timers (rt (run script w)))))).
    simpl. rewrite Hf. now rewrite <- !app_assoc.
Qed.

Lemma fresh_unheld w : handles_fresh w = true -> forall s, In s (subs w) -> Sub.timeout s <> Some (handles (rt w)).
Proof.
  intros Hfresh s Hs Hc. apply handles_fresh_spec with (s := s) (h := handles (rt w)) in Hfresh;
    [lia|assumption|assumption].
Qed.

(** X15.  [close] empties the registry but cancels no timer: the callback
    of a [timeout] armed before it is still run when the time comes,
    whatever the test does after the [close]. *)
Theorem timeout_survives_close sid ms n cb i w script dt :
  find_sid sid (subs w) = Some i ->
  (now (rt w) + delay ms
   <= now (rt (run script (snd (close (snd (timeout sid ms n cb w)))))) + dt)%Z ->
  exists before after,
    log (rt (advance dt (run script (snd (close (snd (timeout sid ms n cb w)))))))
    = log (rt w) ++ before ++ run_task (CallbackTask cb sid) ++ after.
Proof.
  intros Hf Hdue. destruct (find_sid_lookup _ _ _ Hf) as [s0 [Hi _]].
  rewrite (timeout_state sid ms n cb i s0 w Hf Hi) in *.
  refine (let Ho := _ in
          match orphan_fires (handles (rt w)) (now (rt w) + delay ms) _ script _ dt Ho Hdue with
          | ex_intro _ before (ex_intro _ after E) =>
              ex_intro _ before (ex_intro _ after E)
          end).
  repeat split; simpl; [apply in_app_iff; right; now left|lia].
Qed.

(** X16.  [unsubscribe] removes the record and leaves its timeout
    pending: once the record is gone no delivery can cancel the timer, and
    its callback is run when the time comes, whatever the test does after
    the [unsubscribe]. *)
Theorem timeout_survives_unsubscribe sid ms n cb i w script dt :
  handles_fresh w = true ->
  find_sid sid (subs w) = Some i ->
  (now (rt w) + delay ms
   <= now (rt (run script (snd (unsubscribe sid (snd (timeout sid ms n cb w)))))) + dt)%Z ->
  exists before after,
    log (rt (advance dt (run script (snd (unsubscribe sid (snd (timeout sid ms n cb w)))))))
    = log (rt w) ++ before ++ run_task (CallbackTask cb sid) ++ after.
Proof.
  intros Hfresh Hf Hdue. destruct (find_sid_lookup _ _ _ Hf) as [s0 [Hi Hsid]].
  destruct (find_sid_split _ _ _ Hf) as [l1 [s [l2 [El [Ek [Es [Hl1 Hdel]]]]]]].
  rewrite (timeout_state sid ms n cb i s0 w Hf Hi) in *. cbn [snd] in *.
  set (s1 := set_timeout (Some (handles (rt w))) (set_expected n s0)) in *.
  assert (Eins : <[i := s1]> (subs w) = l1 ++ s1 :: l2).
  { rewrite El, <- Ek. rewrite insert_app_r_alt by lia.
    now replace (length l1 - length l1) with 0 by lia. }
  assert (Hun : unsubscribe sid
                  (with_subs (<[i := s1]> (subs w))
                     (with_rt (with_handles (S (handles (rt w)))
                                 (with_timers (timers (rt w)
                                               ++ [Timer (handles (rt w)) (now (rt w) + delay ms)
                                                     (CallbackTask cb sid)]) (rt w))) w))
                = (inr tt,
                   with_subs (l1 ++ l2)
                     (with_rt (with_handles (S (handles (rt w)))
                                 (with_timers (timers (rt w)
                                               ++ [Timer (handles (rt w)) (now (rt w) + delay ms)
                                                     (CallbackTask cb sid)]) (rt w))) w))).
  { unfold unsubscribe, _findSubscribeBySid, bind, gets, ret, modify. simpl.
    rewrite Eins, find_sid_first by (auto; exact Hsid). simpl. now rewrite delete_middle. }
  rewrite Hun in *. cbn [snd] in *.
  refine (let Ho := _ in
          match orphan_fires (handles (rt w)) (now (rt w) + delay ms) _ script _ dt Ho Hdue with
          | ex_intro _ before (ex_intro _ after E) =>
              ex_intro _ before (ex_intro _ after E)
          end).
  repeat split; simpl; [apply in_app_iff; right; now left|lia|].
  apply unheld_spec. simpl. intros x Hx. apply (fresh_unheld w Hfresh).
  rewrite El. apply in_app_iff. apply in_app_iff in Hx as [Hx|Hx]; [now left|right; now right].
Qed.

(** X17.  A second [timeout] on a subscription does not replace the
    first: the record then holds the handle of the second timer only, no
    delivery can cancel the first any more, and the callback of the first
    is run when its time comes, whatever the count of the subscription. *)
Theorem second_timeout_leaves_the_first_running sid ms1 n1 cb1 ms2 n2 cb2 i w script dt :
  handles_fresh w = true ->
  find_sid sid (subs w) = Some i ->
  (now (rt w) + delay ms1
   <= now (rt (run script (snd (timeout sid ms2 n2 cb2 (snd (timeout sid ms1 n1 cb1 w)))))) + dt)%Z ->
  exists before after,
    log (rt (advance dt (run script (snd (timeout sid ms2 n2 cb2
                                           (snd (timeout sid ms1 n1 cb1 w)))))))
    = log (rt w) ++ before ++ run_task (CallbackTask cb1 sid) ++ after.
Proof.
  intros Hfresh Hf Hdue. destruct (find_sid_lookup _ _ _ Hf) as [s0 [Hi Hsid]].
  destruct (find_sid_split _ _ _ Hf) as [l1 [s [l2 [El [Ek [Es [Hl1 Hdel]]]]]]].
  rewrite (timeout_state sid ms1 n1 cb1 i s0 w Hf Hi) in *. cbn [snd] in *.
  set (s1 := set_timeout (Some (handles (rt w))) (set_expected n1 s0)) in *.
  set (w1 := with_subs (<[i := s1]> (subs w)) _) in *.
  assert (Eins : subs w1 = l1 ++ s1 :: l2).
  { simpl. rewrite El, <- Ek. rewrite insert_app_r_alt by lia.
    now replace (length l1 - length l1) with 0 by lia. }
  assert (Hf1 : find_sid sid (subs w1) = Some i).
  { rewrite Eins, <- Ek. apply find_sid_first; [assumption|exact Hsid]. }
  assert (Hi1 : subs w1 !! i = Some s1).
  { simpl. apply list_lookup_insert_eq. now apply lookup_lt_Some in Hi. }
  rewrite (timeout_state sid ms2 n2 cb2 i s1 w1 Hf1 Hi1) in *. cbn [snd] in *.
  refine (let Ho := _ in
          match orphan_fires (handles (rt w)) (now (rt w) + delay ms1) _ script _ dt Ho Hdue with
          | ex_intro _ before (ex_intro _ after E) =>
              ex_intro _ before (ex_intro _ after E)
          end).
  repeat split; simpl; [apply in_app_iff; left; apply in_app_iff; right; now left|lia|].
  apply unheld_spec. simpl. rewrite list_insert_insert_eq. intros x Hx.
  apply In_insert in Hx as [->|Hx]; [simpl; intros Hc; inversion Hc; lia|].
  now apply (fresh_unheld w Hfresh).
Qed.

(** X18.  Once [connect] has returned, nothing the client offers takes
    the [connect] event back: it is emitted 10 ms later whatever the test
    does in between, a [close] included. *)
Theorem connect_event_cannot_be_cancelled w script dt :
  handles_fresh w = true ->
  (now (rt w) + 10 <= now (rt (run script (snd (connect w)))) + dt)%Z ->
  exists before after,
    log (rt (advance dt (run script (snd (connect w)))))
    = log (rt w) ++ before ++ [Emitted "connect"] ++ after.
Proof.
  intros Hfresh Hdue.
  refine (let Ho := _ in
          match orphan_fires (handles (rt w)) (now (rt w) + 10) (EmitTask "connect")
                  script _ dt Ho Hdue with
          | ex_intro _ before (ex_intro _ after E) =>
              ex_intro _ before (ex_intro _ after E)
          end).
  repeat split; simpl; [apply in_app_iff; right; now left|lia|].
  apply unheld_spec. simpl. now apply fresh_unheld.
Qed.

Lemma publish_ticks subject message replyTo w :
  ticks (rt (snd (publish subject message replyTo w))) = ticks (rt w).
Proof.
  apply (publish_keeps (fun w' => ticks (rt w') = ticks (rt w))); [| |reflexivity].
  - intros d r subj w' k H. unfold delivered. now destruct (subs w' !! k).
  - intros n w' H. exact H.
Qed.

Lemma perform_queued_or_fired j base a w :
  queued_or_fired j base w -> queued_or_fired j base (perform a w).
Proof.
  intros [[Hin [pre Hl]]|Hf]; [|right; apply (fired_more j base w); [apply perform_log_grows|assumption]].
  assert (Hstay : In j (ticks (rt (perform a w))) -> queued_or_fired j base (perform a w)).
  { intros Hw. left. split; [assumption|].
    destruct (perform_log_grows a w) as [more Hm]. exists (pre ++ more).
    now rewrite Hm, Hl, <- app_assoc. }
  destruct a as [| |subject opts cb|subject message replyTo|subject message opts callback
                |sid|sid ms expected cb|dt].
  - apply Hstay. exact Hin.
  - apply Hstay. simpl. apply in_app_iff. now left.
  - apply Hstay. simpl. unfold subscribe, bind. simpl. destruct opts; exact Hin.
  - apply Hstay. simpl. now rewrite publish_ticks.
  - apply Hstay. simpl. rewrite requestOne_state.
    destruct (is_function message); [exact Hin|]. now rewrite publish_ticks.
  - apply Hstay. simpl. unfold unsubscribe, bind. simpl.
    destruct (find_sid sid (subs w)); exact Hin.
  - apply Hstay. simpl.
    unfold timeout, _findSubscribeBySid, bind, gets, ret, update_sub, setTimeout, modify. simpl.
    destruct (find_sid sid (subs w)); exact Hin.
  - right. apply in_split in Hin as [l1 [l2 E]].
    exists (pre ++ flat_map run_task l1),
           (flat_map run_task l2
            ++ flat_map (fun x => run_task (job x))
                 (by_due (List.filter (is_due (now (rt w) + dt)) (timers (rt w))))).
    simpl. rewrite Hl, E, flat_map_app. simpl. now rewrite <- !app_assoc.
Qed.

(** X19.  The [disconnect] event of a [close] is emitted the next time
    the program yields, whatever the test calls before that: nothing
    empties the [process.nextTick] queue but the event loop. *)
Theorem close_emits_disconnect_at_the_next_yield w script dt :
  exists before after,
    log (rt (advance dt (run script (snd (close w)))))
    = log (rt w) ++ before ++ [Emitted "disconnect"] ++ after.
Proof.
  assert (H0 : queued_or_fired (EmitTask "disconnect") (log (rt w)) (snd (close w))).
  { left. split; [simpl; apply in_app_iff; right; now left|]. exists []. simpl.
    now rewrite app_nil_r. }
  assert (Hrun : forall script w', queued_or_fired (EmitTask "disconnect") (log (rt w)) w' ->
                   queued_or_fired (EmitTask "disconnect") (log (rt w)) (run script w')).
  { intros sc. induction sc as [|a sc IH]; intros w' H; simpl; [assumption|].
    apply IH. now apply perform_queued_or_fired. }
  apply (Hrun script) in H0.
  apply (perform_queued_or_fired _ _ (Wait dt)) in H0.
  destruct H0 as [[Hin _]|Hf]; [simpl in Hin; destruct Hin|exact Hf].
Qed.

(** ** The member a queue group is served by *)

Lemma get_snoc {A} k (l : JsObject.props A) k0 (v0 : A) :
  JsObject.get k (l ++ [(k0, v0)])
  = match JsObject.get k l with
    | Some v => Some v
    | None => if String.eqb k k0 then Some v0 else None
    end.
Proof.
  induction l as [|[k1 v1] l IH]; simpl; [reflexivity|].
  destruct (String.eqb k k1); [reflexivity|apply IH].
Qed.

(** In a run of assignments with ascending values, the one that decides a
    key has the largest value assigned to it. *)
Lemma get_rev_last (ks : list (string * nat)) k :
  StronglySorted lt (map snd ks) ->
  forall i, JsObject.get k (rev ks) = Some i ->
  forall j, In (k, j) ks -> j <= i.
Proof.
  induction ks as [|[k0 i0] ks IH]; simpl; intros Hs i Hg j Hj; [destruct Hj|].
  apply StronglySorted_inv in Hs as [Hs Hlt]. rewrite get_snoc in Hg.
  destruct (JsObject.get k (rev ks)) as [i'|] eqn:Hrev.
  - assert (Ei : i' = i) by congruence. subst i'. destruct Hj as [Hj|Hj]; [|now apply IH].
    injection Hj as E1 E2. subst k0 i0. apply get_In, in_rev in Hrev.
    rewrite Forall_forall in Hlt.
    assert (j < i); [|lia]. apply Hlt. apply list_elem_of_In, in_map_iff.
    exists (k, i). now split.
  - destruct (String.eqb_spec k k0) as [->|Hne]; [|discriminate].
    assert (Ei : i = i0) by congruence. subst i.
    destruct Hj as [Hj|Hj]; [inversion Hj; lia|]. exfalso.
    apply (get_None_keys _ _ Hrev). apply in_map_iff. exists (k0, j).
    split; [reflexivity|now apply in_rev in Hj].
Qed.

(** X20.  A queue group is served by its last member: a selected record
    of a queue group comes, in the registry, after every other record of
    the group that matches the subject.  So the same member gets every
    message, and a member that subscribes later takes over. *)
Theorem queue_group_serves_its_last_member subject w q i s :
  q <> EmptyString ->
  q <> "__proto__"%string ->
  subs w !! i = Some s ->
  Sub.queue s = Some q ->
  In i (selected subject w) ->
  forall j s',
    subs w !! j = Some s' ->
    matchSubject subject (Sub.subject s') = true ->
    Sub.queue s' = Some q ->
    j <= i.
Proof.
  intros Hq Hp Hi Hqi Hsel j s' Hj Hm Hqj.
  unfold selected in Hsel. rewrite picked_assign in Hsel.
  set (m := matching subject (subs w)) in *. set (d := drawn (rt w)) in *.
  set (ks := key_seq m d) in *.
  assert (Hnf : forall x, Sub.queue x = Some q -> falsy (Sub.queue x) = false).
  { intros x Hx. unfold falsy. rewrite Hx. now apply String.eqb_neq. }
  apply in_map_iff in Hsel as [[k i'] [Ei Hin]]. simpl in Ei. subst i'.
  assert (Hks : In (k, i) ks) by (destruct (assign_In ks [] (k, i) Hin) as [H|[]]; exact H).
  destruct (key_seq_In m d k i Hks) as [s'' [Hm'' Hq'']].
  apply matching_In in Hm'' as [Hi'' _]. rewrite Hi in Hi''. inversion Hi''; subst s''.
  rewrite (Hnf s Hqi), Hqi in Hq''. inversion Hq''; subst k. clear Hq''.
  assert (Hget : JsObject.get q (assign ks []) = Some i).
  { destruct (get_In_key q (assign ks [])) as [v Hv].
    { apply in_map_iff. exists (q, i). now split. }
    rewrite Hv. f_equal. apply (keys_NoDup_unique q v i (assign ks [])).
    - apply assign_keys_NoDup. constructor.
    - now apply get_In.
    - exact Hin. }
  rewrite (assign_get q ks [] Hp) in Hget.
  destruct (JsObject.get q (rev ks)) as [i1|] eqn:Hrev; [|discriminate].
  inversion Hget; subst i1.
  apply (get_rev_last ks q); [|exact Hrev|].
  - unfold ks. rewrite key_seq_positions. apply matching_sorted.
  - assert (Hjm : In (j, s') m) by (apply matching_In; now split).
    destruct (key_seq_covers m d j s' Hjm) as [k' [Hk' Hq']].
    rewrite (Hnf s' Hqj), Hqj in Hq'. inversion Hq'; subst k'. exact Hk'.
Qed.

(** X21.  Where no identifier drawn is [__proto__] or clashes with another
    key, [_findSubscribesBySubject] selects every matching record that
    has no queue group, an empty group name counting as none, and of the
    matching records of a queue group, [__proto__] apart, exactly one. *)
Theorem selection_takes_every_ungrouped_match_and_one_per_group subject w :
  fresh_draws (matching subject (subs w)) (drawn (rt w)) = true ->
  (forall i s,
     subs w !! i = Some s -> matchSubject subject (Sub.subject s) = true ->
     falsy (Sub.queue s) = true -> In i (selected subject w))
  /\ (forall q,
        q <> EmptyString -> q <> "__proto__"%string ->
        (exists i s, subs w !! i = Some s /\ matchSubject subject (Sub.subject s) = true
                     /\ Sub.queue s = Some q) ->
        exists i,
          (In i (selected subject w) /\ exists s, subs w !! i = Some s /\ Sub.queue s = Some q)
          /\ forall i', In i' (selected subject w) ->
               (exists s', subs w !! i' = Some s' /\ Sub.queue s' = Some q) -> i' = i).
Proof. apply one_per_group_and_all_ungrouped. Qed.

(** ** From [subscribe] to the handler *)

(** X23.  A subscription made with [subscribe(pattern, handler)] is
    served by the next [publish] on a subject its pattern matches: where
    the payload survives the round trip, the identifiers drawn are fresh
    and the selected handlers return, the handler is called with the
    payload, the reply subject and the subject, and the count of the new
    record stands at 1. *)
Theorem subscribe_then_publish_delivers pattern f cb subject message replyTo w delivery :
  matchSubject subject pattern = true ->
  round_trip (useJson w) (preserveBuffers w) message = inr delivery ->
  fresh_draws (matching subject (subs (snd (subscribe pattern (OptsCallback f) cb w))))
              (drawn (rt (snd (subscribe pattern (OptsCallback f) cb w)))) = true ->
  forallb (returns_at [delivery; replyTo; VStr subject]
             (subs (snd (subscribe pattern (OptsCallback f) cb w))))
          (selected subject (snd (subscribe pattern (OptsCallback f) cb w))) = true ->
  exists w' before after,
    publish subject message replyTo (snd (subscribe pattern (OptsCallback f) cb w)) = (inr tt, w')
    /\ log (rt w') = log (rt w) ++ before ++ [Called f [delivery; replyTo; VStr subject]] ++ after
    /\ Sub.received <$> subs w' !! length (subs w) = Some 1%Z.
Proof.
  intros Hm Hrt Hfresh Hr.
  set (w1 := snd (subscribe pattern (OptsCallback f) cb w)) in *.
  set (new := Sub.Make pattern None (Some f) (uuid_v4 (drawn (rt w))) 0 None None).
  assert (Hnew : subs w1 !! length (subs w) = Some new)
    by (simpl; now rewrite list_lookup_middle).
  assert (Hsel : In (length (subs w)) (selected subject w1)).
  { apply (proj1 (one_per_group_and_all_ungrouped subject w1 Hfresh) _ new); auto. }
  unfold round_trip in Hrt. change (useJson w) with (useJson w1) in Hrt.
  change (preserveBuffers w) with (preserveBuffers w1) in Hrt.
  destruct (encode (useJson w1) message) as [e|payload] eqn:He; [discriminate|].
  rewrite (publish_returns _ _ _ _ payload delivery He Hrt Hr).
  apply in_split in Hsel as [l1 [l2 El]].
  eexists. exists (flat_map (handler_call delivery replyTo subject (subs w1)) l1),
                  (flat_map (handler_call delivery replyTo subject (subs w1)) l2).
  assert (Hcall : handler_call delivery replyTo subject (subs w1) (length (subs w))
                  = [Called f [delivery; replyTo; VStr subject]])
    by (unfold handler_call; now rewrite Hnew).
  split; [reflexivity|]. split.
  - rewrite deliveries_log, El, flat_map_app.
    change (flat_map (handler_call delivery replyTo subject
                        (subs (with_rt (with_drawn (drawn_after subject w1) (rt w1)) w1)))
                     (length (subs w) :: l2))
      with (handler_call delivery replyTo subject (subs w1) (length (subs w))
            ++ flat_map (handler_call delivery replyTo subject (subs w1)) l2).
    rewrite Hcall.
    change (log (rt (with_rt (with_drawn (drawn_after subject w1) (rt w1)) w1)))
      with (log (rt w)).
    change (subs (with_rt (with_drawn (drawn_after subject w1) (rt w1)) w1)) with (subs w1).
    reflexivity.
  - rewrite deliveries_subs by apply selected_NoDup.
    change (subs (with_rt (with_drawn (drawn_after subject w1) (rt w1)) w1)) with (subs w1).
    rewrite Hnew. cbn [fmap option_fmap option_map].
    rewrite bool_decide_eq_true_2; [reflexivity|].
    rewrite El. apply elem_of_app. right. now left.
Qed.

End MockNatsClient.

(** * Subject matching *)

Lemma match_segments_Matches ps : forall ss,
  Utils.match_segments ps ss = true <-> Matches ps ss.
Proof.
  induction ps as [|p ps IH]; intros [|s ss]; simpl.
  - split; [constructor|reflexivity].
  - split; [discriminate|inversion 1].
  - split; [discriminate|inversion 1].
  - destruct (String.eqb_spec p ">") as [->|Hgt].
    + destruct ps as [|p' ps]; split; try discriminate.
      * intros _. constructor.
      * reflexivity.
      * inversion 1; subst. now contradict H5.
    + rewrite andb_true_iff, orb_true_iff, IH. split.
      * intros [[Hp|Hp] Hm].
        -- apply String.eqb_eq in Hp as ->. now constructor.
        -- apply String.eqb_eq in Hp as ->.
           destruct (String.eqb_spec s "*") as [->|Hstar]; now constructor.
      * inversion 1; subst; try congruence.
        -- split; [left; apply String.eqb_refl|assumption].
        -- split; [right; apply String.eqb_refl|assumption].
Qed.

Lemma Matches_counts ps ss :
  Matches ps ss ->
  (forall i, ps !! i = Some ">"%string -> S i = length ps)
  /\ (if bool_decide (last ps = Some ">"%string)
      then length ps <= length ss else length ps = length ss).
Proof.
  induction 1 as [|s ss|ps s ss H [IHa IHb]|p ps ss Hs Hg H [IHa IHb]].
  - split; [intros i; discriminate|reflexivity].
  - split; [intros [|i]; [reflexivity|discriminate]|simpl; lia].
  - split.
    + intros [|i]; simpl; [discriminate|]. intros Hi. now rewrite (IHa i Hi).
    + destruct ps as [|p' ps]; [inversion H; reflexivity|].
      change (last ("*"%string :: p' :: ps)) with (last (p' :: ps)).
      case_bool_decide; simpl in *; lia.
  - split.
    + intros [|i]; simpl; [congruence|]. intros Hi. now rewrite (IHa i Hi).
    + destruct ps as [|p' ps].
      * inversion H; subst. clear IHb. simpl. case_bool_decide; [congruence|reflexivity].
      * change (last (p :: p' :: ps)) with (last (p' :: ps)).
        case_bool_decide; simpl in *; lia.
Qed.

(** C2.  The matcher holds exactly when pattern and subject, cut at the
    dots, are related by the rule of the specification: [*] against any
    one segment, a [>] that ends the pattern against one or more
    segments, any other segment against itself.  So a [>] occurs in a
    matching pattern at its end only, and the segment counts agree unless
    the pattern ends in [>], in which case the subject has at least as
    many.  [a.>] matches [a.b] and [a.b.c] and not [a]; [a.*.c] matches
    [a.b.c] and neither [a.b.d.c] nor [a.c]. *)
Theorem matchSubject_follows_the_token_rule :
  (forall subject pattern,
     Utils.matchSubject subject pattern = true
     <-> Matches (Utils.split pattern) (Utils.split subject))
  /\ (forall ps ss, Matches ps ss ->
        (forall i, ps !! i = Some ">"%string -> S i = length ps)
        /\ (if bool_decide (last ps = Some ">"%string)
            then length ps <= length ss else length ps = length ss))
  /\ Utils.matchSubject "a.b" "a.>" = true
  /\ Utils.matchSubject "a.b.c" "a.>" = true
  /\ Utils.matchSubject "a" "a.>" = false
  /\ Utils.matchSubject "a.b.c" "a.*.c" = true
  /\ Utils.matchSubject "a.b.d.c" "a.*.c" = false
  /\ Utils.matchSubject "a.c" "a.*.c" = false.
Proof.
  split; [intros subject pattern; apply match_segments_Matches|].
  split; [apply Matches_counts|].
  repeat split.
Qed.

(** * The properties at work *)

Lemma publish_delivers_in_selection_order_witness :
  let delivery := VStr "x" in
  let grouped := three_subscribers in
  let plain := two_subscribers in
  let apart := apart_subscribers in
  let m := matching Utils.matchSubject "jobs" (subs plain) in
  (encode (useJson grouped) (VStr "x") = inr (Buffer.of_string "x")
   /\ decode (useJson grouped) (preserveBuffers grouped) (Buffer.of_string "x") = inr delivery
   /\ forallb (fun p => falsy (Sub.queue (snd p))) m = true
   /\ distinct (drawn_keys sample_uuid m (drawn (rt plain))) = true
   /\ distinct (keys_assigned Utils.matchSubject sample_uuid "jobs" apart) = true)
  /\ (exists w',
        publish Utils.matchSubject sample_uuid all_return "jobs" (VStr "x") VUndefined grouped
        = (inr tt, w')
        /\ log (rt w') = [Called "third" [delivery; VUndefined; VStr "jobs"];
                          Called "second" [delivery; VUndefined; VStr "jobs"]])
  /\ (exists w',
        publish Utils.matchSubject sample_uuid all_return "jobs" (VStr "x") VUndefined plain
        = (inr tt, w')
        /\ log (rt w') = [Called "first" [delivery; VUndefined; VStr "jobs"];
                          Called "second" [delivery; VUndefined; VStr "jobs"]])
  /\ (selected Utils.matchSubject sample_uuid "jobs" plain = [0; 1]
      /\ StronglySorted lt (selected Utils.matchSubject sample_uuid "jobs" plain))
  /\ (selected Utils.matchSubject sample_uuid "jobs" apart = [0; 1; 2]
      /\ StronglySorted lt (selected Utils.matchSubject sample_uuid "jobs" apart)).
Proof.
  intros delivery grouped plain apart m. split; [repeat split|].
  destruct (publish_delivers_in_selection_order Utils.matchSubject sample_uuid all_return
              "jobs" (VStr "x") VUndefined grouped (Buffer.of_string "x") (VStr "x")
              eq_refl eq_refl eq_refl) as [[w1 [Hp1 [Hl1 _]]] _].
  destruct (publish_delivers_in_selection_order Utils.matchSubject sample_uuid all_return
              "jobs" (VStr "x") VUndefined plain (Buffer.of_string "x") (VStr "x")
              eq_refl eq_refl eq_refl) as [[w2 [Hp2 [Hl2 _]]] [_ [Hplain _]]].
  destruct (publish_delivers_in_selection_order Utils.matchSubject sample_uuid all_return
              "jobs" (VStr "x") VUndefined apart (Buffer.of_string "x") (VStr "x")
              eq_refl eq_refl eq_refl) as [_ [_ [_ [Hapart _]]]].
  split; [exists w1; split; [exact Hp1|exact Hl1]|].
  split; [exists w2; split; [exact Hp2|exact Hl2]|].
  split.
  - apply Hplain.
    + reflexivity.
    + apply distinct_NoDup. reflexivity.
    + repeat constructor; try discriminate.
  - apply Hapart.
    + apply distinct_NoDup. reflexivity.
    + repeat constructor; try discriminate.
Defined.

(** C3 as the specification words it fails on [three_subscribers]: the two
    records selected for [jobs] stand at positions 1 and 2 of the registry,
    and the handler of position 2 is called first. *)
Lemma publish_not_in_registry_order :
  selected Utils.matchSubject sample_uuid "jobs" three_subscribers = [2; 1]
  /\ ~ StronglySorted lt (selected Utils.matchSubject sample_uuid "jobs" three_subscribers)
  /\ log (rt (snd (publish Utils.matchSubject sample_uuid all_return
                     "jobs" (VStr "x") VUndefined three_subscribers)))
     = [Called "third" [VStr "x"; VUndefined; VStr "jobs"];
        Called "second" [VStr "x"; VUndefined; VStr "jobs"]].
Proof.
  split; [reflexivity|]. split; [|reflexivity].
  change (selected Utils.matchSubject sample_uuid "jobs" three_subscribers) with [2; 1].
  intros H. apply StronglySorted_inv in H as [_ H].
  apply Forall_inv in H. lia.
Qed.

(** C1, at the input on which the code departs from it.  Two handlers
    subscribe to [jobs] in the queue group [__proto__]; a message
    published to [jobs] selects neither: the assignment
    [onePerQueue["__proto__"] = sub] sets the prototype of the map and adds
    no property to it. *)
Theorem queue_group_named_proto_is_never_served :
  selected Utils.matchSubject sample_uuid "jobs" proto_group = []
  /\ publish Utils.matchSubject sample_uuid all_return "jobs" (VStr "x") VUndefined proto_group
     = (inr tt, proto_group).
Proof. split; reflexivity. Qed.

(** C6 as the specification words it fails on a fresh client: [connected]
    reads [true] as soon as [connect] has returned, before the program has
    yielded and before the [connect] event. *)
Lemma connected_is_true_at_once :
  let w := snd (connect (constructor None None runtime0)) in
  connected w = Some true /\ log (rt w) = [] /\ connected (constructor None None runtime0) <> Some false.
Proof. repeat split. discriminate. Qed.

Lemma publish_json_failure_changes_nothing_witness :
  let w := MkClient (subs three_subscribers) true false None (rt three_subscribers) in
  useJson w = true
  /\ round_trip true (preserveBuffers w) VUndefined = inl TypeError
  /\ publish Utils.matchSubject sample_uuid all_return "jobs" VUndefined VUndefined w
     = (inl TypeError, w).
Proof.
  intros w. split; [reflexivity|]. split; [reflexivity|].
  apply (publish_json_failure_changes_nothing Utils.matchSubject sample_uuid all_return
           "jobs" VUndefined VUndefined w TypeError eq_refl eq_refl).
Defined.


Lemma timeout_fires_unless_count_reached_witness :
  let w0 := one_subscriber in
  let sid := sample_uuid 0 in
  let script := [Publish "jobs" (VStr "x") VUndefined; Wait 10] in
  let w2 := run Utils.matchSubject sample_uuid all_return script
              (snd (timeout sid 50 2 (Some "late"%string) w0)) in
  (handles_fresh w0 = true /\ find_sid sid (subs w0) = Some 0
   /\ forallb calm script = true /\ (waited script < delay 50)%Z)
  /\ exists s2,
       subs w2 !! 0 = Some s2
       /\ (0 <= Sub.received s2)%Z
       /\ ((Sub.received s2 = 0 \/ Sub.received s2 < 2)%Z ->
           forall dt, (0 + delay 50 <= now (rt w2) + dt)%Z ->
           exists before after,
             log (rt (advance dt w2))
             = log (rt w2) ++ before ++ [Called "late" [VStr sid]] ++ after)
       /\ ((0 < Sub.received s2)%Z -> (2 <= Sub.received s2)%Z ->
           Sub.timeout s2 = None
           /\ forall more,
                ~ In 0 (map handle (timers (rt (run Utils.matchSubject sample_uuid all_return
                                                  more w2))))).
Proof.
  intros w0 sid script w2. split; [repeat split|].
  exact (timeout_fires_unless_count_reached Utils.matchSubject sample_uuid all_return
           sid 50 2 (Some "late"%string) 0
           (Sub.Make "jobs" None (Some "handler"%string) (sample_uuid 0) 0 None None)
           script w0 eq_refl eq_refl eq_refl eq_refl eq_refl).
Defined.

(** C4, at the input on which the code departs from it.  A subscription
    that has already received two messages is given [timeout(sid, 50, 2,
    late)], and a single message is published to it within the 50 ms.
    One message in the window is fewer than the two expected, so by the
    claim, and by the comment above [timeout] (the callback is invoked if
    the subscription has not received the expected number of messages
    during the timeout), [late] is due.  The code compares the count since
    [subscribe], 3 by then, with 2: that publish cancels the timer,
    nothing is left pending once the 50 ms have passed, and [late] is
    never called. *)
Lemma timeout_counts_earlier_deliveries :
  let sid := sample_uuid 0 in
  let message := Publish "jobs" (VStr "x") VUndefined in
  let w := run Utils.matchSubject sample_uuid all_return
             [message; message; Timeout sid 50 2 (Some "late"%string); message; Wait 50]
             one_subscriber in
  log (rt w) = [Called "handler" [VStr "x"; VUndefined; VStr "jobs"];
                Called "handler" [VStr "x"; VUndefined; VStr "jobs"];
                Called "handler" [VStr "x"; VUndefined; VStr "jobs"]]
  /\ ~ In (Called "late" [VStr sid]) (log (rt w))
  /\ timers (rt w) = [].
Proof.
  intros sid message w.
  assert (E : log (rt w) = [Called "handler" [VStr "x"; VUndefined; VStr "jobs"];
                            Called "handler" [VStr "x"; VUndefined; VStr "jobs"];
                            Called "handler" [VStr "x"; VUndefined; VStr "jobs"]])
    by reflexivity.
  split; [exact E|]. split; [|reflexivity].
  rewrite E. simpl. intros [H|[H|[H|[]]]]; discriminate.
Qed.

(** The example of the specification, on a subscription that has received
    nothing yet: one publish within the 50 ms and [late] is called at the
    due time, two and it is not. *)
Example timeout_of_a_new_subscription :
  let sid := sample_uuid 0 in
  let message := Publish "jobs" (VStr "x") VUndefined in
  let call := Called "handler" [VStr "x"; VUndefined; VStr "jobs"] in
  log (rt (run Utils.matchSubject sample_uuid all_return
             [Timeout sid 50 2 (Some "late"%string); message; Wait 49]
             one_subscriber)) = [call]
  /\ log (rt (run Utils.matchSubject sample_uuid all_return
                [Timeout sid 50 2 (Some "late"%string); message; Wait 50]
                one_subscriber)) = [call; Called "late" [VStr sid]]
  /\ log (rt (run Utils.matchSubject sample_uuid all_return
                [Timeout sid 50 2 (Some "late"%string); message; message; Wait 50]
                one_subscriber)) = [call; call].
Proof. repeat split. Qed.

(** The identifiers of the samples are as fresh as the selection needs. *)
Example sample_draws_are_fresh :
  fresh_draws sample_uuid
    (matching Utils.matchSubject "jobs" (subs three_subscribers)) (drawn (rt three_subscribers))
  = true.
Proof. reflexivity. Qed.

(** A queue group named like an array index is listed, and served, before
    the records that stand before it in the registry. *)
Example index_like_group_comes_first :
  selected Utils.matchSubject sample_uuid "jobs" index_group = [1; 0]
  /\ log (rt (snd (publish Utils.matchSubject sample_uuid all_return
                     "jobs" (VStr "x") VUndefined index_group)))
     = [Called "second" [VStr "x"; VUndefined; VStr "jobs"];
        Called "first" [VStr "x"; VUndefined; VStr "jobs"]].
Proof. split; reflexivity. Qed.

Example one_of_the_workers_and_the_other :
  selected Utils.matchSubject sample_uuid "jobs" three_subscribers = [2; 1].
Proof. reflexivity. Qed.

(** A few texts and buffers. *)
Example parse_with_white_space :
  JSON.parse "[1, -20 , true,{} ]" = inr (VArr [VNum 1; VNum (-20); VBool true; VObj []]).
Proof. reflexivity. Qed.

Example parse_leading_zero : JSON.parse "01" = inl SyntaxError.
Proof. reflexivity. Qed.

Example parse_orders_index_keys :
  option_map JSON.parse (JSON.stringify (VObj [("b"%string, VNum 1); ("2"%string, VNum 2)]))
  = Some (inr (VObj [("2"%string, VNum 2); ("b"%string, VNum 1)])).
Proof. reflexivity. Qed.

Example stringify_drops_undefined :
  option_map JSON.parse
    (JSON.stringify (VObj [("x"%string, VUndefined); ("y"%string, VArr [VUndefined; VFun "f"])]))
  = Some (inr (VObj [("y"%string, VArr [VNull; VNull])])).
Proof. reflexivity. Qed.

Example toString_replaces_a_stray_byte :
  Buffer.toString [Byte.x68; Byte.xff; Byte.x69]
  = String "h" (String "239" (String "191" (String "189" (String "i" EmptyString)))).
Proof. reflexivity. Qed.

Example text_beyond_ascii :
  let e_acute := String "195" (String "169" EmptyString) in
  utf8_text e_acute = true
  /\ utf8_text (String "169" EmptyString) = false
  /\ encode true (VStr e_acute)
     = inr [Byte.x22; Byte.xc3; Byte.xa9; Byte.x22]
  /\ round_trip true false (VArr [VStr e_acute]) = inr (VArr [VStr e_acute]).
Proof. repeat split. Qed.

Example array_index_keys :
  JsObject.array_index "7" = Some 7%N
  /\ JsObject.array_index "07" = None
  /\ JsObject.array_index "4294967294" = Some 4294967294%N
  /\ JsObject.array_index "4294967295" = None
  /\ JsObject.array_index "workers" = None.
Proof. repeat split. Qed.

Example object_listing_order :
  JsObject.values
    (JsObject.set "b" 4 (JsObject.set "2" 3 (JsObject.set "10" 2 (JsObject.set "b" 1 []))))
  = [3; 2; 4].
Proof. reflexivity. Qed.

(** ** More of the class at work

    The properties of the second part, on the sample registries. *)

Lemma timeout_on_unknown_sid_does_nothing_witness :
  (forall s, In s (subs one_subscriber) -> Sub.sid s <> "nobody"%string)
  /\ timeout "nobody" 50 1 (Some "late"%string) one_subscriber = (inr tt, one_subscriber).
Proof.
  assert (H : forall s, In s (subs one_subscriber) -> Sub.sid s <> "nobody"%string)
    by (intros s [<-|[]]; vm_compute; discriminate).
  split; [exact H|].
  exact (timeout_on_unknown_sid_does_nothing "nobody" 50 1 (Some "late"%string) one_subscriber H).
Defined.

Lemma subscribe_then_unsubscribe_restores_registry_witness :
  (forall s, In s (subs one_subscriber) -> Sub.sid s <> sample_uuid (drawn (rt one_subscriber)))
  /\ exists sid w1,
       subscribe sample_uuid "news" OptsAbsent (Some "reader"%string) one_subscriber = (inr sid, w1)
       /\ sid = sample_uuid 1
       /\ unsubscribe sid w1 = (inr tt, with_rt (with_drawn 2 (rt one_subscriber)) one_subscriber).
Proof.
  assert (H : forall s, In s (subs one_subscriber)
                        -> Sub.sid s <> sample_uuid (drawn (rt one_subscriber)))
    by (intros s [<-|[]]; vm_compute; discriminate).
  split; [exact H|].
  exact (subscribe_then_unsubscribe_restores_registry sample_uuid "news" OptsAbsent
           (Some "reader"%string) one_subscriber H).
Defined.

Lemma sids_are_distinct_witness :
  let script := [Subscribe "jobs" OptsAbsent (Some "first"%string);
                 Publish "jobs" (VStr "x") VUndefined;
                 Subscribe "jobs.>" (OptsCallback "second") None;
                 Unsubscribe (sample_uuid 0);
                 Subscribe "news" (OptsObject (Some "readers"%string)) (Some "third"%string)] in
  let w := run Utils.matchSubject sample_uuid all_return script (constructor None None runtime0) in
  distinct (map sample_uuid (seq 0 (drawn (rt w)))) = true
  /\ NoDup (map Sub.sid (subs w)).
Proof.
  intros script w. split; [reflexivity|].
  exact (sids_are_distinct Utils.matchSubject sample_uuid all_return None None runtime0 script
           eq_refl).
Defined.

Lemma unsubscribed_sid_is_gone_witness :
  NoDup (map Sub.sid (subs three_subscribers))
  /\ forall s, In s (subs (snd (unsubscribe (sample_uuid 1) three_subscribers))) ->
               Sub.sid s <> sample_uuid 1.
Proof.
  assert (H : NoDup (map Sub.sid (subs three_subscribers)))
    by (apply distinct_NoDup; reflexivity).
  split; [exact H|].
  exact (proj1 (unsubscribed_sid_is_gone (sample_uuid 1) three_subscribers H)).
Defined.

Lemma publish_without_a_match_changes_nothing_witness :
  round_trip (useJson three_subscribers) (preserveBuffers three_subscribers) (VStr "x")
  = inr (VStr "x")
  /\ (forall s, In s (subs three_subscribers) ->
                Utils.matchSubject "news" (Sub.subject s) = false)
  /\ publish Utils.matchSubject sample_uuid all_return "news" (VStr "x") VUndefined
       three_subscribers
     = (inr tt, three_subscribers).
Proof.
  assert (H : forall s, In s (subs three_subscribers) ->
                        Utils.matchSubject "news" (Sub.subject s) = false)
    by (intros s [<-|[<-|[<-|[]]]]; reflexivity).
  split; [reflexivity|]. split; [exact H|].
  exact (publish_without_a_match_changes_nothing Utils.matchSubject sample_uuid all_return
           "news" (VStr "x") VUndefined three_subscribers (VStr "x") eq_refl H).
Defined.

Lemma publish_stops_at_the_first_failure_witness :
  let w := three_subscribers in
  let args := [VStr "x"; VUndefined; VStr "jobs"] in
  (round_trip (useJson w) (preserveBuffers w) (VStr "x") = inr (VStr "x")
   /\ selected Utils.matchSubject sample_uuid "jobs" w = [] ++ 2 :: [1]
   /\ failure_at third_throws args (subs w) 2 = Some (Raised "third"))
  /\ exists w',
       publish Utils.matchSubject sample_uuid third_throws "jobs" (VStr "x") VUndefined w
       = (inl (Raised "third"), w')
       /\ log (rt w') = [Called "third" args]
       /\ Sub.received <$> subs w' !! 2 = Some 1%Z
       /\ Sub.received <$> subs w' !! 1 = Some 0%Z.
Proof.
  intros w args. split; [repeat split|].
  destruct (publish_stops_at_the_first_failure Utils.matchSubject sample_uuid third_throws
              "jobs" (VStr "x") VUndefined w (VStr "x") [] 2 [1] (Raised "third")
              eq_refl eq_refl eq_refl eq_refl) as [w' [Hp [Hl [Hi Hrest]]]].
  exists w'. split; [exact Hp|]. split; [exact Hl|].
  rewrite Hi, (Hrest 1 (or_introl eq_refl)). split; reflexivity.
Defined.

Lemma publish_rejects_a_message_without_bytes_witness :
  (useJson three_subscribers = false /\ no_bytes (VNum 5) = true)
  /\ publish Utils.matchSubject sample_uuid all_return "jobs" (VNum 5) VUndefined three_subscribers
     = (inl TypeError, three_subscribers).
Proof.
  split; [split; reflexivity|].
  exact (publish_rejects_a_message_without_bytes Utils.matchSubject sample_uuid all_return
           "jobs" (VNum 5) VUndefined three_subscribers eq_refl eq_refl).
Defined.

Lemma publish_json_delivers_a_buffer_as_an_object_witness :
  let w := with_modes true true three_subscribers in
  let object := VObj [("type"%string, VStr "Buffer");
                      ("data"%string, VArr [VNum 104; VNum 105])] in
  useJson w = true
  /\ exists w',
       publish Utils.matchSubject sample_uuid all_return "jobs"
         (VBuffer [Byte.x68; Byte.x69]) VUndefined w = (inr tt, w')
       /\ log (rt w') = [Called "third" [object; VUndefined; VStr "jobs"];
                         Called "second" [object; VUndefined; VStr "jobs"]].
Proof.
  intros w object. split; [reflexivity|].
  exact (publish_json_delivers_a_buffer_as_an_object Utils.matchSubject sample_uuid all_return
           "jobs" [Byte.x68; Byte.x69] VUndefined w eq_refl eq_refl).
Defined.

Lemma publish_without_json_converts_between_text_and_bytes_witness :
  let kept := with_modes false true three_subscribers in
  let bytes := VBuffer [Byte.x68; Byte.x69] in
  (useJson kept = false /\ preserveBuffers kept = true
   /\ useJson three_subscribers = false /\ preserveBuffers three_subscribers = false
   /\ utf8_text "hi" = true)
  /\ hands_over Utils.matchSubject sample_uuid all_return "jobs" (VStr "hi") VUndefined bytes kept
  /\ hands_over Utils.matchSubject sample_uuid all_return "jobs" bytes VUndefined (VStr "hi")
       three_subscribers.
Proof.
  intros kept bytes. split; [repeat split|].
  destruct (publish_without_json_converts_between_text_and_bytes Utils.matchSubject sample_uuid
              all_return "jobs" VUndefined kept eq_refl) as [Hkept _].
  destruct (publish_without_json_converts_between_text_and_bytes Utils.matchSubject sample_uuid
              all_return "jobs" VUndefined three_subscribers eq_refl) as [_ Htext].
  split.
  - exact (proj2 (Hkept eq_refl) "hi"%string eq_refl).
  - exact (Htext eq_refl "hi"%string eq_refl eq_refl).
Defined.

Lemma requestOne_publishes_with_a_fresh_reply_subject_witness :
  let w := one_subscriber in
  (is_function (VStr "x") = false
   /\ round_trip (useJson w) (preserveBuffers w) (VStr "x") = inr (VStr "x"))
  /\ exists w',
       requestOne Utils.matchSubject sample_uuid all_return "jobs" (VStr "x") VNull
         (VFun "reply") w
       = (inr (sample_uuid 1), w')
       /\ log (rt w') = [Called "handler" [VStr "x"; VStr (sample_uuid 1); VStr "jobs"]].
Proof.
  intros w. split; [split; reflexivity|].
  exact (requestOne_publishes_with_a_fresh_reply_subject Utils.matchSubject sample_uuid
           all_return "jobs" (VStr "x") VNull (VFun "reply") w (VStr "x")
           eq_refl eq_refl eq_refl).
Defined.

Lemma timeout_survives_close_witness :
  let w := one_subscriber in
  let sid := sample_uuid 0 in
  let script := [Publish "jobs" (VStr "x") VUndefined; Wait 20] in
  let w1 := run Utils.matchSubject sample_uuid all_return script
              (snd (close (snd (timeout sid 50 1 (Some "late"%string) w)))) in
  (find_sid sid (subs w) = Some 0 /\ (now (rt w) + delay 50 <= now (rt w1) + 30)%Z)
  /\ exists before after,
       log (rt (advance 30 w1)) = log (rt w) ++ before ++ [Called "late" [VStr sid]] ++ after.
Proof.
  intros w sid script w1.
  assert (Hdue : (now (rt w) + delay 50 <= now (rt w1) + 30)%Z) by (apply Z.leb_le; reflexivity).
  split; [split; [reflexivity|exact Hdue]|].
  exact (timeout_survives_close Utils.matchSubject sample_uuid all_return sid 50 1
           (Some "late"%string) 0 w script 30 eq_refl Hdue).
Defined.

Lemma timeout_survives_unsubscribe_witness :
  let w := one_subscriber in
  let sid := sample_uuid 0 in
  let script := [Subscribe "jobs" OptsAbsent (Some "other"%string);
                 Publish "jobs" (VStr "x") VUndefined; Wait 20] in
  let w1 := run Utils.matchSubject sample_uuid all_return script
              (snd (unsubscribe sid (snd (timeout sid 50 1 (Some "late"%string) w)))) in
  (handles_fresh w = true /\ find_sid sid (subs w) = Some 0
   /\ (now (rt w) + delay 50 <= now (rt w1) + 30)%Z)
  /\ exists before after,
       log (rt (advance 30 w1)) = log (rt w) ++ before ++ [Called "late" [VStr sid]] ++ after.
Proof.
  intros w sid script w1.
  assert (Hdue : (now (rt w) + delay 50 <= now (rt w1) + 30)%Z) by (apply Z.leb_le; reflexivity).
  split; [split; [reflexivity|split; [reflexivity|exact Hdue]]|].
  exact (timeout_survives_unsubscribe Utils.matchSubject sample_uuid all_return sid 50 1
           (Some "late"%string) 0 w script 30 eq_refl eq_refl Hdue).
Defined.

Lemma second_timeout_leaves_the_first_running_witness :
  let w := one_subscriber in
  let sid := sample_uuid 0 in
  let script := [Publish "jobs" (VStr "x") VUndefined; Wait 20] in
  let w1 := run Utils.matchSubject sample_uuid all_return script
              (snd (timeout sid 500 1 (Some "second"%string)
                      (snd (timeout sid 50 1 (Some "first"%string) w)))) in
  (handles_fresh w = true /\ find_sid sid (subs w) = Some 0
   /\ (now (rt w) + delay 50 <= now (rt w1) + 30)%Z)
  /\ exists before after,
       log (rt (advance 30 w1)) = log (rt w) ++ before ++ [Called "first" [VStr sid]] ++ after.
Proof.
  intros w sid script w1.
  assert (Hdue : (now (rt w) + delay 50 <= now (rt w1) + 30)%Z) by (apply Z.leb_le; reflexivity).
  split; [split; [reflexivity|split; [reflexivity|exact Hdue]]|].
  exact (second_timeout_leaves_the_first_running Utils.matchSubject sample_uuid all_return sid
           50 1 (Some "first"%string) 500 1 (Some "second"%string) 0 w script 30
           eq_refl eq_refl Hdue).
Defined.

Lemma connect_event_cannot_be_cancelled_witness :
  let w := one_subscriber in
  let script := [Close; Wait 4] in
  let w1 := run Utils.matchSubject sample_uuid all_return script (snd (connect w)) in
  (handles_fresh w = true /\ (now (rt w) + 10 <= now (rt w1) + 6)%Z)
  /\ exists before after,
       log (rt (advance 6 w1)) = log (rt w) ++ before ++ [Emitted "connect"] ++ after.
Proof.
  intros w script w1.
  assert (Hdue : (now (rt w) + 10 <= now (rt w1) + 6)%Z) by (apply Z.leb_le; reflexivity).
  split; [split; [reflexivity|exact Hdue]|].
  exact (connect_event_cannot_be_cancelled Utils.matchSubject sample_uuid all_return w script 6
           eq_refl Hdue).
Defined.

Lemma queue_group_serves_its_last_member_witness :
  let w := three_subscribers in
  let third := Sub.Make "jobs" (Some "workers"%string) (Some "third"%string) (sample_uuid 2)
                 0 None None in
  (subs w !! 2 = Some third
   /\ Sub.queue third = Some "workers"%string
   /\ In 2 (selected Utils.matchSubject sample_uuid "jobs" w))
  /\ forall j s',
       subs w !! j = Some s' ->
       Utils.matchSubject "jobs" (Sub.subject s') = true ->
       Sub.queue s' = Some "workers"%string ->
       j <= 2.
Proof.
  intros w third.
  assert (Hsel : In 2 (selected Utils.matchSubject sample_uuid "jobs" w)) by (left; reflexivity).
  split; [split; [reflexivity|split; [reflexivity|exact Hsel]]|].
  apply (queue_group_serves_its_last_member Utils.matchSubject sample_uuid all_return
           "jobs" w "workers" 2 third); try discriminate; try reflexivity. exact Hsel.
Defined.

Lemma selection_takes_every_ungrouped_match_and_one_per_group_witness :
  let w := three_subscribers in
  fresh_draws sample_uuid (matching Utils.matchSubject "jobs" (subs w)) (drawn (rt w)) = true
  /\ In 1 (selected Utils.matchSubject sample_uuid "jobs" w)
  /\ exists i,
       (In i (selected Utils.matchSubject sample_uuid "jobs" w)
        /\ exists s, subs w !! i = Some s /\ Sub.queue s = Some "workers"%string)
       /\ forall i', In i' (selected Utils.matchSubject sample_uuid "jobs" w) ->
            (exists s', subs w !! i' = Some s' /\ Sub.queue s' = Some "workers"%string) ->
            i' = i.
Proof.
  intros w. split; [reflexivity|].
  destruct (selection_takes_every_ungrouped_match_and_one_per_group Utils.matchSubject
              sample_uuid all_return "jobs" w eq_refl) as [Hall Hone].
  split.
  - exact (Hall 1 (Sub.Make "jobs" None (Some "second"%string) (sample_uuid 1) 0 None None)
             eq_refl eq_refl eq_refl).
  - apply (Hone "workers"%string); try discriminate.
    exists 0, (Sub.Make "jobs" (Some "workers"%string) (Some "first"%string) (sample_uuid 0)
                 0 None None).
    repeat split.
Defined.

Lemma selection_without_groups_witness :
  let w := two_subscribers in
  let m := matching Utils.matchSubject "jobs" (subs w) in
  (forallb (fun p => falsy (Sub.queue (snd p))) m = true
   /\ distinct (drawn_keys sample_uuid m (drawn (rt w))) = true
   /\ length m = 2)
  /\ selected Utils.matchSubject sample_uuid "jobs" w = [0; 1]
  /\ StronglySorted lt (selected Utils.matchSubject sample_uuid "jobs" w).
Proof.
  intros w m. split; [repeat split|].
  apply (selection_without_groups Utils.matchSubject sample_uuid all_return "jobs" w).
  - reflexivity.
  - apply distinct_NoDup. reflexivity.
  - repeat constructor; try discriminate.
Defined.

Lemma subscribe_then_publish_delivers_witness :
  let w := one_subscriber in
  let w1 := snd (subscribe sample_uuid "jobs.*" (OptsCallback "fresh") None w) in
  (Utils.matchSubject "jobs.done" "jobs.*" = true
   /\ round_trip (useJson w) (preserveBuffers w) (VStr "x") = inr (VStr "x")
   /\ fresh_draws sample_uuid (matching Utils.matchSubject "jobs.done" (subs w1)) (drawn (rt w1))
      = true)
  /\ exists w' before after,
       publish Utils.matchSubject sample_uuid all_return "jobs.done" (VStr "x") VUndefined w1
       = (inr tt, w')
       /\ log (rt w')
          = log (rt w) ++ before
            ++ [Called "fresh" [VStr "x"; VUndefined; VStr "jobs.done"]] ++ after
       /\ Sub.received <$> subs w' !! 1 = Some 1%Z.
Proof.
  intros w w1. split; [repeat split|].
  exact (subscribe_then_publish_delivers Utils.matchSubject sample_uuid all_return
           "jobs.*" "fresh" None "jobs.done" (VStr "x") VUndefined w (VStr "x")
           eq_refl eq_refl eq_refl eq_refl).
Defined.

(** [Buffer.from] on arrays and array-like objects: every element becomes
    a byte, whatever it is. *)
Example buffer_from_an_array :
  Buffer_from (VArr [VNum 104; VNum 105; VNum 256; VNum (-1); VBool true; VNull; VUndefined;
                     VStr " 0x41 "; VStr "1e3"; VStr "-1.5"; VStr "text"; VArr [VNum 7];
                     VArr [VNum 1; VNum 2]; VObj []; VFun "f"])
  = inr [Byte.x68; Byte.x69; Byte.x00; Byte.xff; Byte.x01; Byte.x00; Byte.x00;
         Byte.x41; Byte.xe8; Byte.xff; Byte.x00; Byte.x07;
         Byte.x00; Byte.x00; Byte.x00].
Proof. vm_compute. reflexivity. Qed.

Example buffer_from_rounds_to_the_nearest_double :
  Buffer_from (VArr [VStr "0.99999999999999999"; VStr "0.9999999999999999";
                     VStr "4503599627370497.5"; VStr "9007199254740993"; VStr "1e400"])
  = inr [Byte.x01; Byte.x00; Byte.x02; Byte.x00; Byte.x00].
Proof. vm_compute. reflexivity. Qed.

Example buffer_from_an_object :
  Buffer_from (VObj [("0"%string, VNum 65); ("2"%string, VStr "66"); ("length"%string, VNum 3)])
  = inr [Byte.x41; Byte.x00; Byte.x42]
  /\ Buffer_from (VObj [("type"%string, VStr "Buffer"); ("data"%string, VArr [VNum 1; VNum 2])])
     = inr [Byte.x01; Byte.x02]
  /\ Buffer_from (VObj [("length"%string, VStr "3")]) = inr []
  /\ Buffer_from (VObj [("x"%string, VNum 1)]) = inl TypeError
  /\ Buffer_from (VArr [VObj [("toString"%string, VNum 1)]]) = inl TypeError
  /\ Buffer_from (VObj [("valueOf"%string, VFun "f")]) = inl Unmodelled.
Proof. vm_compute. repeat split. Qed.

(** An array published without [json] reaches the handlers as the text of
    its bytes. *)
Example publish_an_array :
  log (rt (snd (publish Utils.matchSubject sample_uuid all_return "jobs"
                  (VArr [VNum 104; VNum 105]) VUndefined one_subscriber)))
  = [Called "handler" [VStr "hi"; VUndefined; VStr "jobs"]].
Proof. reflexivity. Qed.
